(** * PatchPilot utilities: the diff repair and normalization engine

    A shallow embedding of [src/utilities.ts] and the properties of its
    exported text transforms.

    JavaScript strings are sequences of UTF-16 code units; the regular
    expressions of the source carry no [u] flag, so every string operation
    used there works code unit by code unit.  A string is therefore a list of
    code units, each a natural number ([N]). *)

From Stdlib Require Import Strings.String Strings.Ascii Numbers.DecimalString.
From Stdlib Require Import Numbers.DecimalFacts.
From Stdlib Require Import List NArith Arith Bool Lia.
Import ListNotations.

(** ** Code units and strings *)

Definition char := N.
Definition str := list char.

(** An ASCII literal of the source, as code units. *)
Definition lit (s : string) : str := map N_of_ascii (list_ascii_of_string s).

Definition TAB : char := 9%N.
Definition LF : char := 10%N.
Definition CR : char := 13%N.
Definition SP : char := 32%N.

Module Char.

(** [LineTerminator] of ECMAScript: what [.] refuses to match. *)
Definition isLineTerminator (c : char) : bool :=
  (c =? 10)%N || (c =? 13)%N || (c =? 8232)%N || (c =? 8233)%N.

(** [WhiteSpace] and [LineTerminator] of ECMAScript: what
    [String.prototype.trim] strips and what [\s] matches. *)
Definition isWhiteSpace (c : char) : bool :=
  (c =? 9)%N || (c =? 10)%N || (c =? 11)%N || (c =? 12)%N || (c =? 13)%N
  || (c =? 32)%N || (c =? 160)%N || (c =? 5760)%N
  || ((8192 <=? c)%N && (c <=? 8202)%N)
  || (c =? 8232)%N || (c =? 8233)%N || (c =? 8239)%N || (c =? 8287)%N
  || (c =? 12288)%N || (c =? 65279)%N.

(** [\d] *)
Definition isDigit (c : char) : bool := (48 <=? c)%N && (c <=? 57)%N.

(** [.] (no [s] flag) *)
Definition isDot (c : char) : bool := negb (isLineTerminator c).

(** [[+\-]] *)
Definition isPlusMinus (c : char) : bool := (c =? 43)%N || (c =? 45)%N.

End Char.

Module Str.

(** [s.startsWith(p)] *)
Fixpoint startsWith (p s : str) : bool :=
  match p, s with
  | [], _ => true
  | _ :: _, [] => false
  | a :: p', b :: s' => (a =? b)%N && startsWith p' s'
  end.

(** [s.includes(p)] *)
Fixpoint includes (p s : str) : bool :=
  startsWith p s ||
  match s with
  | [] => false
  | _ :: s' => includes p s'
  end.

(** [s.trimStart()], [s.trimEnd()] and [s.trim()] *)
Fixpoint trimStart (s : str) : str :=
  match s with
  | [] => []
  | c :: s' => if Char.isWhiteSpace c then trimStart s' else s
  end.

Definition trimEnd (s : str) : str := rev (trimStart (rev s)).

Definition trim (s : str) : str := trimEnd (trimStart s).

(** [s.split('\n')]: never the empty array, the empty string gives [['']]. *)
Fixpoint split (s : str) : list str :=
  match s with
  | [] => [[]]
  | c :: s' =>
      if (c =? LF)%N then [] :: split s'
      else match split s' with
           | [] => [[c]]
           | l :: ls => (c :: l) :: ls
           end
  end.

(** [lines.join('\n')] *)
Fixpoint join (ls : list str) : str :=
  match ls with
  | [] => []
  | [l] => l
  | l :: ls' => l ++ LF :: join ls'
  end.

(** The decimal rendering of a count inside a template literal.  A count is
    at most the number of lines of a text, far below the range where
    JavaScript prints a number with an exponent. *)
Definition ofNat (n : nat) : str := lit (NilZero.string_of_uint (Nat.to_uint n)).

End Str.

(** ** Regular expressions

    The source decides everything with regular-expression literals.  They are
    kept as syntax and run by a backtracking matcher in continuation-passing
    style, with the priorities of ECMAScript: the left alternative first, a
    quantifier greedy, an iteration that consumes nothing refused. *)

Module Regex.

Inductive regex : Type :=
| Eps                                   (* the empty pattern *)
| Chr (c : char)                        (* a literal code unit *)
| Cls (p : char -> bool)                (* a class: [\d], [.], [[+\-]] *)
| Seq (r1 r2 : regex)
| Alt (r1 r2 : regex)                   (* r1|r2 *)
| Star (r : regex)                      (* r*, greedy *)
| Grp (n : nat) (r : regex)             (* the n-th capturing group *)
| Bol                                   (* ^ without the m flag *)
| Eol.                                  (* $ without the m flag *)

Definition Plus (r : regex) : regex := Seq r (Star r).
Definition Opt (r : regex) : regex := Alt r Eps.

Fixpoint chars (cs : str) : regex :=
  match cs with
  | [] => Eps
  | c :: cs' => Seq (Chr c) (chars cs')
  end.

(** A run of literal characters of the pattern. *)
Definition Lit (s : string) : regex := chars (lit s).

Fixpoint seq (rs : list regex) : regex :=
  match rs with
  | [] => Eps
  | r :: rs' => Seq r (seq rs')
  end.

Fixpoint alts (r : regex) (rs : list regex) : regex :=
  match rs with
  | [] => r
  | r' :: rs' => Alt r (alts r' rs')
  end.

(** The captures of a match: group number and captured text, the most
    recently closed group first.  A group that took no part has no entry
    (it reads as [undefined]). *)
Definition captures := list (nat * str).

(** A continuation receives the input left, its index and the captures. *)
Definition cont := str -> nat -> captures -> option (nat * captures).

Definition accept : cont := fun _ e cs => Some (e, cs).

Definition matcher := str -> nat -> captures -> cont -> option (nat * captures).

(** The iterations of a greedy [r*] whose body is run by [body]: one more
    iteration first, the continuation when that fails.  An iteration that
    leaves the index where it was is refused.  Every accepted iteration
    consumes input, so the length of the input bounds their number. *)
Fixpoint starLoop (body : matcher) (k : cont) (fuel : nat)
  (s : str) (i : nat) (cs : captures) : option (nat * captures) :=
  match fuel with
  | O => k s i cs
  | S fuel' =>
      match body s i cs
              (fun s1 i1 cs1 =>
                 if i <? i1 then starLoop body k fuel' s1 i1 cs1 else None) with
      | Some res => Some res
      | None => k s i cs
      end
  end.

Fixpoint rmatch (r : regex) (s : str) (i : nat) (cs : captures) (k : cont)
  {struct r} : option (nat * captures) :=
  match r with
  | Eps => k s i cs
  | Chr c =>
      match s with
      | x :: s' => if (x =? c)%N then k s' (S i) cs else None
      | [] => None
      end
  | Cls p =>
      match s with
      | x :: s' => if p x then k s' (S i) cs else None
      | [] => None
      end
  | Seq r1 r2 => rmatch r1 s i cs (fun s1 i1 cs1 => rmatch r2 s1 i1 cs1 k)
  | Alt r1 r2 =>
      match rmatch r1 s i cs k with
      | Some res => Some res
      | None => rmatch r2 s i cs k
      end
  | Star r1 => starLoop (rmatch r1) k (length s) s i cs
  | Grp n r1 =>
      rmatch r1 s i cs (fun s1 i1 cs1 => k s1 i1 ((n, firstn (i1 - i) s) :: cs1))
  | Bol => if i =? 0 then k s i cs else None
  | Eol => match s with [] => k s i cs | _ :: _ => None end
  end.

(** [RegExp.prototype.exec] without the [g] flag: the first index at which
    the pattern matches; group 0 is the whole match. *)
Fixpoint execFrom (r : regex) (s : str) (i : nat) : option captures :=
  match rmatch r s i [] accept with
  | Some (e, cs) => Some ((0, firstn (e - i) s) :: cs)
  | None =>
      match s with
      | [] => None
      | _ :: s' => execFrom r s' (S i)
      end
  end.

(** [s.match(r)] for a pattern without the [g] flag; [None] is [null]. *)
Definition exec (r : regex) (s : str) : option captures := execFrom r s 0.

(** [r.test(s)] *)
Definition test (r : regex) (s : str) : bool :=
  match exec r s with Some _ => true | None => false end.

(** [m[n]] on a match array; [None] is [undefined]. *)
Fixpoint group (n : nat) (m : captures) : option str :=
  match m with
  | [] => None
  | (n', g) :: m' => if n =? n' then Some g else group n m'
  end.

(** [s.replaceAll(r, rep)] for a pattern with the [g] flag and a replacement
    without [$]: every match, left to right and not overlapping, replaced;
    [skip] counts the code units of the current match still to drop. *)
Fixpoint replaceAllFrom (r : regex) (rep s : str) (i skip : nat) {struct s} : str :=
  match skip with
  | S skip' =>
      match s with
      | [] => []
      | _ :: s' => replaceAllFrom r rep s' (S i) skip'
      end
  | O =>
      match rmatch r s i [] accept with
      | Some (e, _) =>
          rep ++ match s with
                 | [] => []
                 | c :: s' =>
                     match e - i with
                     | O => c :: replaceAllFrom r rep s' (S i) 0
                     | S skip' => replaceAllFrom r rep s' (S i) skip'
                     end
                 end
      | None =>
          match s with
          | [] => []
          | c :: s' => c :: replaceAllFrom r rep s' (S i) 0
          end
      end
  end.

Definition replaceAll (r : regex) (rep s : str) : str := replaceAllFrom r rep s 0 0.

End Regex.

Import Regex.

(** ** The patterns of the source *)

Module Pattern.

Definition digit : regex := Cls Char.isDigit.
Definition dot : regex := Cls Char.isDot.

(** "/\r\n|\r/g" *)
Definition lineEnding : regex := Alt (Seq (Chr CR) (Chr LF)) (Chr CR).

(** "/^(\+|-| |@|diff |index |---|(\+\+\+)|@@|new file|deleted file|old mode|new mode|similarity index|copy |rename |binary |\\)/" *)
Definition marker : regex :=
  Seq Bol
    (Grp 1
       (alts (Lit "+")
          [Lit "-"; Lit " "; Lit "@"; Lit "diff "; Lit "index "; Lit "---";
           Grp 2 (Lit "+++"); Lit "@@"; Lit "new file"; Lit "deleted file";
           Lit "old mode"; Lit "new mode"; Lit "similarity index";
           Lit "copy "; Lit "rename "; Lit "binary "; Lit "\"])).

(** "/\+\+\+ b\/(.+)/" *)
Definition newFilePath : regex := Seq (Lit "+++ b/") (Grp 1 (Plus dot)).

(** "/^@@ -(\d+)(?:,(\d+))? \+(\d+)(?:,(\d+))? @@( .* )$/", the last group
    written in the source without the blanks around [.*]. *)
Definition hunkHeader : regex :=
  seq [Bol; Lit "@@ -"; Grp 1 (Plus digit);
       Opt (Seq (Lit ",") (Grp 2 (Plus digit)));
       Lit " +"; Grp 3 (Plus digit);
       Opt (Seq (Lit ",") (Grp 4 (Plus digit)));
       Lit " @@"; Grp 5 (Star dot); Eol].

(** "/^diff --git a\/( .* ) b\/( .* )$/", both groups written in the source
    without the blanks around [.*]. *)
Definition gitHeader : regex :=
  seq [Bol; Lit "diff --git a/"; Grp 1 (Star dot); Lit " b/";
       Grp 2 (Star dot); Eol].

(** "/@@ -\d+,\d+ \+\d+,\d+ @@/" *)
Definition strictHunkHeader : regex :=
  seq [Lit "@@ -"; Plus digit; Lit ","; Plus digit; Lit " +"; Plus digit;
       Lit ","; Plus digit; Lit " @@"].

(** "/^[+\-]/" *)
Definition plusMinus : regex := Seq Bol (Cls Char.isPlusMinus).

End Pattern.

(** ** Completions

    A call either completes normally with a value or throws.  On strings of
    any length the only operations of the source that can throw are method
    calls on an array element read out of range ([undefined]); they occur
    inside the loops of [adjustHunkHeaders].  An engine also throws when an
    operation would build a string longer than it can hold; that is the
    subject of [Bounded] further down.  [Exhausted] marks a loop of the
    model that ran out of its iteration bound. *)

Inductive completion (A : Type) : Type :=
| Normal (a : A)
| Throw
| Exhausted.

Arguments Normal {A} a.
Arguments Throw {A}.
Arguments Exhausted {A}.

Definition bind {A B : Type} (c : completion A) (f : A -> completion B) : completion B :=
  match c with
  | Normal a => f a
  | Throw => Throw
  | Exhausted => Exhausted
  end.

Notation "x <- c ;; k" := (bind c (fun x => k))
  (at level 61, c at next level, right associativity).
Notation "' p <- c ;; k" := (bind c (fun x => let p := x in k))
  (at level 61, p pattern, c at next level, right associativity).

(** ** The exported functions *)

Definition isEmpty (s : str) : bool :=
  match s with [] => true | _ :: _ => false end.

(** A value inside a template literal; [undefined] prints as such. *)
Definition template (v : option str) : str :=
  match v with Some s => s | None => lit "undefined" end.

Definition normalizeLineEndings (text : str) : str :=
  replaceAll Pattern.lineEnding [LF] text.

Definition autoFixSpaces (diffText : str) : str :=
  Str.join
    (map (fun line =>
            if negb (isEmpty (Str.trim line)) && negb (test Pattern.marker line)
            then SP :: line
            else line)
       (Str.split diffText)).

(** The local [filePath] of [addMissingHeaders]. *)
Definition filePath (diffText : str) : str :=
  match exec Pattern.newFilePath diffText with
  | Some fileMatch => template (group 1 fileMatch)
  | None => lit "unknown-file"
  end.

Definition addMissingHeaders (diffText : str) : str :=
  if negb (Str.startsWith (lit "diff ") (Str.trim diffText)) then
    let filePath := filePath diffText in
    let header :=
      Str.join [lit "diff --git a/" ++ filePath ++ lit " b/" ++ filePath;
                lit "--- a/" ++ filePath;
                lit "+++ b/" ++ filePath] in
    if negb (Str.includes (lit "--- ") diffText)
       && negb (Str.includes (lit "+++ ") diffText)
    then header ++ [LF] ++ diffText
    else if negb (Str.includes (lit "--- ") diffText)
            && Str.includes (lit "+++ ") diffText
    then lit "diff --git a/" ++ filePath ++ lit " b/" ++ filePath ++ [LF]
         ++ lit "--- a/" ++ filePath ++ [LF] ++ diffText
    else diffText
  else diffText.

(** The inner [while (j < lines.length)] of [adjustHunkHeaders]. *)
Fixpoint lookAheadLoop (fuel : nat) (lines : list str) (j oldLines newLines : nat)
  : completion (nat * nat) :=
  match fuel with
  | O => Exhausted
  | S fuel' =>
      if j <? length lines then
        match nth_error lines j with
        | None => Throw
        | Some nextLine =>
            if Str.startsWith (lit "diff --git") nextLine
               || Str.startsWith (lit "@@ ") nextLine
            then Normal (oldLines, newLines)
            else
              let '(oldLines', newLines') :=
                if Str.startsWith (lit "-") nextLine then (S oldLines, newLines)
                else if Str.startsWith (lit "+") nextLine then (oldLines, S newLines)
                else if Str.startsWith (lit " ") nextLine then (S oldLines, S newLines)
                else (oldLines, newLines) in
              lookAheadLoop fuel' lines (S j) oldLines' newLines'
        end
      else Normal (oldLines, newLines)
  end.

(** The rewritten header line. *)
Definition hunkLine (m : captures) (oldLines newLines : nat) : str :=
  let oldStart := group 1 m in
  let newStart := group 3 m in
  let trailing := match group 5 m with
                  | Some t => if isEmpty t then [] else t
                  | None => []
                  end in
  lit "@@ -" ++ template oldStart ++ lit "," ++ Str.ofNat oldLines
  ++ lit " +" ++ template newStart ++ lit "," ++ Str.ofNat newLines
  ++ lit " @@" ++ trailing.

(** The outer [for (let i = 0; i < lines.length; i++)]. *)
Fixpoint hunkLoop (fuel : nat) (lines : list str) (i : nat) (result : list str)
  : completion (list str) :=
  match fuel with
  | O => Exhausted
  | S fuel' =>
      if i <? length lines then
        match nth_error lines i with
        | None => Throw
        | Some line =>
            match exec Pattern.hunkHeader line with
            | Some m =>
                '(oldLines, newLines) <- lookAheadLoop (S (length lines)) lines (i + 1) 0 0 ;;
                hunkLoop fuel' lines (S i) (result ++ [hunkLine m oldLines newLines])
            | None => hunkLoop fuel' lines (S i) (result ++ [line])
            end
        end
      else Normal result
  end.

Definition adjustHunkHeaders (diffText : str) : completion str :=
  let lines := Str.split diffText in
  result <- hunkLoop (S (length lines)) lines 0 [] ;;
  Normal (Str.join result).

Definition normalizeDiff (diffText : str) : str :=
  let normalized := normalizeLineEndings diffText in
  let normalized := autoFixSpaces normalized in
  let normalized := addMissingHeaders normalized in
  normalized.

Record FileNames : Type := { oldFile : option str; newFile : option str }.

Section Extractor.

(** The path sanitizer of [./security/pathSanitizer], outside this file:
    consumed as a pure function from path to path. *)
Variable sanitizePath : str -> str.

(** Both groups of the pattern take part in every match, so the sanitizer
    always receives a string. *)
Definition extractFileNamesFromHeader (diffHeader : str) : FileNames :=
  match exec Pattern.gitHeader diffHeader with
  | Some gitHeaderMatch =>
      {| oldFile := option_map sanitizePath (group 1 gitHeaderMatch);
         newFile := option_map sanitizePath (group 2 gitHeaderMatch) |}
  | None => {| oldFile := None; newFile := None |}
  end.

End Extractor.

Definition isUnifiedDiff (text : str) : bool :=
  if isEmpty text || isEmpty (Str.trim text) then false
  else
    let hasDiffMarker :=
      Str.includes (lit "diff --git") text
      || Str.includes (lit "--- ") text
      || Str.includes (lit "+++ ") text in
    let hasHunkHeader := test Pattern.strictHunkHeader text in
    let lines := Str.split text in
    let plusMinusLines :=
      filter (fun line => test Pattern.plusMinus (Str.trim line)) lines in
    let hasMultiplePlusMinusLines := 2 <=? length plusMinusLines in
    hasDiffMarker || hasHunkHeader || hasMultiplePlusMinusLines.

(** ** Vocabulary of the properties *)

(** A line holds no line feed. *)
Definition isLine (l : str) : bool := forallb (fun c => negb (c =? LF)%N) l.

(** Whitespace only; the empty line is blank. *)
Definition isBlank (l : str) : bool := forallb Char.isWhiteSpace l.

(** A non-empty run of decimal digits. *)
Definition isNumber (d : str) : bool := negb (isEmpty d) && forallb Char.isDigit d.

(** No line terminator inside. *)
Definition noTerminator (s : str) : bool := forallb Char.isDot s.

(** The first code unit, if any, fails [p]. *)
Definition stopsAt (p : char -> bool) (s : str) : bool :=
  match s with [] => true | x :: _ => negb (p x) end.

(** The prefixes the Context-Space Repairer recognizes. *)
Definition markerPrefixes : list str :=
  map lit ["+"; "-"; " "; "@"; "diff "; "index "; "---"; "+++"; "@@";
           "new file"; "deleted file"; "old mode"; "new mode";
           "similarity index"; "copy "; "rename "; "binary "; "\"]%string.

Definition hasMarker (line : str) : bool :=
  existsb (fun p => Str.startsWith p line) markerPrefixes.

(** The classes of body lines of a hunk. *)
Definition isDeletion (line : str) : bool := Str.startsWith (lit "-") line.
Definition isAddition (line : str) : bool := Str.startsWith (lit "+") line.
Definition isContext (line : str) : bool := Str.startsWith (lit " ") line.
Definition isBodyLine (line : str) : bool :=
  isDeletion line || isAddition line || isContext line.

(** Where the look-ahead stops. *)
Definition isStop (line : str) : bool :=
  Str.startsWith (lit "diff --git") line || Str.startsWith (lit "@@ ") line.

Definition count (f : str -> bool) (ls : list str) : nat := length (filter f ls).

(** The look-ahead over the lines after a header, by recursion on them. *)
Fixpoint lookAhead (ls : list str) (oldLines newLines : nat) : nat * nat :=
  match ls with
  | [] => (oldLines, newLines)
  | nextLine :: ls' =>
      if isStop nextLine then (oldLines, newLines)
      else if isDeletion nextLine then lookAhead ls' (S oldLines) newLines
      else if isAddition nextLine then lookAhead ls' oldLines (S newLines)
      else if isContext nextLine then lookAhead ls' (S oldLines) (S newLines)
      else lookAhead ls' oldLines newLines
  end.

(** The lines [adjustHunkHeaders] produces, by recursion on the lines. *)
Fixpoint adjustLines (ls : list str) : list str :=
  match ls with
  | [] => []
  | line :: ls' =>
      match exec Pattern.hunkHeader line with
      | Some m =>
          let '(oldLines, newLines) := lookAhead ls' 0 0 in
          hunkLine m oldLines newLines :: adjustLines ls'
      | None => line :: adjustLines ls'
      end
  end.

(** An optional count field of a hunk header: absent, or a comma and a number. *)
Definition countField (c : option str) : str :=
  match c with Some d => lit "," ++ d | None => [] end.

Definition isCountField (c : option str) : bool :=
  match c with Some d => isNumber d | None => true end.

(** The entry of an optional group in a match array. *)
Definition optCapture (n : nat) (c : option str) : captures :=
  match c with Some d => [(n, d)] | None => [] end.

(** The text of a hunk header with the given fields. *)
Definition hunkHeaderText (oldStart : str) (oldCount : option str)
  (newStart : str) (newCount : option str) (trailing : str) : str :=
  lit "@@ -" ++ oldStart ++ countField oldCount ++ lit " +" ++ newStart
  ++ countField newCount ++ lit " @@" ++ trailing.

(** The match array of a hunk header with the given fields. *)
Definition hunkCaptures (line oldStart : str) (oldCount : option str)
  (newStart : str) (newCount : option str) (trailing : str) : captures :=
  (0, line) :: (5, trailing) :: optCapture 4 newCount
  ++ (3, newStart) :: optCapture 2 oldCount ++ [(1, oldStart)].

(** The lenient grammar of the recalculator:
    "@@ -<oldStart>[,<oldCount>] +<newStart>[,<newCount>] @@<trailing>". *)
Definition HunkHeader (line : str) : Prop :=
  exists oldStart oldCount newStart newCount trailing,
    line = hunkHeaderText oldStart oldCount newStart newCount trailing
    /\ isNumber oldStart = true /\ isCountField oldCount = true
    /\ isNumber newStart = true /\ isCountField newCount = true
    /\ noTerminator trailing = true.

(** The strict grammar of the classifier, somewhere inside the text:
    "@@ -<digits>,<digits> +<digits>,<digits> @@". *)
Definition ContainsStrictHunkHeader (text : str) : Prop :=
  exists before d1 d2 d3 d4 after,
    text = before ++ hunkHeaderText d1 (Some d2) d3 (Some d4) after
    /\ isNumber d1 = true /\ isNumber d2 = true
    /\ isNumber d3 = true /\ isNumber d4 = true.

(** The line begins, once trimmed, with "+" or "-". *)
Definition beginsPlusMinus (line : str) : bool :=
  match Str.trim line with
  | [] => false
  | c :: _ => Char.isPlusMinus c
  end.

(** The grammar of the extractor: "diff --git a/<old> b/<new>" on one line. *)
Definition GitHeader (old new line : str) : Prop :=
  line = lit "diff --git a/" ++ old ++ lit " b/" ++ new
  /\ noTerminator old = true /\ noTerminator new = true.

(** The preamble as the specification words it, its third line on [a/]. *)
Definition specPreamble (path : str) : str :=
  Str.join [lit "diff --git a/" ++ path ++ lit " b/" ++ path;
            lit "--- a/" ++ path;
            lit "+++ a/" ++ path].

(** The repair of one line as the specification words it: a marker or an
    empty line stays, every other line gains a space. *)
Definition specFixLine (line : str) : str :=
  if hasMarker line || isEmpty line then line else SP :: line.

(** The repair of one line as the source does it. *)
Definition fixLine (line : str) : str :=
  if hasMarker line || isBlank line then line else SP :: line.

(** ** Sample texts *)

Definition text (ls : list string) : str := Str.join (map lit ls).

(** The hunk of the missing-header scenario. *)
Definition bareHunk : str :=
  text ["@@ -1,1 +1,1 @@"; "-old line"; "+new line"]%string.

(** A hunk whose deletion line holds "--- " in its middle. *)
Definition dashedBody : list string :=
  ["@@ -1,1 +1,1 @@"; "-a --- b"; "+c"]%string.

(** A hunk with a line made of one tab. *)
Definition tabbedHunk : str :=
  Str.join [lit "@@ -1,1 +1,2 @@"; lit "foo()"; [TAB]; lit "+bar()"].

(** The wrong-counts scenario, followed by a second hunk. *)
Definition wrongCounts : list string :=
  ["@@ -1,5 +1,2 @@ main()"; " context"; "-old line"; "+new line";
   "@@ -9 +9,7 @@"; "+added"]%string.

(** A hunk that runs into the file markers of the next file section. *)
Definition markersInHunk : list string :=
  ["@@ -3,1 +3,1 @@"; "-x"; "--- a/next.c"; "+++ b/next.c"; "@@ -1 +1 @@"]%string.

(** A sentence that only mentions a hunk header. *)
Definition proseWithHeader : str := lit "see @@ -10,2 +10,3 @@ above".

(** Prose with a single line that begins with a dash. *)
Definition proseWithDash : str := text ["Notes:"; "  - one item"]%string.

(** A stand-in for the sanitizer, for evaluation: it drops the control
    characters below the space. *)
Definition dropControls (path : str) : str := filter (fun c => (32 <=? c)%N) path.

(** A text with a malformed header, a header without counts and Windows
    line ends inside. *)
Definition roughText : str :=
  Str.join [lit "@@ -1 +1 @@"; lit "+a"; lit "@@ -x,2 +3 @@"; lit "context" ++ [CR]].

(** ** Further vocabulary: line endings *)

(** The replacement of line endings, by recursion on the text: a carriage
    return becomes a line feed and swallows the line feed after it. *)
Fixpoint toLF (s : str) : str :=
  match s with
  | [] => []
  | c :: s' =>
      if (c =? CR)%N then
        LF :: match s' with
              | [] => []
              | c2 :: s'' => if (c2 =? LF)%N then toLF s'' else toLF s'
              end
      else c :: toLF s'
  end.

(** No carriage return inside. *)
Definition noCR (s : str) : bool := forallb (fun c => negb (c =? CR)%N) s.

(** The cut between [a] and [b] goes through a carriage return, line feed
    pair. *)
Definition splitsLineEnding (a b : str) : bool :=
  (last a 0%N =? CR)%N && (hd 0%N b =? LF)%N.

(** ** Timers and the two rate limiters

    [debounce] and [throttle] return a closure that keeps one variable
    ([timeout], [inThrottle]) and talks to the host through [setTimeout] and
    [clearTimeout].  The host is its table of pending timers; when a timer
    runs is the host's choice, so time itself is left out: a run is a
    sequence of calls of the closure and of timers the host lets run, in any
    order.  A timer runs once and only while it is pending, and never while
    [func] runs.  What [func] does is recorded as an invocation with the
    call's [this] and arguments, a value of type [A]; [func] may call the
    closure back while it runs, and may throw. *)

Module Timer.

Definition handle := nat.

(** The pending timers, each with its task and its delay, and the next
    handle. *)
Record table (T : Type) : Type :=
  { pending : list (handle * (T * nat)); fresh : handle }.

Arguments pending {T} _.
Arguments fresh {T} _.

Definition empty {T : Type} : table T := {| pending := []; fresh := 0 |}.

(** [setTimeout(task, delay)] *)
Definition setTimeout {T : Type} (task : T) (delay : nat) (ts : table T)
  : handle * table T :=
  (fresh ts,
   {| pending := pending ts ++ [(fresh ts, (task, delay))];
      fresh := S (fresh ts) |}).

(** [clearTimeout(h)] *)
Definition clearTimeout {T : Type} (h : handle) (ts : table T) : table T :=
  {| pending := filter (fun p => negb (fst p =? h)) (pending ts);
     fresh := fresh ts |}.

(** The host takes the timer [h] out of the table to run it. *)
Definition take {T : Type} (h : handle) (ts : table T) : option (T * table T) :=
  match find (fun p => fst p =? h) (pending ts) with
  | Some (_, (task, _)) => Some (task, clearTimeout h ts)
  | None => None
  end.

End Timer.

Section Debounce.

(** The [this] and the arguments of a call. *)
Variable A : Type.
Variable wait : nat.

(** The variable [timeout] of the closure, the host's timers (the task of
    a timer is the closure [later], given by the call it captured) and the
    invocations of [func] so far. *)
Record debounceState : Type :=
  { timeout : option Timer.handle;
    debounceTimers : Timer.table A;
    debounceInvoked : list A }.

Definition debounceInit : debounceState :=
  {| timeout := None; debounceTimers := Timer.empty; debounceInvoked := [] |}.

(** A call of the function [debounce] returns. *)
Definition debounced (a : A) (st : debounceState) : debounceState :=
  let ts := match timeout st with
            | Some h => Timer.clearTimeout h (debounceTimers st)
            | None => debounceTimers st
            end in
  let '(h, ts') := Timer.setTimeout a wait ts in
  {| timeout := Some h; debounceTimers := ts';
     debounceInvoked := debounceInvoked st |}.

(** The closure [later] of the call [a]: [timeout = null], then [func]. *)
Definition later (a : A) (st : debounceState) : debounceState :=
  {| timeout := None; debounceTimers := debounceTimers st;
     debounceInvoked := debounceInvoked st ++ [a] |}.

Inductive debounceEvent : Type :=
| DCall (a : A)                 (* the closure is called *)
| DFire (h : Timer.handle).     (* the host lets timer [h] run *)

(** [later] ends with the call of [func] and nothing of the closure runs
    after it, so the calls [func] makes of the closure while it runs are
    [DCall] events that follow the [DFire] of the timer. *)

Definition debounceStep (st : debounceState) (ev : debounceEvent) : debounceState :=
  match ev with
  | DCall a => debounced a st
  | DFire h =>
      match Timer.take h (debounceTimers st) with
      | Some (a, ts') =>
          later a {| timeout := timeout st; debounceTimers := ts';
                     debounceInvoked := debounceInvoked st |}
      | None => st
      end
  end.

Definition debounceRun (evs : list debounceEvent) : debounceState :=
  fold_left debounceStep evs debounceInit.

(** At most one timer is pending, the one [timeout] names. *)
Definition debounceInv (st : debounceState) : Prop :=
  match timeout st with
  | None => Timer.pending (debounceTimers st) = []
  | Some h => exists a, Timer.pending (debounceTimers st) = [(h, (a, wait))]
  end.

End Debounce.

Section Throttle.

Variable A : Type.
Variable limit : nat.

(** A call of the throttled function: its [this] and arguments, the calls
    [func] makes of the throttled function while it runs on this call,
    should the call invoke it, and whether [func] then returns ([true]) or
    throws. *)
#[warnings="-register-all"] Inductive call : Type :=
| Call (a : A) (callBacks : list call) (returns : bool).

(** The variable [inThrottle], the host's timers (their task resets the
    variable) and the invocations of [func] in the order they start, each
    with whether it returned ([true]) or threw ([false]). *)
Record throttleState : Type :=
  { inThrottle : bool;
    throttleTimers : Timer.table unit;
    throttleInvoked : list (A * bool) }.

Definition throttleInit : throttleState :=
  {| inThrottle := false; throttleTimers := Timer.empty; throttleInvoked := [] |}.

(** The function that [throttle] returns.  [func.apply] runs first, and
    with it the calls [func] makes of the throttled function, which find
    [inThrottle] as the calls before them left it; only when [func] has
    returned is [inThrottle] set and the timer started.  When [func] throws,
    the call throws at that point.  An exception of a call [func] makes
    reaches [func], which catches it or not: what [func] does after it is
    the rest of [callBacks] and [returns]. *)
Fixpoint throttled (c : call) (st : throttleState) {struct c}
  : completion unit * throttleState :=
  if negb (inThrottle st) then
    match c with
    | Call a callBacks returns =>
        let st' :=
          (fix func (cs : list call) (s : throttleState) : throttleState :=
             match cs with
             | [] => s
             | c' :: cs' => func cs' (snd (throttled c' s))
             end) callBacks
            {| inThrottle := inThrottle st; throttleTimers := throttleTimers st;
               throttleInvoked := throttleInvoked st ++ [(a, returns)] |} in
        if returns then
          let '(_, ts') := Timer.setTimeout tt limit (throttleTimers st') in
          (Normal tt,
           {| inThrottle := true; throttleTimers := ts';
              throttleInvoked := throttleInvoked st' |})
        else (Throw, st')
    end
  else (Normal tt, st).

(** The host runs a timer only between calls, never while [func] runs. *)
Inductive throttleEvent : Type :=
| TCall (c : call)
| TFire (h : Timer.handle).

Definition throttleStep (st : throttleState) (ev : throttleEvent) : throttleState :=
  match ev with
  | TCall c => snd (throttled c st)
  | TFire h =>
      match Timer.take h (throttleTimers st) with
      | Some (_, ts') =>
          {| inThrottle := false; throttleTimers := ts';
             throttleInvoked := throttleInvoked st |}
      | None => st
      end
  end.

Definition throttleRun (evs : list throttleEvent) : throttleState :=
  fold_left throttleStep evs throttleInit.

Definition isTFire (ev : throttleEvent) : bool :=
  match ev with TFire _ => true | TCall _ => false end.

(** [func] makes no call of the throttled function on this event. *)
Definition noCallBack (ev : throttleEvent) : bool :=
  match ev with
  | TCall (Call _ [] _) => true
  | TCall (Call _ (_ :: _) _) => false
  | TFire _ => true
  end.

(** The function is throttled exactly while its one timer is pending. *)
Definition throttleInv (st : throttleState) : Prop :=
  if inThrottle st
  then exists h, Timer.pending (throttleTimers st) = [(h, (tt, limit))]
  else Timer.pending (throttleTimers st) = [].

(** The handles of the pending timers are distinct and were all handed out. *)
Definition timersInv (st : throttleState) : Prop :=
  NoDup (map fst (Timer.pending (throttleTimers st)))
  /\ Forall (fun p => fst p < Timer.fresh (throttleTimers st))
       (Timer.pending (throttleTimers st))
  /\ (inThrottle st = true -> Timer.pending (throttleTimers st) <> []).

(** The calls on which [func] returned. *)
Definition returned (st : throttleState) : nat :=
  length (filter snd (throttleInvoked st)).

End Throttle.

Arguments timeout {A} _.
Arguments debounceTimers {A} _.
Arguments debounceInvoked {A} _.
Arguments DCall {A} _.
Arguments DFire {A} _.
Arguments inThrottle {A} _.
Arguments throttleTimers {A} _.
Arguments throttleInvoked {A} _.
Arguments Call {A} _ _ _.
Arguments TCall {A} _.
Arguments TFire {A} _.
Arguments isTFire {A} _.
Arguments noCallBack {A} _.
Arguments returned {A} _.
Arguments debounceInv {A} _ _.
Arguments throttleInv {A} _ _.
Arguments timersInv {A} _.

(** ** Nonces

    [getNonce] draws 16 bytes from [crypto.randomBytes] and prints them with
    [toString('base64')].  The random source is a parameter; the printing is
    the base64 of RFC 4648 with padding, as Node's [Buffer] does it. *)

Definition base64Alphabet : str :=
  lit "ABCDEFGHIJKLMNOPQRSTUVWXYZabcdefghijklmnopqrstuvwxyz0123456789+/".

(** The character "=" of the padding. *)
Definition PAD : char := 61%N.

(** The character of a six-bit value. *)
Definition base64Char (i : N) : char := nth (N.to_nat i) base64Alphabet PAD.

(** The place of a character in the alphabet, 64 when it has none. *)
Fixpoint base64Index (c : char) (alphabet : str) : nat :=
  match alphabet with
  | [] => 0
  | x :: alphabet' => if (x =? c)%N then 0 else S (base64Index c alphabet')
  end.

Definition isBase64Char (c : char) : bool := existsb (N.eqb c) base64Alphabet.

(** Three bytes give four characters; one or two bytes left at the end give
    two or three characters and the padding. *)
Fixpoint toBase64 (bytes : list Byte.byte) : str :=
  match bytes with
  | [] => []
  | [x] =>
      let a := Byte.to_N x in
      [base64Char (a / 4); base64Char ((a mod 4) * 16); PAD; PAD]
  | [x; y] =>
      let a := Byte.to_N x in
      let b := Byte.to_N y in
      [base64Char (a / 4); base64Char ((a mod 4) * 16 + b / 16);
       base64Char ((b mod 16) * 4); PAD]
  | x :: y :: z :: rest =>
      let a := Byte.to_N x in
      let b := Byte.to_N y in
      let c := Byte.to_N z in
      base64Char (a / 4) :: base64Char ((a mod 4) * 16 + b / 16)
      :: base64Char ((b mod 16) * 4 + c / 64) :: base64Char (c mod 64)
      :: toBase64 rest
  end%N.

Section Nonce.

(** [crypto.randomBytes]: asked for [n] bytes, it returns [n] bytes. *)
Variable randomBytes : nat -> list Byte.byte.

Definition getNonce : str := toBase64 (randomBytes 16).

End Nonce.

(** A source that repeats one byte, for evaluation. *)
Definition constantBytes (x : Byte.byte) (n : nat) : list Byte.byte := repeat x n.

(** ** The greatest length of a string

    A JavaScript engine holds strings up to a greatest length, and an
    operation whose result would be longer throws a [RangeError].  The
    source tests no length, so this is how a stage can throw on a string.
    [maxLength] is the bound of the engine.  Every string an operation of
    the source returns goes through [newString]: the pieces of a [split],
    a [trim], the entries of a match array, a concatenation or a template
    literal, a [join], a [replaceAll].  The literals of the source and the
    argument of a stage are strings already. *)

Module Bounded.

Section Limit.

Variable maxLength : nat.

Definition newString (s : str) : completion str :=
  if length s <=? maxLength then Normal s else Throw.

(** [array.map(f)], left to right. *)
Fixpoint mapM {X Y : Type} (f : X -> completion Y) (l : list X)
  : completion (list Y) :=
  match l with
  | [] => Normal []
  | x :: l' => y <- f x ;; ys <- mapM f l' ;; Normal (y :: ys)
  end.

(** [array.filter(f)], left to right. *)
Fixpoint filterM {X : Type} (f : X -> completion bool) (l : list X)
  : completion (list X) :=
  match l with
  | [] => Normal []
  | x :: l' =>
      keep <- f x ;; xs <- filterM f l' ;;
      Normal (if keep then x :: xs else xs)
  end.

Definition split (s : str) : completion (list str) :=
  mapM newString (Str.split s).

Definition trim (s : str) : completion str := newString (Str.trim s).

Definition join (ls : list str) : completion str := newString (Str.join ls).

(** [s.match(r)]: the match array holds the match and the groups that took
    part in it. *)
Definition exec (r : regex) (s : str) : completion (option captures) :=
  match Regex.exec r s with
  | Some m =>
      m' <- mapM (fun entry : nat * str =>
                    g <- newString (snd entry) ;; Normal (fst entry, g)) m ;;
      Normal (Some m')
  | None => Normal None
  end.

Definition normalizeLineEndings (text : str) : completion str :=
  newString (replaceAll Pattern.lineEnding [LF] text).

Definition autoFixSpaces (diffText : str) : completion str :=
  lines <- split diffText ;;
  fixed <- mapM (fun line =>
                   trimmed <- trim line ;;
                   if negb (isEmpty trimmed) && negb (test Pattern.marker line)
                   then newString (SP :: line)
                   else Normal line)
             lines ;;
  join fixed.

Definition addMissingHeaders (diffText : str) : completion str :=
  trimmed <- trim diffText ;;
  if negb (Str.startsWith (lit "diff ") trimmed) then
    fileMatch <- exec Pattern.newFilePath diffText ;;
    let filePath :=
      match fileMatch with
      | Some fileMatch => template (group 1 fileMatch)
      | None => lit "unknown-file"
      end in
    gitLine <- newString (lit "diff --git a/" ++ filePath ++ lit " b/" ++ filePath) ;;
    oldLine <- newString (lit "--- a/" ++ filePath) ;;
    newLine <- newString (lit "+++ b/" ++ filePath) ;;
    header <- join [gitLine; oldLine; newLine] ;;
    if negb (Str.includes (lit "--- ") diffText)
       && negb (Str.includes (lit "+++ ") diffText)
    then
      headerLF <- newString (header ++ [LF]) ;;
      newString (headerLF ++ diffText)
    else if negb (Str.includes (lit "--- ") diffText)
            && Str.includes (lit "+++ ") diffText
    then
      twoLines <- newString (lit "diff --git a/" ++ filePath ++ lit " b/"
                             ++ filePath ++ [LF] ++ lit "--- a/" ++ filePath
                             ++ [LF]) ;;
      newString (twoLines ++ diffText)
    else Normal diffText
  else Normal diffText.

(** The outer loop of [adjustHunkHeaders]; the inner loop builds no string
    and is [lookAheadLoop] as it stands. *)
Fixpoint hunkLoop (fuel : nat) (lines : list str) (i : nat) (result : list str)
  : completion (list str) :=
  match fuel with
  | O => Exhausted
  | S fuel' =>
      if i <? length lines then
        match nth_error lines i with
        | None => Throw
        | Some line =>
            match_ <- exec Pattern.hunkHeader line ;;
            match match_ with
            | Some m =>
                '(oldLines, newLines) <- lookAheadLoop (S (length lines)) lines (i + 1) 0 0 ;;
                newHeader <- newString (hunkLine m oldLines newLines) ;;
                hunkLoop fuel' lines (S i) (result ++ [newHeader])
            | None => hunkLoop fuel' lines (S i) (result ++ [line])
            end
        end
      else Normal result
  end.

Definition adjustHunkHeaders (diffText : str) : completion str :=
  lines <- split diffText ;;
  result <- hunkLoop (S (length lines)) lines 0 [] ;;
  join result.

Definition normalizeDiff (diffText : str) : completion str :=
  normalized <- normalizeLineEndings diffText ;;
  normalized <- autoFixSpaces normalized ;;
  normalized <- addMissingHeaders normalized ;;
  Normal normalized.

Definition isUnifiedDiff (text : str) : completion bool :=
  if isEmpty text then Normal false
  else
    trimmed <- trim text ;;
    if isEmpty trimmed then Normal false
    else
      let hasDiffMarker :=
        Str.includes (lit "diff --git") text
        || Str.includes (lit "--- ") text
        || Str.includes (lit "+++ ") text in
      let hasHunkHeader := test Pattern.strictHunkHeader text in
      lines <- split text ;;
      plusMinusLines <-
        filterM (fun line =>
                   trimmed <- trim line ;; Normal (test Pattern.plusMinus trimmed))
          lines ;;
      let hasMultiplePlusMinusLines := 2 <=? length plusMinusLines in
      Normal (hasDiffMarker || hasHunkHeader || hasMultiplePlusMinusLines).

(** The sanitizer is the collaborator's: a pure function, as before. *)
Variable sanitizePath : str -> str.

Definition extractFileNamesFromHeader (diffHeader : str) : completion FileNames :=
  gitHeaderMatch <- exec Pattern.gitHeader diffHeader ;;
  match gitHeaderMatch with
  | Some gitHeaderMatch =>
      Normal {| oldFile := option_map sanitizePath (group 1 gitHeaderMatch);
                newFile := option_map sanitizePath (group 2 gitHeaderMatch) |}
  | None => Normal {| oldFile := None; newFile := None |}
  end.

End Limit.

End Bounded.

(** A string of [n] letters x. *)
Definition xs (n : nat) : str := repeat 120%N n.

(** The code units of the lines of a text and of the line feeds that end
    them, one for each line. *)
Fixpoint weight (ls : list str) : nat :=
  match ls with
  | [] => 0
  | l :: ls' => S (length l) + weight ls'
  end.

(** ** Facts about strings *)

Section StringFacts.

Lemma startsWith_app (p s : str) : Str.startsWith p (p ++ s) = true.
Proof.
  induction p as [|a p IH]; simpl; [reflexivity|].
  now rewrite N.eqb_refl.
Qed.

Lemma startsWith_inv (p s : str) :
  Str.startsWith p s = true -> exists s', s = p ++ s'.
Proof.
  revert s; induction p as [|a p IH]; intros s H.
  - now exists s.
  - destruct s as [|b s]; simpl in H; [discriminate|].
    apply andb_true_iff in H as [Hab H].
    apply N.eqb_eq in Hab; subst b.
    destruct (IH _ H) as [s' ->]. now exists s'.
Qed.

Lemma startsWith_skipn (p s : str) :
  Str.startsWith p s = true -> s = p ++ skipn (length p) s.
Proof.
  intros H. destruct (startsWith_inv _ _ H) as [s' ->].
  now rewrite skipn_app, skipn_all, Nat.sub_diag.
Qed.

Lemma includes_startsWith (p s : str) :
  Str.startsWith p s = true -> Str.includes p s = true.
Proof.
  intros H. destruct s; simpl; simpl in H; rewrite H; reflexivity.
Qed.

Lemma includes_app (p a b : str) : Str.includes p (a ++ p ++ b) = true.
Proof.
  induction a as [|x a IH]; simpl.
  - apply includes_startsWith, startsWith_app.
  - rewrite IH. apply orb_true_r.
Qed.

Lemma includes_inv (p s : str) :
  Str.includes p s = true -> exists a b, s = a ++ p ++ b.
Proof.
  induction s as [|x s IH]; simpl; intros H.
  - rewrite orb_false_r in H. destruct (startsWith_inv _ _ H) as [b ->].
    now exists [], b.
  - apply orb_true_iff in H as [H|H].
    + destruct (startsWith_inv _ _ H) as [b Hb]. exists [], b. exact Hb.
    + destruct (IH H) as (a & b & ->). now exists (x :: a), b.
Qed.

Lemma includes_prefix (p q s : str) :
  Str.startsWith p q = true -> Str.includes q s = true ->
  Str.includes p s = true.
Proof.
  intros Hp Hq.
  destruct (startsWith_inv _ _ Hp) as [q' ->].
  destruct (includes_inv _ _ Hq) as (a & b & ->).
  rewrite <- !app_assoc. apply includes_app.
Qed.

(** *** Lines *)

Lemma split_nonempty (s : str) : Str.split s <> [].
Proof.
  destruct s as [|c s]; simpl; [discriminate|].
  destruct (c =? LF)%N; [discriminate|].
  destruct (Str.split s); discriminate.
Qed.

Lemma join_cons (l : str) (ls : list str) :
  ls <> [] -> Str.join (l :: ls) = l ++ LF :: Str.join ls.
Proof. destruct ls; [congruence | reflexivity]. Qed.

Lemma join_split (s : str) : Str.join (Str.split s) = s.
Proof.
  induction s as [|c s IH]; [reflexivity|].
  simpl. destruct (c =? LF)%N eqn:E.
  - apply N.eqb_eq in E; subst c.
    rewrite join_cons by apply split_nonempty. now rewrite IH.
  - pose proof (split_nonempty s) as Hne.
    destruct (Str.split s) as [|l ls]; [congruence|].
    destruct ls as [|l' ls].
    + simpl in *. now rewrite IH.
    + change (Str.join ((c :: l) :: l' :: ls))
        with (c :: (l ++ LF :: Str.join (l' :: ls))).
      f_equal. exact IH.
Qed.

Lemma split_line (l : str) : isLine l = true -> Str.split l = [l].
Proof.
  induction l as [|c l IH]; simpl; [reflexivity|].
  intros H. apply andb_true_iff in H as [Hc Hl].
  apply negb_true_iff in Hc. rewrite Hc, (IH Hl). reflexivity.
Qed.

Lemma split_app_line (l s : str) :
  isLine l = true -> Str.split (l ++ LF :: s) = l :: Str.split s.
Proof.
  induction l as [|c l IH]; simpl; [reflexivity|].
  intros H. apply andb_true_iff in H as [Hc Hl].
  apply negb_true_iff in Hc. rewrite Hc, (IH Hl). reflexivity.
Qed.

Lemma split_join (ls : list str) :
  ls <> [] -> forallb isLine ls = true -> Str.split (Str.join ls) = ls.
Proof.
  induction ls as [|l ls IH]; [congruence|].
  intros _ H. simpl in H. apply andb_true_iff in H as [Hl Hls].
  destruct ls as [|l' ls].
  - simpl. now apply split_line.
  - rewrite join_cons by discriminate.
    rewrite split_app_line by assumption.
    f_equal. apply IH; [discriminate | assumption].
Qed.

Lemma split_isLine (s : str) : forallb isLine (Str.split s) = true.
Proof.
  induction s as [|c s IH]; [reflexivity|].
  simpl. destruct (c =? LF)%N eqn:E; [exact IH|].
  destruct (Str.split s) as [|l ls]; simpl in *; rewrite E; simpl.
  - reflexivity.
  - exact IH.
Qed.

Lemma isLine_app (a b : str) : isLine (a ++ b) = isLine a && isLine b.
Proof. apply forallb_app. Qed.

(** *** Trimming *)

Lemma trimStart_app_cons (a b : str) (c : char) :
  Char.isWhiteSpace c = false ->
  Str.trimStart (a ++ c :: b) = Str.trimStart a ++ c :: b.
Proof.
  intros Hc. induction a as [|x a IH]; simpl.
  - now rewrite Hc.
  - destruct (Char.isWhiteSpace x); [exact IH | reflexivity].
Qed.

Lemma trimEnd_app_cons (a b : str) (c : char) :
  Char.isWhiteSpace c = false ->
  Str.trimEnd (a ++ c :: b) = a ++ c :: Str.trimEnd b.
Proof.
  intros Hc. unfold Str.trimEnd.
  rewrite rev_app_distr. simpl. rewrite <- app_assoc. simpl.
  rewrite trimStart_app_cons by assumption.
  rewrite rev_app_distr. simpl. rewrite rev_involutive, <- app_assoc.
  reflexivity.
Qed.

Lemma isBlank_rev (s : str) : isBlank (rev s) = isBlank s.
Proof.
  unfold isBlank. induction s as [|c s IH]; [reflexivity|].
  simpl. rewrite forallb_app, IH. simpl. rewrite andb_true_r. apply andb_comm.
Qed.

Lemma trimStart_blank_iff (s : str) : isEmpty (Str.trimStart s) = isBlank s.
Proof.
  induction s as [|c s IH]; [reflexivity|].
  simpl. destruct (Char.isWhiteSpace c); [exact IH | reflexivity].
Qed.

Lemma isEmpty_rev (s : str) : isEmpty (rev s) = isEmpty s.
Proof.
  destruct s as [|c s]; [reflexivity|].
  simpl. now destruct (rev s).
Qed.

Lemma trimStart_idem_blank (s : str) :
  isBlank (Str.trimStart s) = isBlank s.
Proof.
  induction s as [|c s IH]; [reflexivity|].
  simpl. destruct (Char.isWhiteSpace c) eqn:E; [exact IH|].
  simpl. now rewrite E.
Qed.

(** [line.trim() === ''] holds exactly of the blank lines. *)
Lemma trim_blank (s : str) : isEmpty (Str.trim s) = isBlank s.
Proof.
  unfold Str.trim, Str.trimEnd.
  rewrite isEmpty_rev, trimStart_blank_iff, isBlank_rev.
  apply trimStart_idem_blank.
Qed.

(** A text that opens with a literal whose first character is no white
    space, and goes on with another such character, keeps the literal
    under [trim]. *)
Lemma startsWith_trim (p s : str) (x c : char) :
  Char.isWhiteSpace x = false -> Char.isWhiteSpace c = false ->
  Str.startsWith (x :: p) (Str.trim ((x :: p) ++ c :: s)) = true.
Proof.
  intros Hx Hc. unfold Str.trim. simpl Str.trimStart. rewrite Hx.
  change (x :: p ++ c :: s) with ((x :: p) ++ c :: s).
  rewrite trimEnd_app_cons by assumption.
  apply startsWith_app.
Qed.

End StringFacts.

(** ** Facts about the matcher *)

Section RegexFacts.

Implicit Types (r : regex) (s a : str) (i : nat) (cs : captures) (k : cont).

(** *** Literals *)

Lemma rmatch_chars (p : str) s i cs k :
  rmatch (chars p) s i cs k =
  if Str.startsWith p s then k (skipn (length p) s) (i + length p) cs else None.
Proof.
  revert s i; induction p as [|c p IH]; intros s i.
  - simpl. now rewrite Nat.add_0_r.
  - destruct s as [|x s]; simpl; [reflexivity|].
    rewrite N.eqb_sym. destruct (c =? x)%N; simpl; [|reflexivity].
    rewrite IH. now rewrite Nat.add_succ_r.
Qed.

Lemma rmatch_chars_app (p : str) s i cs k :
  rmatch (chars p) (p ++ s) i cs k = k s (i + length p) cs.
Proof.
  rewrite rmatch_chars, startsWith_app.
  now rewrite skipn_app, skipn_all, Nat.sub_diag.
Qed.

Lemma rmatch_chars_inv (p : str) s i cs k res :
  rmatch (chars p) s i cs k = Some res ->
  exists s', s = p ++ s' /\ k s' (i + length p) cs = Some res.
Proof.
  rewrite rmatch_chars. destruct (Str.startsWith p s) eqn:E; [|discriminate].
  intros H. exists (skipn (length p) s). split; [|exact H].
  now apply startsWith_skipn.
Qed.

Lemma rmatch_chars_fail (p : str) s i cs k :
  Str.startsWith p s = false -> rmatch (chars p) s i cs k = None.
Proof. intros H. now rewrite rmatch_chars, H. Qed.

(** *** A starred class *)

Lemma star_cls_unfold (p : char -> bool) s i cs k :
  rmatch (Star (Cls p)) s i cs k =
  match s with
  | x :: s' =>
      if p x then
        match rmatch (Star (Cls p)) s' (S i) cs k with
        | Some res => Some res
        | None => k s i cs
        end
      else k s i cs
  | [] => k s i cs
  end.
Proof.
  destruct s as [|x s']; simpl; [reflexivity|].
  destruct (p x); [|reflexivity].
  assert (E : (i <? S i) = true) by (apply Nat.ltb_lt; lia).
  now rewrite E.
Qed.

(** The longest run is taken when the continuation accepts after it. *)
Lemma star_cls_max (p : char -> bool) a s i cs k res :
  forallb p a = true -> stopsAt p s = true ->
  k s (i + length a) cs = Some res ->
  rmatch (Star (Cls p)) (a ++ s) i cs k = Some res.
Proof.
  revert i; induction a as [|x a IH]; intros i Ha Hs Hk.
  - simpl app. rewrite star_cls_unfold. simpl in Hk. rewrite Nat.add_0_r in Hk.
    destruct s as [|y s]; [exact Hk|].
    simpl in Hs. apply negb_true_iff in Hs. now rewrite Hs.
  - simpl in Ha. apply andb_true_iff in Ha as [Hx Ha].
    simpl app. rewrite star_cls_unfold, Hx.
    rewrite (IH (S i) Ha Hs); [reflexivity|].
    simpl in Hk. now rewrite Nat.add_succ_r in Hk.
Qed.

(** Whatever it returns, it returns after some run of the class. *)
Lemma star_cls_inv (p : char -> bool) s i cs k res :
  rmatch (Star (Cls p)) s i cs k = Some res ->
  exists a s', s = a ++ s' /\ forallb p a = true
               /\ k s' (i + length a) cs = Some res.
Proof.
  revert i; induction s as [|x s IH]; intros i H; rewrite star_cls_unfold in H.
  - exists [], []. simpl. now rewrite Nat.add_0_r.
  - destruct (p x) eqn:Hx.
    + destruct (rmatch (Star (Cls p)) s (S i) cs k) eqn:E.
      * injection H as <-. destruct (IH _ E) as (a & s' & -> & Ha & Hk).
        exists (x :: a), s'. simpl. rewrite Hx, Ha, Nat.add_succ_r. auto.
      * exists [], (x :: s). simpl. now rewrite Nat.add_0_r.
    + exists [], (x :: s). simpl. now rewrite Nat.add_0_r.
Qed.

(** It returns something as soon as the continuation accepts after some
    run of the class. *)
Lemma star_cls_complete (p : char -> bool) a s i cs k :
  forallb p a = true -> k s (i + length a) cs <> None ->
  rmatch (Star (Cls p)) (a ++ s) i cs k <> None.
Proof.
  revert i; induction a as [|x a IH]; intros i Ha Hk.
  - simpl in Hk. simpl app. rewrite Nat.add_0_r in Hk. rewrite star_cls_unfold.
    destruct s as [|y s]; [exact Hk|].
    destruct (p y); [|exact Hk].
    now destruct (rmatch (Star (Cls p)) s (S i) cs k).
  - simpl in Ha. apply andb_true_iff in Ha as [Hx Ha].
    simpl app. rewrite star_cls_unfold, Hx.
    specialize (IH (S i) Ha). simpl in Hk. rewrite Nat.add_succ_r in Hk.
    specialize (IH Hk).
    now destruct (rmatch (Star (Cls p)) (a ++ s) (S i) cs k).
Qed.

(** What it returns, it returns after the longest run of the class the
    continuation accepts. *)
Lemma star_cls_inv_longest (p : char -> bool) s i cs k res :
  rmatch (Star (Cls p)) s i cs k = Some res ->
  exists a s', s = a ++ s' /\ forallb p a = true
               /\ k s' (i + length a) cs = Some res
               /\ forall a2 s2, s = a2 ++ s2 -> forallb p a2 = true ->
                                length a < length a2 ->
                                k s2 (i + length a2) cs = None.
Proof.
  revert i; induction s as [|x s IH]; intros i H; rewrite star_cls_unfold in H.
  - exists [], []. cbn [app length forallb]. rewrite Nat.add_0_r.
    repeat split; try assumption.
    intros a2 s2 E _ Hlt. symmetry in E. apply app_eq_nil in E as [-> _].
    cbn [length] in Hlt. lia.
  - assert (Hshort : forall a2 s2, x :: s = a2 ++ s2 -> forallb p a2 = true ->
                       0 < length a2 ->
                       rmatch (Star (Cls p)) s (S i) cs k = None ->
                       k s2 (i + length a2) cs = None).
    { intros a2 s2 E Ha2 Hlt Hnone.
      destruct a2 as [|y a2]; [cbn [length] in Hlt; lia|].
      cbn [app] in E. injection E as <- ->.
      cbn [forallb] in Ha2. apply andb_true_iff in Ha2 as [_ Ha2].
      destruct (k s2 (i + length (x :: a2)) cs) eqn:Ek; [|reflexivity].
      exfalso. apply (star_cls_complete p a2 s2 (S i) cs k Ha2); [|exact Hnone].
      cbn [length] in Ek. rewrite Nat.add_succ_r in Ek.
      cbn [Nat.add]. congruence. }
    destruct (p x) eqn:Hx.
    + destruct (rmatch (Star (Cls p)) s (S i) cs k) eqn:E.
      * injection H as <-.
        destruct (IH _ E) as (a & s' & -> & Ha & Hk & Hmax).
        exists (x :: a), s'. cbn [app length forallb].
        rewrite Hx, Ha, Nat.add_succ_r. repeat split; try assumption.
        intros a2 s2 E2 Ha2 Hlt.
        destruct a2 as [|y a2]; [cbn [length] in Hlt; lia|].
        cbn [app] in E2. injection E2 as <- E2.
        cbn [forallb] in Ha2. apply andb_true_iff in Ha2 as [_ Ha2].
        cbn [length] in *. rewrite Nat.add_succ_r.
        apply (Hmax a2 s2 E2 Ha2). lia.
      * exists [], (x :: s). cbn [app length forallb]. rewrite Nat.add_0_r.
        repeat split; try assumption.
        intros a2 s2 E2 Ha2 Hlt. now apply Hshort.
    + exists [], (x :: s). cbn [app length forallb]. rewrite Nat.add_0_r.
      repeat split; try assumption.
      intros a2 s2 E2 Ha2 Hlt.
      destruct a2 as [|y a2]; [cbn [length] in Hlt; lia|].
      cbn [app] in E2. injection E2 as <- _.
      cbn [forallb] in Ha2. rewrite Hx in Ha2. discriminate.
Qed.

Lemma firstn_run a s i : firstn (i + length a - i) (a ++ s) = a.
Proof.
  replace (i + length a - i) with (length a + 0) by lia.
  rewrite firstn_app_2. simpl. apply app_nil_r.
Qed.

(** *** Captured runs of a class *)

Lemma grp_star_max (p : char -> bool) n a s i cs k res :
  forallb p a = true -> stopsAt p s = true ->
  k s (i + length a) ((n, a) :: cs) = Some res ->
  rmatch (Grp n (Star (Cls p))) (a ++ s) i cs k = Some res.
Proof.
  intros Ha Hs Hk. cbn [rmatch].
  change (starLoop (rmatch (Cls p)) ?k' (length ?s') ?s' ?i' ?c')
    with (rmatch (Star (Cls p)) s' i' c' k').
  apply star_cls_max; try assumption.
  now rewrite firstn_run.
Qed.

Lemma grp_star_inv (p : char -> bool) n s i cs k res :
  rmatch (Grp n (Star (Cls p))) s i cs k = Some res ->
  exists a s', s = a ++ s' /\ forallb p a = true
               /\ k s' (i + length a) ((n, a) :: cs) = Some res.
Proof.
  intros H. cbn [rmatch] in H.
  change (starLoop (rmatch (Cls p)) ?k' (length ?s') ?s' ?i' ?c')
    with (rmatch (Star (Cls p)) s' i' c' k') in H.
  apply star_cls_inv in H as (a & s' & -> & Ha & Hk).
  rewrite firstn_run in Hk. now exists a, s'.
Qed.

Lemma grp_star_inv_longest (p : char -> bool) n s i cs k res :
  rmatch (Grp n (Star (Cls p))) s i cs k = Some res ->
  exists a s', s = a ++ s' /\ forallb p a = true
               /\ k s' (i + length a) ((n, a) :: cs) = Some res
               /\ forall a2 s2, s = a2 ++ s2 -> forallb p a2 = true ->
                                length a < length a2 ->
                                k s2 (i + length a2) ((n, a2) :: cs) = None.
Proof.
  intros H. cbn [rmatch] in H.
  change (starLoop (rmatch (Cls p)) ?k' (length ?s') ?s' ?i' ?c')
    with (rmatch (Star (Cls p)) s' i' c' k') in H.
  apply star_cls_inv_longest in H as (a & s' & -> & Ha & Hk & Hmax).
  rewrite firstn_run in Hk. exists a, s'. repeat split; try assumption.
  intros a2 s2 E Ha2 Hlt. specialize (Hmax a2 s2 E Ha2 Hlt).
  cbv beta in Hmax. rewrite E, firstn_run in Hmax. exact Hmax.
Qed.

Lemma grp_star_complete (p : char -> bool) n a s i cs k :
  forallb p a = true -> k s (i + length a) ((n, a) :: cs) <> None ->
  rmatch (Grp n (Star (Cls p))) (a ++ s) i cs k <> None.
Proof.
  intros Ha Hk. cbn [rmatch].
  change (starLoop (rmatch (Cls p)) ?k' (length ?s') ?s' ?i' ?c')
    with (rmatch (Star (Cls p)) s' i' c' k').
  apply star_cls_complete; [assumption|].
  now rewrite firstn_run.
Qed.

(** *** One or more of a class *)

Lemma plus_cls_unfold (p : char -> bool) s i cs k :
  rmatch (Plus (Cls p)) s i cs k =
  match s with
  | x :: s' => if p x then rmatch (Star (Cls p)) s' (S i) cs k else None
  | [] => None
  end.
Proof. reflexivity. Qed.

Lemma plus_cls_max (p : char -> bool) a s i cs k res :
  isEmpty a = false -> forallb p a = true -> stopsAt p s = true ->
  k s (i + length a) cs = Some res ->
  rmatch (Plus (Cls p)) (a ++ s) i cs k = Some res.
Proof.
  destruct a as [|x a]; [discriminate|]. intros _ Ha Hs Hk.
  simpl in Ha. apply andb_true_iff in Ha as [Hx Ha].
  simpl app. rewrite plus_cls_unfold, Hx.
  apply star_cls_max; try assumption.
  simpl in Hk. now rewrite Nat.add_succ_r in Hk.
Qed.

Lemma plus_cls_inv (p : char -> bool) s i cs k res :
  rmatch (Plus (Cls p)) s i cs k = Some res ->
  exists a s', s = a ++ s' /\ isEmpty a = false /\ forallb p a = true
               /\ k s' (i + length a) cs = Some res.
Proof.
  rewrite plus_cls_unfold. destruct s as [|x s]; [discriminate|].
  destruct (p x) eqn:Hx; [|discriminate].
  intros H. apply star_cls_inv in H as (a & s' & -> & Ha & Hk).
  exists (x :: a), s'. simpl. rewrite Hx, Ha, Nat.add_succ_r. auto.
Qed.

Lemma grp_plus_max (p : char -> bool) n a s i cs k res :
  isEmpty a = false -> forallb p a = true -> stopsAt p s = true ->
  k s (i + length a) ((n, a) :: cs) = Some res ->
  rmatch (Grp n (Plus (Cls p))) (a ++ s) i cs k = Some res.
Proof.
  intros Ha0 Ha Hs Hk.
  change (rmatch (Plus (Cls p)) (a ++ s) i cs
            (fun s1 i1 cs1 => k s1 i1 ((n, firstn (i1 - i) (a ++ s)) :: cs1))
          = Some res).
  apply plus_cls_max; try assumption.
  now rewrite firstn_run.
Qed.

Lemma grp_plus_inv (p : char -> bool) n s i cs k res :
  rmatch (Grp n (Plus (Cls p))) s i cs k = Some res ->
  exists a s', s = a ++ s' /\ isEmpty a = false /\ forallb p a = true
               /\ k s' (i + length a) ((n, a) :: cs) = Some res.
Proof.
  intros H.
  change (rmatch (Plus (Cls p)) s i cs
            (fun s1 i1 cs1 => k s1 i1 ((n, firstn (i1 - i) s) :: cs1))
          = Some res) in H.
  apply plus_cls_inv in H as (a & s' & -> & Ha0 & Ha & Hk).
  rewrite firstn_run in Hk. now exists a, s'.
Qed.

(** *** Anchors and the search for the first match *)

Lemma execFrom_bol r s i : execFrom (Seq Bol r) s (S i) = None.
Proof.
  revert i; induction s as [|x s IH]; intros i; simpl; [reflexivity|].
  apply IH.
Qed.

Lemma exec_bol r s :
  exec (Seq Bol r) s =
  match rmatch r s 0 [] accept with
  | Some (e, cs) => Some ((0, firstn (e - 0) s) :: cs)
  | None => None
  end.
Proof.
  unfold exec. destruct s as [|x s]; simpl.
  - now destruct (rmatch r [] 0 [] accept) as [[e cs]|].
  - destruct (rmatch r (x :: s) 0 [] accept) as [[e cs]|]; [reflexivity|].
    apply execFrom_bol.
Qed.

Lemma execFrom_inv r s i m :
  execFrom r s i = Some m ->
  exists a b res, s = a ++ b /\ rmatch r b (i + length a) [] accept = Some res.
Proof.
  revert i; induction s as [|x s IH]; intros i H; simpl in H.
  - destruct (rmatch r [] i [] accept) as [res|] eqn:E; [|discriminate].
    exists [], [], res. simpl. now rewrite Nat.add_0_r.
  - destruct (rmatch r (x :: s) i [] accept) as [res|] eqn:E.
    + exists [], (x :: s), res. simpl. now rewrite Nat.add_0_r.
    + destruct (IH _ H) as (a & b & res & -> & Hm).
      exists (x :: a), b, res. simpl. now rewrite Nat.add_succ_r.
Qed.

Lemma execFrom_complete r a b i :
  rmatch r b (i + length a) [] accept <> None ->
  execFrom r (a ++ b) i <> None.
Proof.
  revert i; induction a as [|x a IH]; intros i H.
  - simpl in *. rewrite Nat.add_0_r in H.
    destruct b as [|y b]; simpl;
      destruct (rmatch r _ i [] accept) as [[e cs]|]; congruence.
  - simpl app. simpl execFrom.
    destruct (rmatch r (x :: a ++ b) i [] accept) as [[e cs]|]; [discriminate|].
    apply IH. simpl in H. now rewrite Nat.add_succ_r in H.
Qed.

(** *** Sequences, alternatives, optional counts *)

Lemma rmatch_seq r1 r2 s i cs k :
  rmatch (Seq r1 r2) s i cs k
  = rmatch r1 s i cs (fun s1 i1 cs1 => rmatch r2 s1 i1 cs1 k).
Proof. reflexivity. Qed.

Lemma rmatch_lit_app (p : string) s i cs k :
  rmatch (Lit p) (lit p ++ s) i cs k = k s (i + length (lit p)) cs.
Proof. apply rmatch_chars_app. Qed.

Lemma rmatch_lit_inv (p : string) s i cs k res :
  rmatch (Lit p) s i cs k = Some res ->
  exists s', s = lit p ++ s' /\ k s' (i + length (lit p)) cs = Some res.
Proof. apply rmatch_chars_inv. Qed.

Lemma rmatch_lit_fail (p : string) s i cs k :
  Str.startsWith (lit p) s = false -> rmatch (Lit p) s i cs k = None.
Proof. apply rmatch_chars_fail. Qed.

Lemma alt_left r1 r2 s i cs k res :
  rmatch r1 s i cs k = Some res -> rmatch (Alt r1 r2) s i cs k = Some res.
Proof. intros H. cbn [rmatch]. now rewrite H. Qed.

Lemma alt_right r1 r2 s i cs k :
  rmatch r1 s i cs k = None ->
  rmatch (Alt r1 r2) s i cs k = rmatch r2 s i cs k.
Proof. intros H. cbn [rmatch]. now rewrite H. Qed.

Lemma alt_inv r1 r2 s i cs k res :
  rmatch (Alt r1 r2) s i cs k = Some res ->
  rmatch r1 s i cs k = Some res \/ rmatch r2 s i cs k = Some res.
Proof.
  cbn [rmatch]. destruct (rmatch r1 s i cs k); intros H; [left | right];
    assumption.
Qed.

Lemma grp_star_all (p : char -> bool) n a i cs k res :
  forallb p a = true ->
  k [] (i + length a) ((n, a) :: cs) = Some res ->
  rmatch (Grp n (Star (Cls p))) a i cs k = Some res.
Proof.
  intros Ha Hk. rewrite <- (app_nil_r a) at 1.
  now apply grp_star_max.
Qed.

Lemma opt_count_max n (c : option str) s i cs k res :
  isCountField c = true ->
  stopsAt Char.isDigit s = true -> Str.startsWith (lit ",") s = false ->
  k s (i + length (countField c)) (optCapture n c ++ cs) = Some res ->
  rmatch (Opt (Seq (Lit ",") (Grp n (Plus Pattern.digit))))
    (countField c ++ s) i cs k = Some res.
Proof.
  intros Hc Hs Hcomma Hk. unfold Opt. destruct c as [d|]; cbn [countField].
  - apply alt_left. rewrite rmatch_seq, <- app_assoc, rmatch_lit_app.
    cbn [isCountField] in Hc. unfold isNumber in Hc.
    apply andb_true_iff in Hc as [Hd0 Hd]. apply negb_true_iff in Hd0.
    apply grp_plus_max; try assumption.
    cbn [countField optCapture app] in Hk.
    rewrite length_app, Nat.add_assoc in Hk. exact Hk.
  - rewrite alt_right.
    + cbn [rmatch app]. cbn [countField optCapture app length] in Hk.
      now rewrite Nat.add_0_r in Hk.
    + rewrite rmatch_seq. now apply rmatch_lit_fail.
Qed.

Lemma opt_count_inv n s i cs k res :
  rmatch (Opt (Seq (Lit ",") (Grp n (Plus Pattern.digit)))) s i cs k = Some res ->
  exists c s', s = countField c ++ s' /\ isCountField c = true
               /\ k s' (i + length (countField c)) (optCapture n c ++ cs) = Some res.
Proof.
  intros H. apply alt_inv in H as [H|H].
  - rewrite rmatch_seq in H. apply rmatch_lit_inv in H as (s1 & -> & H).
    apply grp_plus_inv in H as (d & s' & -> & Hd0 & Hd & H).
    exists (Some d), s'. cbn [countField isCountField optCapture app].
    unfold isNumber. rewrite Hd0, Hd, <- app_assoc, length_app, Nat.add_assoc.
    auto.
  - exists None, s. cbn [rmatch] in H. cbn [countField length app optCapture].
    now rewrite Nat.add_0_r.
Qed.

Lemma eol_accept_inv s i cs res :
  rmatch (Seq Eol Eps) s i cs accept = Some res -> s = [] /\ res = (i, cs).
Proof.
  cbn [rmatch]. destruct s; [|discriminate]. unfold accept.
  intros H. now injection H as <-.
Qed.

End RegexFacts.

(** ** The Header Synthesizer *)

Section HeaderSynthesizer.

(** The pattern that recovers a path only matches where "+++ " occurs. *)
Lemma newFilePath_includes (text : str) (m : captures) :
  exec Pattern.newFilePath text = Some m ->
  Str.includes (lit "+++ ") text = true.
Proof.
  intros H. apply execFrom_inv in H as (a & b & res & -> & H).
  unfold Pattern.newFilePath, Lit in H. cbn [rmatch] in H.
  apply rmatch_chars_inv in H as (s' & -> & _).
  apply includes_prefix with (q := lit "+++ b/"); [reflexivity|].
  apply includes_app.
Qed.

Lemma filePath_unknown (text : str) :
  Str.includes (lit "+++ ") text = false -> filePath text = lit "unknown-file".
Proof.
  intros H. unfold filePath.
  destruct (exec Pattern.newFilePath text) as [m|] eqn:E; [|reflexivity].
  apply newFilePath_includes in E. congruence.
Qed.

Lemma trim_diff (s : str) :
  Str.startsWith (lit "diff ") (Str.trim (lit "diff --git a/" ++ s)) = true.
Proof.
  exact (startsWith_trim (lit "iff ") (lit "-git a/" ++ s) 100%N 45%N
           eq_refl eq_refl).
Qed.

(** A text the synthesizer has put a preamble on is left alone. *)
Lemma addMissingHeaders_diff (s : str) :
  addMissingHeaders (lit "diff --git a/" ++ s) = lit "diff --git a/" ++ s.
Proof. unfold addMissingHeaders. now rewrite trim_diff. Qed.

(** The three cases of the synthesizer. *)
Lemma addMissingHeaders_cases (diffText : str) :
  addMissingHeaders diffText = diffText
  \/ exists s, addMissingHeaders diffText = lit "diff --git a/" ++ s.
Proof.
  unfold addMissingHeaders.
  destruct (Str.startsWith (lit "diff ") (Str.trim diffText)); simpl negb;
    cbv iota; [now left|].
  destruct (Str.includes (lit "--- ") diffText); simpl negb; cbv iota;
    [now left|].
  destruct (Str.includes (lit "+++ ") diffText); simpl negb; cbv iota; right.
  - unfold Str.join. rewrite <- ?app_assoc. eexists. reflexivity.
  - eexists. reflexivity.
Qed.

(** C1, as amended: a text that does not start, once trimmed, with "diff "
    and holds neither "--- " nor "+++ " comes back behind the three lines
    "diff --git a/<p> b/<p>", "--- a/<p>" and "+++ b/<p>" (the third on
    [b/]), where <p> is the recovered path; no "+++ b/<path>" can occur in
    such a text, so <p> is the literal "unknown-file". *)
Theorem addMissingHeaders_synthesizes (diffText : str) :
  Str.startsWith (lit "diff ") (Str.trim diffText) = false ->
  Str.includes (lit "--- ") diffText = false ->
  Str.includes (lit "+++ ") diffText = false ->
  filePath diffText = lit "unknown-file"
  /\ addMissingHeaders diffText
     = Str.join [lit "diff --git a/" ++ filePath diffText
                   ++ lit " b/" ++ filePath diffText;
                 lit "--- a/" ++ filePath diffText;
                 lit "+++ b/" ++ filePath diffText;
                 diffText].
Proof.
  intros Hd Hm Hp. split; [now apply filePath_unknown|].
  unfold addMissingHeaders. rewrite Hd, Hm, Hp. cbn [negb andb].
  unfold Str.join.
  repeat (rewrite <- app_assoc || rewrite <- app_comm_cons).
  reflexivity.
Qed.

Lemma addMissingHeaders_synthesizes_witness :
  filePath bareHunk = lit "unknown-file"
  /\ addMissingHeaders bareHunk
     = text ["diff --git a/unknown-file b/unknown-file";
             "--- a/unknown-file"; "+++ b/unknown-file";
             "@@ -1,1 +1,1 @@"; "-old line"; "+new line"]%string.
Proof.
  destruct (addMissingHeaders_synthesizes bareHunk eq_refl eq_refl eq_refl)
    as [Hp H].
  split; [exact Hp|]. rewrite H, Hp. reflexivity.
Defined.

(** C1 as the specification words it fails on the missing-header scenario:
    the third line of the preamble is not on [a/]. *)
Lemma addMissingHeaders_spec_preamble_fails :
  Str.startsWith (lit "diff ") (Str.trim bareHunk) = false
  /\ Str.includes (lit "--- ") bareHunk = false
  /\ Str.includes (lit "+++ ") bareHunk = false
  /\ addMissingHeaders bareHunk
     <> specPreamble (filePath bareHunk) ++ [LF] ++ bareHunk.
Proof.
  repeat split; try reflexivity.
  vm_compute. discriminate.
Qed.

(** C5: the synthesizer is idempotent. *)
Theorem addMissingHeaders_idempotent (diffText : str) :
  addMissingHeaders (addMissingHeaders diffText) = addMissingHeaders diffText.
Proof.
  destruct (addMissingHeaders_cases diffText) as [E | [s E]]; rewrite E.
  - exact E.
  - apply addMissingHeaders_diff.
Qed.

(** C8: the presence of "--- " is a substring test over the whole text:
    a text that does not start, once trimmed, with "diff " and holds
    "--- " at any place comes back unchanged. *)
Theorem addMissingHeaders_old_marker_anywhere (before after : str) :
  Str.startsWith (lit "diff ") (Str.trim (before ++ lit "--- " ++ after)) = false ->
  addMissingHeaders (before ++ lit "--- " ++ after)
  = before ++ lit "--- " ++ after.
Proof.
  intros Hd. unfold addMissingHeaders.
  now rewrite Hd, includes_app.
Qed.

Lemma addMissingHeaders_old_marker_anywhere_witness :
  addMissingHeaders (text dashedBody) = text dashedBody.
Proof.
  exact (addMissingHeaders_old_marker_anywhere
           (text ["@@ -1,1 +1,1 @@"; "-a "]%string)
           (text ["b"; "+c"]%string) eq_refl).
Defined.

End HeaderSynthesizer.

(** ** The Context-Space Repairer *)

Section ContextSpaceRepairer.

(** The pattern of the repairer tests the recognized prefixes. *)
Lemma marker_test (line : str) : test Pattern.marker line = hasMarker line.
Proof.
  unfold test, Pattern.marker. rewrite exec_bol.
  cbn [rmatch alts]. unfold Lit. rewrite !rmatch_chars.
  unfold hasMarker, markerPrefixes. cbn [map existsb].
  repeat match goal with
         | |- context [Str.startsWith ?p line] =>
             destruct (Str.startsWith p line); [reflexivity|]
         end.
  reflexivity.
Qed.

Lemma autoFixSpaces_fixLine (diffText : str) :
  autoFixSpaces diffText = Str.join (map fixLine (Str.split diffText)).
Proof.
  unfold autoFixSpaces. f_equal. apply map_ext. intros line.
  unfold fixLine. rewrite trim_blank, marker_test.
  now destruct (hasMarker line), (isBlank line).
Qed.

Lemma fixLine_isLine (line : str) : isLine line = true -> isLine (fixLine line) = true.
Proof.
  intros H. unfold fixLine.
  destruct (hasMarker line || isBlank line); [exact H|].
  simpl. exact H.
Qed.

(** The repaired text has the repaired lines, in order. *)
Lemma autoFixSpaces_lines (diffText : str) :
  Str.split (autoFixSpaces diffText) = map fixLine (Str.split diffText).
Proof.
  rewrite autoFixSpaces_fixLine. apply split_join.
  - pose proof (split_nonempty diffText).
    destruct (Str.split diffText); [congruence | discriminate].
  - pose proof (split_isLine diffText) as H.
    induction (Str.split diffText) as [|l ls IH]; [reflexivity|].
    simpl in *. apply andb_true_iff in H as [Hl Hls].
    now rewrite fixLine_isLine, IH.
Qed.

(** C3, as amended: the repairer keeps the number and the order of the
    lines; a line that starts with a recognized prefix stays, an empty line
    stays, a line of white space only stays, and every other line gains
    exactly one leading space. *)
Theorem autoFixSpaces_repairs (diffText : str) :
  length (Str.split (autoFixSpaces diffText)) = length (Str.split diffText)
  /\ forall (i : nat) (line : str),
       nth_error (Str.split diffText) i = Some line ->
       nth_error (Str.split (autoFixSpaces diffText)) i
       = Some (if hasMarker line || isBlank line then line else SP :: line).
Proof.
  rewrite autoFixSpaces_lines. split; [apply length_map|].
  intros i line H. rewrite nth_error_map, H. reflexivity.
Qed.

Lemma autoFixSpaces_repairs_witness :
  nth_error (Str.split (autoFixSpaces tabbedHunk)) 1 = Some (lit " foo()").
Proof.
  exact (proj2 (autoFixSpaces_repairs tabbedHunk) 1 (lit "foo()") eq_refl).
Defined.

(** C3 as the specification words it fails on a line made of one tab: the
    line is not empty and starts with no recognized prefix, yet it gains no
    space. *)
Lemma autoFixSpaces_spec_fails_on_tab :
  nth_error (Str.split tabbedHunk) 2 = Some [TAB]
  /\ hasMarker [TAB] = false
  /\ isEmpty [TAB] = false
  /\ specFixLine [TAB] = [SP; TAB]
  /\ nth_error (Str.split (autoFixSpaces tabbedHunk)) 2 = Some [TAB]
  /\ Str.split (autoFixSpaces tabbedHunk)
     <> map specFixLine (Str.split tabbedHunk).
Proof.
  repeat split; try reflexivity.
  vm_compute. discriminate.
Qed.

(** C10: a line of white space only passes through the repairer unchanged. *)
Theorem autoFixSpaces_blank_line (diffText : str) (i : nat) (line : str) :
  nth_error (Str.split diffText) i = Some line ->
  isBlank line = true ->
  nth_error (Str.split (autoFixSpaces diffText)) i = Some line.
Proof.
  intros H Hb. rewrite autoFixSpaces_lines, nth_error_map, H.
  simpl. unfold fixLine. now rewrite Hb, orb_true_r.
Qed.

Lemma autoFixSpaces_blank_line_witness :
  nth_error (Str.split (autoFixSpaces tabbedHunk)) 2 = Some [TAB].
Proof.
  exact (autoFixSpaces_blank_line tabbedHunk 2 [TAB] eq_refl eq_refl).
Defined.

End ContextSpaceRepairer.

(** ** The Hunk-Header Recalculator: the loops *)

Section RecalculatorLoops.

Lemma skipn_nth_error {A : Type} (l : list A) (j : nat) (x : A) :
  nth_error l j = Some x -> skipn j l = x :: skipn (S j) l.
Proof.
  revert j; induction l as [|y l IH]; intros [|j] H; simpl in H; try discriminate.
  - now injection H as ->.
  - simpl skipn at 1. rewrite (IH _ H). reflexivity.
Qed.

Lemma nth_error_in_range {A : Type} (l : list A) (j : nat) :
  j < length l -> exists x, nth_error l j = Some x.
Proof.
  intros H. destruct (nth_error l j) as [x|] eqn:E; [now exists x|].
  apply nth_error_None in E. lia.
Qed.

(** The [while] loop returns, and returns the look-ahead over the lines
    from [j] on. *)
Lemma lookAheadLoop_lookAhead (fuel : nat) (lines : list str) :
  forall j oldLines newLines,
    length lines - j < fuel ->
    lookAheadLoop fuel lines j oldLines newLines
    = Normal (lookAhead (skipn j lines) oldLines newLines).
Proof.
  induction fuel as [|fuel IH]; intros j o n Hf; [lia|].
  cbn [lookAheadLoop].
  destruct (j <? length lines) eqn:Hj.
  - apply Nat.ltb_lt in Hj.
    destruct (nth_error_in_range lines j Hj) as [nextLine Hn].
    rewrite Hn, (skipn_nth_error _ _ _ Hn). cbn [lookAhead].
    unfold isStop, isDeletion, isAddition, isContext.
    destruct (Str.startsWith (lit "diff --git") nextLine
              || Str.startsWith (lit "@@ ") nextLine); [reflexivity|].
    destruct (Str.startsWith (lit "-") nextLine); [apply IH; lia|].
    destruct (Str.startsWith (lit "+") nextLine); [apply IH; lia|].
    destruct (Str.startsWith (lit " ") nextLine); apply IH; lia.
  - apply Nat.ltb_ge in Hj. now rewrite skipn_all2.
Qed.

(** The [for] loop returns, and returns the adjusted lines. *)
Lemma hunkLoop_adjustLines (fuel : nat) (lines : list str) :
  forall i result,
    length lines - i < fuel ->
    hunkLoop fuel lines i result
    = Normal (result ++ adjustLines (skipn i lines)).
Proof.
  induction fuel as [|fuel IH]; intros i result Hf; [lia|].
  cbn [hunkLoop].
  destruct (i <? length lines) eqn:Hi.
  - apply Nat.ltb_lt in Hi.
    destruct (nth_error_in_range lines i Hi) as [line Hn].
    rewrite Hn, (skipn_nth_error _ _ _ Hn). cbn [adjustLines].
    destruct (exec Pattern.hunkHeader line) as [m|].
    + rewrite lookAheadLoop_lookAhead by lia.
      rewrite Nat.add_1_r.
      destruct (lookAhead (skipn (S i) lines) 0 0) as [o n].
      cbn [bind]. rewrite IH by lia. now rewrite <- app_assoc.
    + rewrite IH by lia. now rewrite <- app_assoc.
  - apply Nat.ltb_ge in Hi. now rewrite skipn_all2, app_nil_r.
Qed.

(** [adjustHunkHeaders] returns on every text. *)
Lemma adjustHunkHeaders_adjustLines (diffText : str) :
  adjustHunkHeaders diffText
  = Normal (Str.join (adjustLines (Str.split diffText))).
Proof.
  unfold adjustHunkHeaders. rewrite hunkLoop_adjustLines by lia.
  reflexivity.
Qed.

Lemma adjustLines_length (ls : list str) : length (adjustLines ls) = length ls.
Proof.
  induction ls as [|l ls IH]; [reflexivity|].
  cbn [adjustLines]. destruct (exec Pattern.hunkHeader l).
  - destruct (lookAhead ls 0 0). cbn [length]. now rewrite IH.
  - cbn [length]. now rewrite IH.
Qed.

(** The line put in the place of a line depends on it and on what follows. *)
Lemma adjustLines_nth (before after : list str) (line : str) :
  nth_error (adjustLines (before ++ line :: after)) (length before)
  = Some match exec Pattern.hunkHeader line with
         | Some m => hunkLine m (fst (lookAhead after 0 0)) (snd (lookAhead after 0 0))
         | None => line
         end.
Proof.
  induction before as [|l before IH]; cbn [app length adjustLines].
  - destruct (exec Pattern.hunkHeader line); [|reflexivity].
    now destruct (lookAhead after 0 0).
  - destruct (exec Pattern.hunkHeader l).
    + destruct (lookAhead (before ++ line :: after) 0 0). exact IH.
    + exact IH.
Qed.

(** The count of the look-ahead over a run of lines none of which stops it. *)
Lemma lookAhead_body (body rest : list str) :
  forallb (fun l => negb (isStop l)) body = true ->
  (match rest with [] => true | l :: _ => isStop l end) = true ->
  forall oldLines newLines,
    lookAhead (body ++ rest) oldLines newLines
    = (oldLines + count isDeletion body
       + count (fun l => negb (isDeletion l) && negb (isAddition l) && isContext l) body,
       newLines + count (fun l => negb (isDeletion l) && isAddition l) body
       + count (fun l => negb (isDeletion l) && negb (isAddition l) && isContext l) body).
Proof.
  intros Hb Hr. induction body as [|l body IH]; intros o n.
  - unfold count. cbn [app filter length]. rewrite !Nat.add_0_r.
    destruct rest as [|l rest]; [reflexivity|]. cbn [lookAhead]. now rewrite Hr.
  - cbn [forallb] in Hb. apply andb_true_iff in Hb as [Hl Hb].
    apply negb_true_iff in Hl. cbn [app lookAhead]. rewrite Hl.
    unfold count in *. cbn [filter].
    destruct (isDeletion l), (isAddition l), (isContext l);
      cbn [negb andb length]; rewrite (IH Hb); f_equal; lia.
Qed.

End RecalculatorLoops.

(** ** The Hunk-Header Recalculator: the header pattern *)

Section HunkHeaderPattern.

Lemma isNumber_split (d : str) :
  isNumber d = true -> isEmpty d = false /\ forallb Char.isDigit d = true.
Proof.
  unfold isNumber. intros H. apply andb_true_iff in H as [H0 H].
  now apply negb_true_iff in H0.
Qed.

Lemma stopsAt_countField (c : option str) (s : str) :
  stopsAt Char.isDigit (countField c ++ lit " +" ++ s) = true.
Proof. now destruct c. Qed.

(** The pattern accepts every header of the lenient grammar and captures
    its fields. *)
Lemma hunkHeader_exec (oldStart newStart trailing : str)
  (oldCount newCount : option str) :
  isNumber oldStart = true -> isCountField oldCount = true ->
  isNumber newStart = true -> isCountField newCount = true ->
  noTerminator trailing = true ->
  exec Pattern.hunkHeader
    (hunkHeaderText oldStart oldCount newStart newCount trailing)
  = Some (hunkCaptures
            (hunkHeaderText oldStart oldCount newStart newCount trailing)
            oldStart oldCount newStart newCount trailing).
Proof.
  intros Hos Hoc Hns Hnc Htr.
  apply isNumber_split in Hos as [Hos0 Hos].
  apply isNumber_split in Hns as [Hns0 Hns].
  unfold Pattern.hunkHeader. cbn [seq]. rewrite exec_bol.
  set (line := hunkHeaderText oldStart oldCount newStart newCount trailing).
  match goal with
  | |- match ?M with _ => _ end = _ =>
      assert (E : exists e, M = Some (e, tl (hunkCaptures line oldStart oldCount
                                               newStart newCount trailing))
                            /\ length line <= e)
  end.
  { eexists. split.
    - subst line. unfold hunkHeaderText.
      rewrite rmatch_seq, rmatch_lit_app. cbv beta.
      rewrite rmatch_seq.
      apply grp_plus_max; try assumption; [apply stopsAt_countField|].
      rewrite rmatch_seq.
      apply opt_count_max; try assumption; [reflexivity | reflexivity|].
      rewrite rmatch_seq, rmatch_lit_app. cbv beta.
      rewrite rmatch_seq.
      apply grp_plus_max; try assumption;
        [destruct newCount; reflexivity|].
      rewrite rmatch_seq.
      apply opt_count_max; try assumption; [reflexivity | reflexivity|].
      rewrite rmatch_seq, rmatch_lit_app. cbv beta.
      rewrite rmatch_seq.
      apply grp_star_all; [exact Htr|].
      cbn [rmatch]. unfold accept. reflexivity.
    - subst line. unfold hunkHeaderText. rewrite !length_app. lia. }
  destruct E as (e & -> & He).
  unfold hunkCaptures. cbn [tl]. rewrite firstn_all2 by lia. reflexivity.
Qed.

(** The pattern accepts nothing but headers of the lenient grammar. *)
Lemma hunkHeader_exec_inv (line : str) (m : captures) :
  exec Pattern.hunkHeader line = Some m ->
  exists oldStart oldCount newStart newCount trailing,
    line = hunkHeaderText oldStart oldCount newStart newCount trailing
    /\ isNumber oldStart = true /\ isCountField oldCount = true
    /\ isNumber newStart = true /\ isCountField newCount = true
    /\ noTerminator trailing = true
    /\ m = hunkCaptures line oldStart oldCount newStart newCount trailing.
Proof.
  unfold Pattern.hunkHeader. cbn [seq]. rewrite exec_bol.
  match goal with
  | |- match ?M with _ => _ end = _ -> _ =>
      destruct M as [[e cs]|] eqn:E; [|discriminate]
  end.
  intros H. injection H as <-.
  rewrite rmatch_seq in E. apply rmatch_lit_inv in E as (s1 & -> & E).
  rewrite rmatch_seq in E.
  apply grp_plus_inv in E as (os & s2 & -> & Hos0 & Hos & E).
  rewrite rmatch_seq in E.
  apply opt_count_inv in E as (oc & s3 & -> & Hoc & E).
  rewrite rmatch_seq in E. apply rmatch_lit_inv in E as (s4 & -> & E).
  rewrite rmatch_seq in E.
  apply grp_plus_inv in E as (ns & s5 & -> & Hns0 & Hns & E).
  rewrite rmatch_seq in E.
  apply opt_count_inv in E as (nc & s6 & -> & Hnc & E).
  rewrite rmatch_seq in E. apply rmatch_lit_inv in E as (s7 & -> & E).
  rewrite rmatch_seq in E.
  apply grp_star_inv in E as (tr & s8 & -> & Htr & E).
  apply eol_accept_inv in E as [-> E]. injection E as -> ->.
  exists os, oc, ns, nc, tr. rewrite app_nil_r.
  unfold isNumber. rewrite Hos0, Hos, Hns0, Hns.
  repeat split; try assumption.
  unfold hunkCaptures, hunkHeaderText. rewrite firstn_all2; [reflexivity|].
  rewrite !length_app.
  change (length (lit "@@ -")) with 4.
  change (length (lit " +")) with 2.
  change (length (lit " @@")) with 3.
  lia.
Qed.

(** The lenient grammar is what the pattern recognizes. *)
Lemma hunkHeader_grammar (line : str) :
  HunkHeader line <-> exists m, exec Pattern.hunkHeader line = Some m.
Proof.
  split.
  - intros (os & oc & ns & nc & tr & -> & Hos & Hoc & Hns & Hnc & Htr).
    eexists. now apply hunkHeader_exec.
  - intros [m H]. apply hunkHeader_exec_inv in H
      as (os & oc & ns & nc & tr & E & Hos & Hoc & Hns & Hnc & Htr & _).
    now exists os, oc, ns, nc, tr.
Qed.

End HunkHeaderPattern.

(** ** The Hunk-Header Recalculator: the rewritten header *)

Section RecalculatedHeader.

Lemma group_hunkCaptures (line os ns tr : str) (oc nc : option str) :
  let m := hunkCaptures line os oc ns nc tr in
  group 1 m = Some os /\ group 3 m = Some ns /\ group 5 m = Some tr.
Proof. destruct oc, nc; repeat split. Qed.

(** The rewritten header keeps the starts and the trailing text of the
    header it replaces and always shows both counts. *)
Lemma hunkLine_hunkCaptures (line os ns tr : str) (oc nc : option str)
  (oldLines newLines : nat) :
  hunkLine (hunkCaptures line os oc ns nc tr) oldLines newLines
  = hunkHeaderText os (Some (Str.ofNat oldLines)) ns
      (Some (Str.ofNat newLines)) tr.
Proof.
  unfold hunkLine.
  destruct (group_hunkCaptures line os ns tr oc nc) as (-> & -> & ->).
  unfold hunkHeaderText, countField, template. rewrite <- !app_assoc.
  now destruct tr.
Qed.

Lemma digits_of_uint (u : Decimal.uint) :
  forallb Char.isDigit (lit (NilEmpty.string_of_uint u)) = true.
Proof. induction u; [reflexivity | exact IHu ..]. Qed.

Lemma ofNat_isNumber (n : nat) : isNumber (Str.ofNat n) = true.
Proof.
  unfold isNumber, Str.ofNat, NilZero.string_of_uint.
  destruct (Nat.to_uint n) eqn:E; try reflexivity;
    rewrite <- E at 2; rewrite digits_of_uint; now rewrite andb_true_r.
Qed.

Lemma isDigit_isLine (d : str) : forallb Char.isDigit d = true -> isLine d = true.
Proof.
  unfold isLine. induction d as [|c d IH]; [reflexivity|].
  cbn [forallb]. intros H. apply andb_true_iff in H as [Hc Hd].
  rewrite (IH Hd), andb_true_r.
  unfold Char.isDigit in Hc. apply andb_true_iff in Hc as [Hc _].
  apply N.leb_le in Hc. apply negb_true_iff, N.eqb_neq. unfold LF. lia.
Qed.

Lemma isNumber_isLine (d : str) : isNumber d = true -> isLine d = true.
Proof. intros H. apply isDigit_isLine. now apply isNumber_split in H. Qed.

Lemma noTerminator_isLine (s : str) : noTerminator s = true -> isLine s = true.
Proof.
  unfold noTerminator, isLine. induction s as [|c s IH]; [reflexivity|].
  cbn [forallb]. intros H. apply andb_true_iff in H as [Hc Hs].
  rewrite (IH Hs), andb_true_r.
  unfold Char.isDot, Char.isLineTerminator in Hc.
  apply negb_true_iff in Hc. apply negb_true_iff.
  apply orb_false_iff in Hc as [Hc _]. apply orb_false_iff in Hc as [Hc _].
  now apply orb_false_iff in Hc as [Hc _].
Qed.

Lemma countField_isLine (c : option str) :
  isCountField c = true -> isLine (countField c) = true.
Proof.
  destruct c as [d|]; [|reflexivity]. cbn [isCountField countField].
  intros H. rewrite isLine_app, (isNumber_isLine _ H). reflexivity.
Qed.

Lemma hunkHeaderText_isLine (os ns tr : str) (oc nc : option str) :
  isNumber os = true -> isCountField oc = true ->
  isNumber ns = true -> isCountField nc = true ->
  noTerminator tr = true ->
  isLine (hunkHeaderText os oc ns nc tr) = true.
Proof.
  intros Hos Hoc Hns Hnc Htr. unfold hunkHeaderText.
  rewrite !isLine_app, (isNumber_isLine _ Hos), (isNumber_isLine _ Hns),
    (countField_isLine _ Hoc), (countField_isLine _ Hnc),
    (noTerminator_isLine _ Htr).
  reflexivity.
Qed.

Lemma adjustLines_isLine (ls : list str) :
  forallb isLine ls = true -> forallb isLine (adjustLines ls) = true.
Proof.
  induction ls as [|l ls IH]; [reflexivity|].
  cbn [forallb adjustLines]. intros H. apply andb_true_iff in H as [Hl Hls].
  destruct (exec Pattern.hunkHeader l) as [m|] eqn:E.
  - destruct (lookAhead ls 0 0) as [o n]. cbn [forallb].
    rewrite (IH Hls), andb_true_r.
    apply hunkHeader_exec_inv in E
      as (os & oc & ns & nc & tr & _ & Hos & _ & Hns & _ & Htr & ->).
    rewrite hunkLine_hunkCaptures.
    apply hunkHeaderText_isLine; try assumption; apply ofNat_isNumber.
  - cbn [forallb]. now rewrite Hl, IH.
Qed.

(** [adjustHunkHeaders] returns on every text, and the lines of what it
    returns are the adjusted lines of the text. *)
Lemma adjustHunkHeaders_lines (diffText : str) :
  exists out, adjustHunkHeaders diffText = Normal out
              /\ Str.split out = adjustLines (Str.split diffText).
Proof.
  eexists. split; [apply adjustHunkHeaders_adjustLines|].
  apply split_join.
  - pose proof (split_nonempty diffText) as Hne.
    pose proof (adjustLines_length (Str.split diffText)) as Hl.
    destruct (Str.split diffText); [congruence|].
    destruct (adjustLines (s :: l)); [discriminate Hl | discriminate].
  - apply adjustLines_isLine, split_isLine.
Qed.

End RecalculatedHeader.

(** ** The Hunk-Header Recalculator: the counts *)

Section RecalculatedCounts.

(** The three classes of body lines exclude one another. *)
Lemma class_disjoint (l : str) :
  negb (isDeletion l) && isAddition l = isAddition l
  /\ negb (isDeletion l) && negb (isAddition l) && isContext l = isContext l.
Proof.
  destruct l as [|x l]; [now split|].
  unfold isDeletion, isAddition, isContext. cbn [Str.startsWith lit].
  change (Str.startsWith (lit "-") (x :: l)) with ((45 =? x)%N && true).
  change (Str.startsWith (lit "+") (x :: l)) with ((43 =? x)%N && true).
  change (Str.startsWith (lit " ") (x :: l)) with ((32 =? x)%N && true).
  rewrite !andb_true_r.
  destruct (45 =? x)%N eqn:E1, (43 =? x)%N eqn:E2, (32 =? x)%N eqn:E3;
    try (now split);
    repeat match goal with H : (_ =? _)%N = true |- _ => apply N.eqb_eq in H end;
    subst; discriminate.
Qed.

Lemma count_ext (f g : str -> bool) (ls : list str) :
  (forall l, f l = g l) -> count f ls = count g ls.
Proof. intros H. unfold count. now rewrite (filter_ext _ _ H). Qed.

Lemma count_app (f : str -> bool) (a b : list str) :
  count f (a ++ b) = count f a + count f b.
Proof. unfold count. now rewrite filter_app, length_app. Qed.

(** A body line never stops the look-ahead. *)
Lemma isBodyLine_not_stop (l : str) : isBodyLine l = true -> isStop l = false.
Proof.
  destruct l as [|x l]; [discriminate|].
  unfold isBodyLine, isStop, isDeletion, isAddition, isContext.
  change (Str.startsWith (lit "-") (x :: l)) with ((45 =? x)%N && true).
  change (Str.startsWith (lit "+") (x :: l)) with ((43 =? x)%N && true).
  change (Str.startsWith (lit " ") (x :: l)) with ((32 =? x)%N && true).
  change (Str.startsWith (lit "diff --git") (x :: l))
    with ((100 =? x)%N && Str.startsWith (lit "iff --git") l).
  change (Str.startsWith (lit "@@ ") (x :: l))
    with ((64 =? x)%N && Str.startsWith (lit "@ ") l).
  rewrite !andb_true_r. intros H.
  assert (Hx : x = 45%N \/ x = 43%N \/ x = 32%N).
  { apply orb_true_iff in H as [H|H]; [apply orb_true_iff in H as [H|H]|];
      apply N.eqb_eq in H; auto. }
  destruct Hx as [-> | [-> | ->]]; reflexivity.
Qed.

Lemma bodyLines_not_stop (body : list str) :
  forallb isBodyLine body = true ->
  forallb (fun l => negb (isStop l)) body = true.
Proof.
  induction body as [|l body IH]; [reflexivity|].
  cbn [forallb]. intros H. apply andb_true_iff in H as [Hl Hb].
  now rewrite (isBodyLine_not_stop _ Hl), IH.
Qed.

(** The counts of the look-ahead over a hunk body. *)
Lemma lookAhead_counts (body rest : list str) :
  forallb (fun l => negb (isStop l)) body = true ->
  (match rest with [] => true | l :: _ => isStop l end) = true ->
  lookAhead (body ++ rest) 0 0
  = (count isDeletion body + count isContext body,
     count isAddition body + count isContext body).
Proof.
  intros Hb Hr. rewrite (lookAhead_body _ _ Hb Hr).
  rewrite (count_ext (fun l => negb (isDeletion l) && isAddition l) isAddition),
    (count_ext (fun l => negb (isDeletion l) && negb (isAddition l) && isContext l)
       isContext);
    [reflexivity|..]; intros l; apply class_disjoint.
Qed.

Lemma middle_nonempty (a : list str) (x : str) (b : list str) :
  a ++ x :: b <> [].
Proof. now destruct a. Qed.

(** On a text given by its lines. *)
Lemma adjustHunkHeaders_of_lines (ls : list str) :
  ls <> [] -> forallb isLine ls = true ->
  exists out, adjustHunkHeaders (Str.join ls) = Normal out
              /\ Str.split out = adjustLines ls.
Proof.
  intros Hne Hl.
  destruct (adjustHunkHeaders_lines (Str.join ls)) as (out & Hout & Hsplit).
  exists out. split; [exact Hout|]. now rewrite Hsplit, split_join.
Qed.

(** The header of a hunk, rewritten in place. *)
Lemma adjustLines_hunk (before body after : list str)
  (oldStart newStart trailing : str) (oldCount newCount : option str) :
  isNumber oldStart = true -> isCountField oldCount = true ->
  isNumber newStart = true -> isCountField newCount = true ->
  noTerminator trailing = true ->
  forallb (fun l => negb (isStop l)) body = true ->
  (match after with [] => true | l :: _ => isStop l end) = true ->
  nth_error
    (adjustLines
       (before ++ hunkHeaderText oldStart oldCount newStart newCount trailing
        :: body ++ after)) (length before)
  = Some (hunkHeaderText oldStart
            (Some (Str.ofNat (count isDeletion body + count isContext body)))
            newStart
            (Some (Str.ofNat (count isAddition body + count isContext body)))
            trailing).
Proof.
  intros Hos Hoc Hns Hnc Htr Hb Ha.
  rewrite adjustLines_nth, hunkHeader_exec by assumption.
  now rewrite hunkLine_hunkCaptures, (lookAhead_counts _ _ Hb Ha).
Qed.

(** The lines after a prefix are adjusted on their own. *)
Lemma adjustLines_skipn (a b : list str) :
  skipn (length a) (adjustLines (a ++ b)) = adjustLines b.
Proof.
  induction a as [|l a IH]; [reflexivity|].
  cbn [app adjustLines length].
  destruct (exec Pattern.hunkHeader l).
  - destruct (lookAhead (a ++ b) 0 0). exact IH.
  - exact IH.
Qed.

Lemma hunk_lines_isLine (before body after : list str)
  (oldStart newStart trailing : str) (oldCount newCount : option str) :
  isNumber oldStart = true -> isCountField oldCount = true ->
  isNumber newStart = true -> isCountField newCount = true ->
  noTerminator trailing = true ->
  forallb isLine (before ++ body ++ after) = true ->
  forallb isLine
    (before ++ hunkHeaderText oldStart oldCount newStart newCount trailing
     :: body ++ after) = true.
Proof.
  intros Hos Hoc Hns Hnc Htr Hl.
  rewrite forallb_app in Hl. apply andb_true_iff in Hl as [H1 H2].
  rewrite forallb_app. cbn [forallb].
  rewrite H1, H2, hunkHeaderText_isLine by assumption. reflexivity.
Qed.

(** C2: a header of the lenient grammar, followed by a body of deletion,
    context and addition lines in any order that ends at the end of the
    text or before a line starting with "@@ " or "diff --git", is rewritten
    with old count deletions + contexts and new count additions + contexts,
    its two starts and its trailing text kept as they were; with no body
    line the counts are 0 and 0; the line that ends the body is not
    consumed: it and what follows are rewritten as they are on their own. *)
Theorem adjustHunkHeaders_recounts (before body after : list str)
  (oldStart newStart trailing : str) (oldCount newCount : option str) :
  isNumber oldStart = true -> isCountField oldCount = true ->
  isNumber newStart = true -> isCountField newCount = true ->
  noTerminator trailing = true ->
  forallb isBodyLine body = true ->
  (match after with [] => true | l :: _ => isStop l end) = true ->
  forallb isLine (before ++ body ++ after) = true ->
  exists out,
    adjustHunkHeaders
      (Str.join (before
                 ++ hunkHeaderText oldStart oldCount newStart newCount trailing
                 :: body ++ after)) = Normal out
    /\ nth_error (Str.split out) (length before)
       = Some (hunkHeaderText oldStart
                 (Some (Str.ofNat (count isDeletion body + count isContext body)))
                 newStart
                 (Some (Str.ofNat (count isAddition body + count isContext body)))
                 trailing)
    /\ (body = [] ->
        nth_error (Str.split out) (length before)
        = Some (hunkHeaderText oldStart (Some (lit "0")) newStart
                  (Some (lit "0")) trailing))
    /\ (after <> [] ->
        exists rest,
          adjustHunkHeaders (Str.join after) = Normal rest
          /\ skipn (length before + S (length body)) (Str.split out)
             = Str.split rest).
Proof.
  intros Hos Hoc Hns Hnc Htr Hb Ha Hl.
  pose proof (bodyLines_not_stop _ Hb) as Hb'.
  pose proof (hunk_lines_isLine _ _ _ _ _ _ _ _ Hos Hoc Hns Hnc Htr Hl) as Hl'.
  destruct (adjustHunkHeaders_of_lines
              (before ++ hunkHeaderText oldStart oldCount newStart newCount trailing
               :: body ++ after)) as (out & Hout & Hsplit);
    [now destruct before | exact Hl' |].
  pose proof (adjustLines_hunk before _ _ _ _ _ _ _ Hos Hoc Hns Hnc Htr Hb' Ha) as Hn.
  exists out. rewrite Hsplit. repeat split.
  - exact Hout.
  - exact Hn.
  - intros ->. exact Hn.
  - intros Hne.
    destruct (adjustHunkHeaders_of_lines after Hne) as (rest & Hrest & Hs).
    + rewrite !forallb_app in Hl. apply andb_true_iff in Hl as [_ Hl].
      now apply andb_true_iff in Hl as [_ Hl].
    + exists rest. split; [exact Hrest|]. rewrite Hs.
      replace (length before + S (length body))
        with (length (before
                      ++ hunkHeaderText oldStart oldCount newStart newCount trailing
                      :: body))
        by (rewrite length_app; reflexivity).
      replace (before
               ++ hunkHeaderText oldStart oldCount newStart newCount trailing
               :: body ++ after)
        with ((before
               ++ hunkHeaderText oldStart oldCount newStart newCount trailing
               :: body) ++ after)
        by (now rewrite <- app_assoc).
      apply adjustLines_skipn.
Qed.

Lemma adjustHunkHeaders_recounts_witness :
  exists out,
    adjustHunkHeaders (text wrongCounts) = Normal out
    /\ nth_error (Str.split out) 0 = Some (lit "@@ -1,2 +1,2 @@ main()")
    /\ exists rest,
         adjustHunkHeaders (text ["@@ -9 +9,7 @@"; "+added"]%string) = Normal rest
         /\ skipn 4 (Str.split out) = Str.split rest.
Proof.
  destruct (adjustHunkHeaders_recounts
              [] (map lit [" context"; "-old line"; "+new line"]%string)
              (map lit ["@@ -9 +9,7 @@"; "+added"]%string)
              (lit "1") (lit "1") (lit " main()") (Some (lit "5")) (Some (lit "2"))
              eq_refl eq_refl eq_refl eq_refl eq_refl eq_refl eq_refl eq_refl)
    as (out & Hout & Hn & _ & Hrest).
  exists out. split; [exact Hout|]. split; [exact Hn|].
  apply Hrest. discriminate.
Defined.

Lemma count_insert (f : str -> bool) (b1 b2 : list str) (m : str) :
  count f (b1 ++ m :: b2) = (if f m then 1 else 0) + count f (b1 ++ b2).
Proof.
  rewrite !count_app. unfold count at 2. cbn [filter].
  destruct (f m); cbn [length]; fold (count f b2); lia.
Qed.

(** C9: the look-ahead classifies by the first character alone: a line
    "--- a/<path>" standing in a hunk body raises the old count by one, as
    a deletion would, and a line "+++ b/<path>" raises the new count by one,
    as an addition would. *)
Theorem adjustHunkHeaders_counts_file_markers
  (before body1 body2 after : list str)
  (oldStart newStart trailing path : str) (oldCount newCount : option str) :
  isNumber oldStart = true -> isCountField oldCount = true ->
  isNumber newStart = true -> isCountField newCount = true ->
  noTerminator trailing = true -> isLine path = true ->
  forallb (fun l => negb (isStop l)) (body1 ++ body2) = true ->
  (match after with [] => true | l :: _ => isStop l end) = true ->
  forallb isLine (before ++ (body1 ++ body2) ++ after) = true ->
  (exists out,
     adjustHunkHeaders
       (Str.join (before
                  ++ hunkHeaderText oldStart oldCount newStart newCount trailing
                  :: (body1 ++ (lit "--- a/" ++ path) :: body2) ++ after))
     = Normal out
     /\ nth_error (Str.split out) (length before)
        = Some (hunkHeaderText oldStart
                  (Some (Str.ofNat (S (count isDeletion (body1 ++ body2)
                                       + count isContext (body1 ++ body2)))))
                  newStart
                  (Some (Str.ofNat (count isAddition (body1 ++ body2)
                                    + count isContext (body1 ++ body2))))
                  trailing))
  /\ (exists out,
        adjustHunkHeaders
          (Str.join (before
                     ++ hunkHeaderText oldStart oldCount newStart newCount trailing
                     :: (body1 ++ (lit "+++ b/" ++ path) :: body2) ++ after))
        = Normal out
        /\ nth_error (Str.split out) (length before)
           = Some (hunkHeaderText oldStart
                     (Some (Str.ofNat (count isDeletion (body1 ++ body2)
                                       + count isContext (body1 ++ body2))))
                     newStart
                     (Some (Str.ofNat (S (count isAddition (body1 ++ body2)
                                          + count isContext (body1 ++ body2)))))
                     trailing)).
Proof.
  intros Hos Hoc Hns Hnc Htr Hp Hb Ha Hl.
  assert (Hins : forall m : str,
             isStop m = false -> isLine m = true ->
             forallb (fun l => negb (isStop l)) (body1 ++ m :: body2) = true
             /\ forallb isLine (before ++ (body1 ++ m :: body2) ++ after) = true).
  { intros m Hm Hml. rewrite !forallb_app in *. cbn [forallb].
    rewrite Hm, Hml.
    apply andb_true_iff in Hb as [-> ->].
    apply andb_true_iff in Hl as [-> Hl].
    apply andb_true_iff in Hl as [Hl ->].
    apply andb_true_iff in Hl as [-> ->]. now split. }
  split.
  - destruct (Hins (lit "--- a/" ++ path)) as [Hb' Hl'];
      [reflexivity | rewrite isLine_app, Hp; reflexivity |].
    pose proof (hunk_lines_isLine _ _ _ _ _ _ _ _ Hos Hoc Hns Hnc Htr Hl') as Hl''.
    destruct (adjustHunkHeaders_of_lines _ (middle_nonempty _ _ _) Hl'')
      as (out & Hout & Hsplit).
    exists out. split; [exact Hout|]. rewrite Hsplit.
    rewrite (adjustLines_hunk before _ _ _ _ _ _ _ Hos Hoc Hns Hnc Htr Hb' Ha).
    rewrite !count_insert. reflexivity.
  - destruct (Hins (lit "+++ b/" ++ path)) as [Hb' Hl'];
      [reflexivity | rewrite isLine_app, Hp; reflexivity |].
    pose proof (hunk_lines_isLine _ _ _ _ _ _ _ _ Hos Hoc Hns Hnc Htr Hl') as Hl''.
    destruct (adjustHunkHeaders_of_lines _ (middle_nonempty _ _ _) Hl'')
      as (out & Hout & Hsplit).
    exists out. split; [exact Hout|]. rewrite Hsplit.
    rewrite (adjustLines_hunk before _ _ _ _ _ _ _ Hos Hoc Hns Hnc Htr Hb' Ha).
    rewrite !count_insert. reflexivity.
Qed.

Lemma adjustHunkHeaders_counts_file_markers_witness :
  (exists out,
      adjustHunkHeaders
        (text ["@@ -3,1 +3,1 @@"; "-x"; "--- a/next.c"; "@@ -1 +1 @@"]%string)
      = Normal out
      /\ nth_error (Str.split out) 0 = Some (lit "@@ -3,2 +3,0 @@"))
  /\ (exists out,
        adjustHunkHeaders
          (text ["@@ -3,1 +3,1 @@"; "-x"; "+++ b/next.c"; "@@ -1 +1 @@"]%string)
        = Normal out
        /\ nth_error (Str.split out) 0 = Some (lit "@@ -3,1 +3,1 @@")).
Proof.
  exact (adjustHunkHeaders_counts_file_markers
           [] [lit "-x"] [] [lit "@@ -1 +1 @@"]
           (lit "3") (lit "3") [] (lit "next.c") (Some (lit "1")) (Some (lit "1"))
           eq_refl eq_refl eq_refl eq_refl eq_refl eq_refl eq_refl eq_refl eq_refl).
Defined.

(** Both markers inside one hunk, evaluated. *)
Example adjustHunkHeaders_markersInHunk :
  adjustHunkHeaders (text markersInHunk)
  = Normal (text ["@@ -3,2 +3,1 @@"; "-x"; "--- a/next.c"; "+++ b/next.c";
                  "@@ -1,0 +1,0 @@"]%string).
Proof. reflexivity. Qed.

End RecalculatedCounts.

(** ** The Diff Validity Classifier *)

Section ValidityClassifier.

Lemma strictHunkHeader_rmatch (d1 d2 d3 d4 after : str) (i : nat) :
  isNumber d1 = true -> isNumber d2 = true ->
  isNumber d3 = true -> isNumber d4 = true ->
  exists res,
    rmatch Pattern.strictHunkHeader
      (hunkHeaderText d1 (Some d2) d3 (Some d4) after) i [] accept = Some res.
Proof.
  intros H1 H2 H3 H4.
  apply isNumber_split in H1 as [H10 H1]. apply isNumber_split in H2 as [H20 H2].
  apply isNumber_split in H3 as [H30 H3]. apply isNumber_split in H4 as [H40 H4].
  eexists. unfold Pattern.strictHunkHeader, hunkHeaderText, countField.
  cbn [seq]. rewrite <- !app_assoc.
  rewrite rmatch_seq, rmatch_lit_app. cbv beta.
  rewrite rmatch_seq. apply plus_cls_max; try assumption; [reflexivity|].
  rewrite rmatch_seq, rmatch_lit_app. cbv beta.
  rewrite rmatch_seq. apply plus_cls_max; try assumption; [reflexivity|].
  rewrite rmatch_seq, rmatch_lit_app. cbv beta.
  rewrite rmatch_seq. apply plus_cls_max; try assumption; [reflexivity|].
  rewrite rmatch_seq, rmatch_lit_app. cbv beta.
  rewrite rmatch_seq. apply plus_cls_max; try assumption; [reflexivity|].
  rewrite rmatch_seq, rmatch_lit_app. cbn [rmatch]. unfold accept.
  reflexivity.
Qed.

Lemma strictHunkHeader_rmatch_inv (s : str) (i : nat) (res : nat * captures) :
  rmatch Pattern.strictHunkHeader s i [] accept = Some res ->
  exists d1 d2 d3 d4 after,
    s = hunkHeaderText d1 (Some d2) d3 (Some d4) after
    /\ isNumber d1 = true /\ isNumber d2 = true
    /\ isNumber d3 = true /\ isNumber d4 = true.
Proof.
  unfold Pattern.strictHunkHeader. cbn [seq]. intros E.
  rewrite rmatch_seq in E. apply rmatch_lit_inv in E as (s1 & -> & E).
  rewrite rmatch_seq in E. apply plus_cls_inv in E as (d1 & s2 & -> & H10 & H1 & E).
  rewrite rmatch_seq in E. apply rmatch_lit_inv in E as (s3 & -> & E).
  rewrite rmatch_seq in E. apply plus_cls_inv in E as (d2 & s4 & -> & H20 & H2 & E).
  rewrite rmatch_seq in E. apply rmatch_lit_inv in E as (s5 & -> & E).
  rewrite rmatch_seq in E. apply plus_cls_inv in E as (d3 & s6 & -> & H30 & H3 & E).
  rewrite rmatch_seq in E. apply rmatch_lit_inv in E as (s7 & -> & E).
  rewrite rmatch_seq in E. apply plus_cls_inv in E as (d4 & s8 & -> & H40 & H4 & E).
  rewrite rmatch_seq in E. apply rmatch_lit_inv in E as (s9 & -> & E).
  exists d1, d2, d3, d4, s9.
  unfold isNumber. rewrite H10, H1, H20, H2, H30, H3, H40, H4.
  repeat split.
Qed.

(** The strict pattern finds exactly the strict grammar. *)
Lemma strictHunkHeader_test (text : str) :
  test Pattern.strictHunkHeader text = true <-> ContainsStrictHunkHeader text.
Proof.
  unfold test, exec. split.
  - destruct (execFrom Pattern.strictHunkHeader text 0) as [m|] eqn:E;
      [|discriminate].
    intros _. apply execFrom_inv in E as (a & b & res & -> & E).
    apply strictHunkHeader_rmatch_inv in E
      as (d1 & d2 & d3 & d4 & after & -> & H).
    now exists a, d1, d2, d3, d4, after.
  - intros (a & d1 & d2 & d3 & d4 & after & -> & H1 & H2 & H3 & H4).
    destruct (strictHunkHeader_rmatch d1 d2 d3 d4 after (0 + length a)
                H1 H2 H3 H4) as [res Hres].
    pose proof (execFrom_complete Pattern.strictHunkHeader a
                  (hunkHeaderText d1 (Some d2) d3 (Some d4) after) 0) as Hc.
    rewrite Hres in Hc.
    destruct (execFrom Pattern.strictHunkHeader _ 0); [reflexivity|].
    exfalso. apply Hc; [discriminate | reflexivity].
Qed.

Lemma plusMinus_test (line : str) :
  test Pattern.plusMinus (Str.trim line) = beginsPlusMinus line.
Proof.
  unfold test, Pattern.plusMinus, beginsPlusMinus. rewrite exec_bol.
  cbn [rmatch]. destruct (Str.trim line) as [|c s]; [reflexivity|].
  now destruct (Char.isPlusMinus c).
Qed.

Lemma isBlank_isEmpty (text : str) : isEmpty text = true -> isBlank text = true.
Proof. now destruct text. Qed.

(** The classifier, in the words of its three signals. *)
Lemma isUnifiedDiff_signals (text : str) :
  isUnifiedDiff text =
  negb (isBlank text)
  && (Str.includes (lit "diff --git") text
      || Str.includes (lit "--- ") text
      || Str.includes (lit "+++ ") text
      || test Pattern.strictHunkHeader text
      || (2 <=? count beginsPlusMinus (Str.split text))).
Proof.
  unfold isUnifiedDiff. rewrite trim_blank.
  destruct (isEmpty text) eqn:E.
  - now rewrite (isBlank_isEmpty _ E).
  - cbn [orb]. destruct (isBlank text); [reflexivity|]. cbn [negb andb].
    unfold count. now rewrite (filter_ext _ _ plusMinus_test).
Qed.

Lemma strict_not_blank (text : str) :
  ContainsStrictHunkHeader text -> isBlank text = false.
Proof.
  intros (a & d1 & d2 & d3 & d4 & after & -> & _).
  unfold isBlank, hunkHeaderText. rewrite forallb_app.
  apply andb_false_iff. right. reflexivity.
Qed.

(** C4: a text that holds a strict hunk header is classified valid; a text
    with fewer than two lines that begin, once trimmed, with "+" or "-",
    without "diff --git", "--- " and "+++ " and without a strict hunk
    header is classified invalid; an empty or blank text is classified
    invalid. *)
Theorem isUnifiedDiff_classifies (text : str) :
  (ContainsStrictHunkHeader text -> isUnifiedDiff text = true)
  /\ (count beginsPlusMinus (Str.split text) < 2 ->
      Str.includes (lit "diff --git") text = false ->
      Str.includes (lit "--- ") text = false ->
      Str.includes (lit "+++ ") text = false ->
      ~ ContainsStrictHunkHeader text ->
      isUnifiedDiff text = false)
  /\ (isBlank text = true -> isUnifiedDiff text = false).
Proof.
  rewrite isUnifiedDiff_signals. repeat split.
  - intros H. rewrite (strict_not_blank _ H).
    apply strictHunkHeader_test in H. rewrite H.
    cbn [negb andb]. now rewrite !orb_true_r.
  - intros Hc Hd Hm Hp Hs. rewrite Hd, Hm, Hp. cbn [orb].
    destruct (test Pattern.strictHunkHeader text) eqn:E.
    + apply strictHunkHeader_test in E. contradiction.
    + apply Nat.leb_gt in Hc. rewrite Hc. apply andb_false_r.
  - intros ->. reflexivity.
Qed.

Lemma isUnifiedDiff_classifies_witness :
  isUnifiedDiff proseWithHeader = true
  /\ isUnifiedDiff proseWithDash = false
  /\ isUnifiedDiff [SP; LF; TAB] = false.
Proof.
  split; [|split].
  - apply (proj1 (isUnifiedDiff_classifies proseWithHeader)).
    exists (lit "see "), (lit "10"), (lit "2"), (lit "10"), (lit "3"),
      (lit " above").
    repeat split.
  - apply (proj1 (proj2 (isUnifiedDiff_classifies proseWithDash)));
      try reflexivity.
    + apply Nat.leb_le. reflexivity.
    + intros H. apply strictHunkHeader_test in H. discriminate H.
  - apply (proj2 (proj2 (isUnifiedDiff_classifies [SP; LF; TAB]))).
    reflexivity.
Defined.

End ValidityClassifier.

(** ** The Header Field Extractor *)

Section HeaderFieldExtractor.

Variable sanitizePath : str -> str.

(** What the pattern accepts is a header of the grammar, and both groups
    take part in the match. *)
Lemma gitHeader_exec_inv (line : str) (m : captures) :
  exec Pattern.gitHeader line = Some m ->
  exists old new, GitHeader old new line /\ m = [(0, line); (2, new); (1, old)].
Proof.
  unfold Pattern.gitHeader. cbn [seq]. rewrite exec_bol.
  match goal with
  | |- match ?M with _ => _ end = _ -> _ =>
      destruct M as [[e cs]|] eqn:E; [|discriminate]
  end.
  intros H. injection H as <-.
  rewrite rmatch_seq in E. apply rmatch_lit_inv in E as (s1 & -> & E).
  rewrite rmatch_seq in E. apply grp_star_inv in E as (old & s2 & -> & Hold & E).
  rewrite rmatch_seq in E. apply rmatch_lit_inv in E as (s3 & -> & E).
  rewrite rmatch_seq in E. apply grp_star_inv in E as (new & s4 & -> & Hnew & E).
  apply eol_accept_inv in E as [-> E]. injection E as -> ->.
  exists old, new. rewrite app_nil_r. split; [now split|].
  rewrite firstn_all2; [reflexivity|].
  rewrite !length_app.
  change (length (lit "diff --git a/")) with 13.
  change (length (lit " b/")) with 3.
  lia.
Qed.

(** The pattern accepts every header of the grammar. *)
Lemma gitHeader_exec_complete (old new line : str) :
  GitHeader old new line -> exec Pattern.gitHeader line <> None.
Proof.
  intros (-> & Hold & Hnew).
  unfold Pattern.gitHeader. cbn [seq]. rewrite exec_bol.
  match goal with
  | |- match ?M with _ => _ end <> _ => assert (E : M <> None)
  end.
  { unfold Pattern.dot. rewrite rmatch_seq, rmatch_lit_app. cbv beta.
    rewrite rmatch_seq. apply grp_star_complete; [exact Hold|].
    rewrite rmatch_seq, rmatch_lit_app. cbv beta.
    rewrite rmatch_seq.
    erewrite grp_star_all; [discriminate | exact Hnew | reflexivity]. }
  match goal with
  | |- match ?M with _ => _ end <> _ => destruct M as [[e cs]|]
  end; [discriminate | contradiction].
Qed.

Lemma gitHeader_tail_accepts (new : str) (i : nat) (cs : captures) :
  noTerminator new = true ->
  exists res,
    rmatch (Seq (Lit " b/") (Seq (Grp 2 (Star Pattern.dot)) (Seq Eol Eps)))
      (lit " b/" ++ new) i cs accept = Some res.
Proof.
  intros Hnew. eexists. unfold Pattern.dot.
  rewrite rmatch_seq, rmatch_lit_app. cbv beta. rewrite rmatch_seq.
  apply grp_star_all; [exact Hnew | reflexivity].
Qed.

(** The first group reaches as far as any header of the grammar allows. *)
Lemma gitHeader_exec_longest (line : str) (m : captures) :
  exec Pattern.gitHeader line = Some m ->
  exists old new,
    GitHeader old new line /\ m = [(0, line); (2, new); (1, old)]
    /\ forall old2 new2, GitHeader old2 new2 line -> length old2 <= length old.
Proof.
  unfold Pattern.gitHeader. cbn [seq]. rewrite exec_bol.
  match goal with
  | |- match ?M with _ => _ end = _ -> _ =>
      destruct M as [[e cs]|] eqn:E; [|discriminate]
  end.
  intros H. injection H as <-.
  rewrite rmatch_seq in E. apply rmatch_lit_inv in E as (s1 & -> & E).
  rewrite rmatch_seq in E.
  apply grp_star_inv_longest in E as (old & s2 & -> & Hold & E & Hmax).
  assert (Hlong : forall old2 new2,
             old ++ s2 = old2 ++ lit " b/" ++ new2 ->
             noTerminator old2 = true -> noTerminator new2 = true ->
             length old2 <= length old).
  { intros old2 new2 E2 Ho2 Hn2.
    destruct (le_lt_dec (length old2) (length old)) as [Hle|Hlt]; [exact Hle|].
    exfalso. specialize (Hmax old2 (lit " b/" ++ new2) E2 Ho2 Hlt).
    cbv beta in Hmax.
    destruct (gitHeader_tail_accepts new2
                (0 + length (lit "diff --git a/") + length old2) [(1, old2)] Hn2)
      as [res Hres].
    discriminate (eq_trans (eq_sym Hres) Hmax). }
  rewrite rmatch_seq in E. apply rmatch_lit_inv in E as (s3 & -> & E).
  rewrite rmatch_seq in E. apply grp_star_inv in E as (new & s4 & -> & Hnew & E).
  apply eol_accept_inv in E as [-> E]. injection E as -> ->.
  rewrite app_nil_r in *.
  exists old, new. split; [now split|]. split.
  - rewrite firstn_all2; [reflexivity|].
    rewrite !length_app.
    change (length (lit "diff --git a/")) with 13.
    change (length (lit " b/")) with 3.
    lia.
  - intros old2 new2 (E2 & Ho2 & Hn2). apply app_inv_head in E2.
    now apply (Hlong old2 new2).
Qed.

(** A header of the grammar splits in one way only at its last " b/". *)
Lemma gitHeader_split_unique (old new old' new' line : str) :
  GitHeader old new line -> GitHeader old' new' line ->
  length old <= length old' ->
  Str.includes (lit " b/") new = false ->
  old = old' /\ new = new'.
Proof.
  intros (-> & _ & _) (E & _ & _) Hle Hnew.
  apply app_inv_head in E. apply app_eq_app in E as [l [[-> E]|[-> E]]].
  - rewrite length_app in Hle. destruct l as [|c l]; [|cbn [length] in Hle; lia].
    rewrite app_nil_r. cbn [app] in E. apply app_inv_head in E. now split.
  - destruct l as [|c1 [|c2 [|c3 l]]].
    + rewrite app_nil_r. cbn [app] in E. apply app_inv_head in E. now split.
    + discriminate E.
    + discriminate E.
    + exfalso. injection E as _ _ _ ->.
      discriminate (eq_trans (eq_sym (includes_app (lit " b/") l new')) Hnew).
Qed.

(** C6: on a line of the grammar "diff --git a/<old> b/<new>" the
    extractor returns the two paths, each passed through the sanitizer; with
    several " b/" on the line the first group is greedy, so <new> is what
    follows the last of them; on every other line the extractor returns the
    two fields undefined. *)
Theorem extractFileNamesFromHeader_grammar (diffHeader : str) :
  ((exists old new, GitHeader old new diffHeader) ->
   exists old new,
     GitHeader old new diffHeader
     /\ extractFileNamesFromHeader sanitizePath diffHeader
        = {| oldFile := Some (sanitizePath old);
             newFile := Some (sanitizePath new) |})
  /\ (forall old new,
        GitHeader old new diffHeader ->
        Str.includes (lit " b/") new = false ->
        extractFileNamesFromHeader sanitizePath diffHeader
        = {| oldFile := Some (sanitizePath old);
             newFile := Some (sanitizePath new) |})
  /\ ((~ exists old new, GitHeader old new diffHeader) ->
      extractFileNamesFromHeader sanitizePath diffHeader
      = {| oldFile := None; newFile := None |}).
Proof.
  unfold extractFileNamesFromHeader. repeat split.
  - intros (old & new & H). apply gitHeader_exec_complete in H.
    destruct (exec Pattern.gitHeader diffHeader) as [m|] eqn:E; [|congruence].
    apply gitHeader_exec_inv in E as (old' & new' & H' & ->).
    exists old', new'. split; [exact H' | reflexivity].
  - intros old new H Hnew. pose proof (gitHeader_exec_complete _ _ _ H) as Hc.
    destruct (exec Pattern.gitHeader diffHeader) as [m|] eqn:E; [|congruence].
    apply gitHeader_exec_longest in E as (old' & new' & H' & -> & Hlong).
    destruct (gitHeader_split_unique _ _ _ _ _ H H' (Hlong _ _ H) Hnew)
      as [-> ->].
    reflexivity.
  - intros H.
    destruct (exec Pattern.gitHeader diffHeader) as [m|] eqn:E; [|reflexivity].
    apply gitHeader_exec_inv in E as (old & new & H' & _).
    exfalso. apply H. now exists old, new.
Qed.

End HeaderFieldExtractor.

Lemma extractFileNamesFromHeader_grammar_witness :
  extractFileNamesFromHeader dropControls (lit "diff --git a/src/a.ts b/src/b.ts")
  = {| oldFile := Some (lit "src/a.ts"); newFile := Some (lit "src/b.ts") |}
  /\ (exists old new,
        GitHeader old new (lit "diff --git a/x b/y b/z")
        /\ extractFileNamesFromHeader dropControls (lit "diff --git a/x b/y b/z")
           = {| oldFile := Some (dropControls old);
                newFile := Some (dropControls new) |})
  /\ extractFileNamesFromHeader dropControls (lit "--- a/src/a.ts")
     = {| oldFile := None; newFile := None |}.
Proof.
  split; [|split].
  - apply (proj1 (proj2 (extractFileNamesFromHeader_grammar dropControls
                           (lit "diff --git a/src/a.ts b/src/b.ts")))
             (lit "src/a.ts") (lit "src/b.ts")).
    + repeat split.
    + reflexivity.
  - apply (proj1 (extractFileNamesFromHeader_grammar dropControls
                    (lit "diff --git a/x b/y b/z"))).
    exists (lit "x"), (lit "y b/z"). repeat split.
  - apply (proj2 (proj2 (extractFileNamesFromHeader_grammar dropControls
                           (lit "--- a/src/a.ts")))).
    intros (old & new & H & _). discriminate H.
Defined.

(** The first group is greedy: it reaches to the last " b/" of the line. *)
Example extractFileNamesFromHeader_greedy :
  extractFileNamesFromHeader dropControls (lit "diff --git a/x b/y b/z")
  = {| oldFile := Some (lit "x b/y"); newFile := Some (lit "z") |}.
Proof. reflexivity. Qed.

(** ** Lines passed through *)

Section PassThrough.

Lemma lineEnding_no_match (c : char) (s : str) (i : nat) :
  (c =? CR)%N = false ->
  rmatch Pattern.lineEnding (c :: s) i [] accept = None.
Proof. intros H. unfold Pattern.lineEnding. cbn [rmatch]. now rewrite H. Qed.

(** A text without carriage return is left as it is. *)
Lemma normalizeLineEndings_no_CR (text : str) :
  forallb (fun c => negb (c =? CR)%N) text = true ->
  normalizeLineEndings text = text.
Proof.
  intros H. unfold normalizeLineEndings, replaceAll.
  assert (G : forall i, replaceAllFrom Pattern.lineEnding [LF] text i 0 = text);
    [|apply G].
  induction text as [|c s IH]; intros i; [reflexivity|].
  cbn [forallb] in H. apply andb_true_iff in H as [Hc Hs].
  apply negb_true_iff in Hc.
  cbn [replaceAllFrom]. rewrite (lineEnding_no_match c s i Hc).
  now rewrite IH.
Qed.

(** The synthesizer only prepends. *)
Lemma addMissingHeaders_prepends (diffText : str) :
  exists header, addMissingHeaders diffText = header ++ diffText.
Proof.
  unfold addMissingHeaders.
  destruct (negb (Str.startsWith (lit "diff ") (Str.trim diffText)));
    [|now exists []].
  destruct (negb (Str.includes (lit "--- ") diffText)
            && negb (Str.includes (lit "+++ ") diffText)).
  - eexists. rewrite app_assoc. reflexivity.
  - destruct (negb (Str.includes (lit "--- ") diffText)
              && Str.includes (lit "+++ ") diffText); [|now exists []].
    eexists. rewrite !app_assoc. reflexivity.
Qed.

Lemma nth_error_middle (ls : list str) (i : nat) (line : str) :
  nth_error ls i = Some line ->
  exists before after, ls = before ++ line :: after /\ length before = i.
Proof. intros H. now apply nth_error_split. Qed.

(** A line the header pattern refuses is passed through. *)
Lemma adjustLines_passthrough (ls : list str) (i : nat) (line : str) :
  nth_error ls i = Some line -> ~ HunkHeader line ->
  nth_error (adjustLines ls) i = Some line.
Proof.
  intros Hn Hh. apply nth_error_middle in Hn as (before & after & -> & <-).
  rewrite adjustLines_nth.
  destruct (exec Pattern.hunkHeader line) as [m|] eqn:E; [|reflexivity].
  exfalso. apply Hh, hunkHeader_grammar. now exists m.
Qed.

(** The rough text, evaluated: the malformed header stays as it is. *)
Example adjustHunkHeaders_roughText :
  adjustHunkHeaders roughText
  = Normal (Str.join [lit "@@ -1,0 +1,1 @@"; lit "+a"; lit "@@ -x,2 +3 @@";
                      lit "context" ++ [CR]]).
Proof. reflexivity. Qed.

End PassThrough.

(** ** The scenarios of the specification, evaluated *)

(** Missing header and missing context space, through [normalizeDiff]. *)
Example normalizeDiff_scenario :
  normalizeDiff (Str.join [lit "@@ -1,2 +1,2 @@" ++ [CR]; lit "foo()" ++ [CR];
                           lit "-old line"; lit "+new line"])
  = text ["diff --git a/unknown-file b/unknown-file"; "--- a/unknown-file";
          "+++ b/unknown-file"; "@@ -1,2 +1,2 @@"; " foo()"; "-old line";
          "+new line"]%string.
Proof. reflexivity. Qed.

(** A text with a new-file marker only: the path is recovered and two lines
    are put in front. *)
Example addMissingHeaders_recovers_path :
  addMissingHeaders (text ["+++ b/src/app.ts"; "@@ -1 +1 @@"; "-a"; "+b"]%string)
  = text ["diff --git a/src/app.ts b/src/app.ts"; "--- a/src/app.ts";
          "+++ b/src/app.ts"; "@@ -1 +1 @@"; "-a"; "+b"]%string.
Proof. reflexivity. Qed.

(** Line endings of the three kinds. *)
Example normalizeLineEndings_mixed :
  normalizeLineEndings (lit "a" ++ [CR; LF] ++ lit "b" ++ [CR] ++ lit "c" ++ [LF; CR; CR; LF])
  = lit "a" ++ [LF] ++ lit "b" ++ [LF] ++ lit "c" ++ [LF; LF; LF].
Proof. reflexivity. Qed.

(** ** The Line-Ending Normalizer *)

Section LineEndingNormalizer.

Lemma lineEnding_match_CRLF (s : str) (i : nat) :
  rmatch Pattern.lineEnding (CR :: LF :: s) i [] accept = Some (S (S i), []).
Proof. reflexivity. Qed.

Lemma lineEnding_match_CR (s : str) (i : nat) :
  (hd 0%N s =? LF)%N = false ->
  rmatch Pattern.lineEnding (CR :: s) i [] accept = Some (S i, []).
Proof.
  intros H. unfold Pattern.lineEnding. cbn [rmatch].
  change (CR =? CR)%N with true. cbv iota.
  destruct s as [|c s]; [reflexivity|]. cbn [hd] in H. now rewrite H.
Qed.

(** The pattern-driven replacement is the recursion on the text. *)
Lemma replaceAllFrom_toLF (s : str) :
  forall i,
    replaceAllFrom Pattern.lineEnding [LF] s i 0 = toLF s
    /\ replaceAllFrom Pattern.lineEnding [LF] s i 1 = toLF (tl s).
Proof.
  induction s as [|c s IH]; intros i; [split; reflexivity|].
  split; [|cbn [replaceAllFrom tl]; apply IH].
  cbn [replaceAllFrom toLF].
  destruct (c =? CR)%N eqn:Ec.
  - apply N.eqb_eq in Ec; subst c.
    destruct (hd 0%N s =? LF)%N eqn:E2.
    + destruct s as [|c2 s]; [discriminate E2|].
      cbn [hd] in E2. rewrite E2. apply N.eqb_eq in E2; subst c2.
      rewrite lineEnding_match_CRLF.
      replace (S (S i) - i) with 2 by lia.
      cbn [app]. f_equal. apply (proj2 (IH (S i))).
    + rewrite lineEnding_match_CR by exact E2.
      replace (S i - i) with 1 by lia.
      cbn [app]. f_equal. rewrite (proj1 (IH (S i))).
      destruct s as [|c2 s]; [reflexivity|]. cbn [hd] in E2. now rewrite E2.
  - rewrite (lineEnding_no_match c s i Ec). f_equal. apply IH.
Qed.

Lemma normalizeLineEndings_toLF (text : str) : normalizeLineEndings text = toLF text.
Proof. apply replaceAllFrom_toLF. Qed.

Lemma toLF_CRLF (s : str) : toLF (CR :: LF :: s) = LF :: toLF s.
Proof. reflexivity. Qed.

Lemma toLF_CR (s : str) :
  (hd 0%N s =? LF)%N = false -> toLF (CR :: s) = LF :: toLF s.
Proof.
  intros H. cbn [toLF]. change (CR =? CR)%N with true. cbv iota.
  destruct s as [|c s]; [reflexivity|]. cbn [hd] in H. now rewrite H.
Qed.

Lemma toLF_other (c : char) (s : str) :
  (c =? CR)%N = false -> toLF (c :: s) = c :: toLF s.
Proof. intros H. cbn [toLF]. now rewrite H. Qed.

(** The three shapes of a non-empty text. *)
Lemma text_shape (c : char) (s : str) :
  (c = CR /\ exists s', s = LF :: s')
  \/ (c = CR /\ (hd 0%N s =? LF)%N = false)
  \/ (c =? CR)%N = false.
Proof.
  destruct (c =? CR)%N eqn:Ec; [|now right; right].
  apply N.eqb_eq in Ec. destruct s as [|c2 s]; [right; left; now split|].
  destruct (c2 =? LF)%N eqn:E2.
  - apply N.eqb_eq in E2; subst c2. left. split; [exact Ec | now exists s].
  - right; left. now split.
Qed.

Lemma toLF_noCR_bounded (n : nat) :
  forall s, length s <= n -> noCR (toLF s) = true.
Proof.
  induction n as [|n IH]; intros s Hn.
  - destruct s; [reflexivity | cbn [length] in Hn; lia].
  - destruct s as [|c s]; [reflexivity|]. cbn [length] in Hn.
    destruct (text_shape c s) as [[-> [s' ->]] | [[-> H] | H]].
    + rewrite toLF_CRLF. cbn [noCR forallb]. cbn [length] in Hn.
      change (forallb _ (toLF s')) with (noCR (toLF s')).
      rewrite IH by lia. reflexivity.
    + rewrite toLF_CR by exact H. cbn [noCR forallb].
      change (forallb _ (toLF s)) with (noCR (toLF s)).
      rewrite IH by lia. reflexivity.
    + rewrite toLF_other by exact H. cbn [noCR forallb].
      change (forallb _ (toLF s)) with (noCR (toLF s)).
      rewrite H, IH by lia. reflexivity.
Qed.

(** X1: the normalized text holds no carriage return. *)
Theorem normalizeLineEndings_noCR (text : str) :
  noCR (normalizeLineEndings text) = true.
Proof.
  rewrite normalizeLineEndings_toLF.
  now apply (toLF_noCR_bounded (length text)).
Qed.

(** X2: normalizing line endings twice is normalizing them once. *)
Theorem normalizeLineEndings_idempotent (text : str) :
  normalizeLineEndings (normalizeLineEndings text) = normalizeLineEndings text.
Proof.
  apply normalizeLineEndings_no_CR.
  rewrite normalizeLineEndings_toLF.
  now apply (toLF_noCR_bounded (length text)).
Qed.

Lemma splitsLineEnding_nil (b : str) : splitsLineEnding [] b = false.
Proof. reflexivity. Qed.

Lemma splitsLineEnding_cons (c c2 : char) (a b : str) :
  splitsLineEnding (c :: c2 :: a) b = splitsLineEnding (c2 :: a) b.
Proof. reflexivity. Qed.

Lemma toLF_app_bounded (n : nat) :
  forall a b, length a <= n -> splitsLineEnding a b = false ->
              toLF (a ++ b) = toLF a ++ toLF b.
Proof.
  induction n as [|n IH]; intros a b Hn Hs.
  - destruct a; [reflexivity | cbn [length] in Hn; lia].
  - destruct a as [|c a]; [reflexivity|]. cbn [length] in Hn.
    destruct (text_shape c a) as [[-> [a' ->]] | [[-> H] | H]].
    + cbn [app]. rewrite !toLF_CRLF. cbn [app]. f_equal.
      cbn [length] in Hn. apply IH; [lia|].
      destruct a' as [|c3 a']; [reflexivity|].
      now rewrite !splitsLineEnding_cons in Hs.
    + destruct a as [|c2 a].
      * cbn [app]. unfold splitsLineEnding in Hs. cbn [last] in Hs.
        change (CR =? CR)%N with true in Hs. cbn [andb] in Hs.
        now rewrite (toLF_CR b Hs).
      * cbn [app]. rewrite !toLF_CR by exact H.
        cbn [app]. f_equal. rewrite splitsLineEnding_cons in Hs.
        apply (IH (c2 :: a) b); [lia | exact Hs].
    + cbn [app]. rewrite !toLF_other by exact H. cbn [app]. f_equal.
      apply IH; [lia|].
      destruct a as [|c2 a]; [reflexivity|].
      now rewrite splitsLineEnding_cons in Hs.
Qed.

(** X3: normalization goes through a concatenation, unless the cut goes
    through a carriage return, line feed pair. *)
Theorem normalizeLineEndings_app (a b : str) :
  splitsLineEnding a b = false ->
  normalizeLineEndings (a ++ b) = normalizeLineEndings a ++ normalizeLineEndings b.
Proof.
  intros H. rewrite !normalizeLineEndings_toLF.
  now apply (toLF_app_bounded (length a)).
Qed.

Lemma normalizeLineEndings_app_witness :
  normalizeLineEndings ((lit "a" ++ [CR]) ++ lit "b" ++ [CR; LF])
  = normalizeLineEndings (lit "a" ++ [CR]) ++ normalizeLineEndings (lit "b" ++ [CR; LF]).
Proof.
  exact (normalizeLineEndings_app (lit "a" ++ [CR]) (lit "b" ++ [CR; LF]) eq_refl).
Defined.

(** The hypothesis is needed: cut through the pair, the two halves give two
    line feeds. *)
Example normalizeLineEndings_cut_pair :
  normalizeLineEndings ([CR] ++ [LF]) = [LF]
  /\ normalizeLineEndings [CR] ++ normalizeLineEndings [LF] = [LF; LF].
Proof. split; reflexivity. Qed.

End LineEndingNormalizer.

(** ** The Context-Space Repairer, further *)

Section RepairerFurther.

Lemma split_app_LF (a b : str) :
  Str.split (a ++ LF :: b) = Str.split a ++ Str.split b.
Proof.
  induction a as [|c a IH]; [reflexivity|].
  cbn [app Str.split]. rewrite IH.
  destruct (c =? LF)%N; [reflexivity|].
  pose proof (split_nonempty a) as Hne.
  destruct (Str.split a) as [|l ls]; [congruence | reflexivity].
Qed.

Lemma join_app (x y : list str) :
  x <> [] -> y <> [] -> Str.join (x ++ y) = Str.join x ++ LF :: Str.join y.
Proof.
  intros Hx Hy. induction x as [|l x IH]; [congruence|].
  destruct x as [|l' x].
  - cbn [app]. now rewrite join_cons.
  - change ((l :: l' :: x) ++ y) with (l :: (l' :: x) ++ y).
    rewrite join_cons by discriminate.
    rewrite IH by discriminate.
    rewrite (join_cons l (l' :: x)) by discriminate.
    now rewrite <- app_assoc.
Qed.

Lemma map_nonempty {A B : Type} (f : A -> B) (l : list A) :
  l <> [] -> map f l <> [].
Proof. destruct l; [congruence | discriminate]. Qed.

Lemma hasMarker_space (line : str) : hasMarker (SP :: line) = true.
Proof. reflexivity. Qed.

Lemma fixLine_idempotent (line : str) : fixLine (fixLine line) = fixLine line.
Proof.
  unfold fixLine at 2 3.
  destruct (hasMarker line || isBlank line) eqn:E.
  - unfold fixLine. now rewrite E.
  - unfold fixLine. now rewrite hasMarker_space.
Qed.

Lemma fixLine_marked (line : str) :
  hasMarker (fixLine line) || isBlank (fixLine line) = true.
Proof.
  unfold fixLine. destruct (hasMarker line || isBlank line) eqn:E.
  - exact E.
  - now rewrite hasMarker_space.
Qed.

(** X4: repairing a repaired text changes nothing. *)
Theorem autoFixSpaces_idempotent (diffText : str) :
  autoFixSpaces (autoFixSpaces diffText) = autoFixSpaces diffText.
Proof.
  rewrite (autoFixSpaces_fixLine (autoFixSpaces diffText)).
  rewrite autoFixSpaces_lines, map_map.
  rewrite (map_ext _ _ fixLine_idempotent).
  symmetry. apply autoFixSpaces_fixLine.
Qed.

(** X5: after the repair every line is blank or starts with one of the
    recognized prefixes. *)
Theorem autoFixSpaces_all_marked (diffText : str) :
  forallb (fun line => hasMarker line || isBlank line)
    (Str.split (autoFixSpaces diffText)) = true.
Proof.
  rewrite autoFixSpaces_lines.
  induction (Str.split diffText) as [|line ls IH]; [reflexivity|].
  cbn [map forallb]. now rewrite fixLine_marked, IH.
Qed.

(** X6: the repair works line by line: two texts joined by a line feed are
    repaired each on its own. *)
Theorem autoFixSpaces_app (a b : str) :
  autoFixSpaces (a ++ LF :: b) = autoFixSpaces a ++ LF :: autoFixSpaces b.
Proof.
  rewrite !autoFixSpaces_fixLine, split_app_LF, map_app.
  apply join_app; apply map_nonempty, split_nonempty.
Qed.

(** X7: the prefix "binary " is matched with its small letter only: a line
    that starts with "Binary ", as git writes "Binary files ... differ", is
    taken for a context line and gains a leading space. *)
Theorem autoFixSpaces_capital_Binary (diffText rest : str) (i : nat) :
  nth_error (Str.split diffText) i = Some (lit "Binary " ++ rest) ->
  nth_error (Str.split (autoFixSpaces diffText)) i
  = Some (SP :: lit "Binary " ++ rest).
Proof.
  intros H. rewrite autoFixSpaces_lines, nth_error_map, H. reflexivity.
Qed.

Lemma autoFixSpaces_capital_Binary_witness :
  nth_error
    (Str.split (autoFixSpaces
                  (text ["diff --git a/logo.png b/logo.png";
                         "Binary files a/logo.png and b/logo.png differ"]%string)))
    1
  = Some (lit " Binary files a/logo.png and b/logo.png differ").
Proof.
  exact (autoFixSpaces_capital_Binary
           (text ["diff --git a/logo.png b/logo.png";
                  "Binary files a/logo.png and b/logo.png differ"]%string)
           (lit "files a/logo.png and b/logo.png differ") 1 eq_refl).
Defined.

End RepairerFurther.

(** ** The Header Synthesizer, further *)

Section SynthesizerFurther.

Lemma execFrom_unfold (r : regex) (s : str) (i : nat) :
  execFrom r s i =
  match rmatch r s i [] accept with
  | Some (e, cs) => Some ((0, firstn (e - i) s) :: cs)
  | None => match s with [] => None | _ :: s' => execFrom r s' (S i) end
  end.
Proof. now destruct s. Qed.

(** The search returns the match at the first place where the pattern
    matches. *)
Lemma execFrom_first (r : regex) (a b : str) (e : nat) (cs : captures) :
  forall i,
    (forall u v, a = u ++ v -> v <> [] ->
                 rmatch r (v ++ b) (i + length u) [] accept = None) ->
    rmatch r b (i + length a) [] accept = Some (e, cs) ->
    execFrom r (a ++ b) i = Some ((0, firstn (e - (i + length a)) b) :: cs).
Proof.
  induction a as [|x a IH]; intros i Hnone Hm.
  - cbn [app length] in *. rewrite Nat.add_0_r in *.
    now rewrite execFrom_unfold, Hm.
  - cbn [app]. rewrite execFrom_unfold.
    pose proof (Hnone [] (x :: a) eq_refl ltac:(discriminate)) as H0.
    cbn [app length] in H0. rewrite Nat.add_0_r in H0. rewrite H0.
    cbn [length] in Hm. rewrite Nat.add_succ_r in Hm.
    cbn [length]. rewrite Nat.add_succ_r. apply IH; [|exact Hm].
    intros u v -> Hv. specialize (Hnone (x :: u) v eq_refl Hv).
    cbn [length] in Hnone. now rewrite Nat.add_succ_r in Hnone.
Qed.

Lemma startsWith_app_long (p x y : str) :
  length p <= length x -> Str.startsWith p (x ++ y) = Str.startsWith p x.
Proof.
  revert x; induction p as [|c p IH]; intros x H; [now destruct x|].
  destruct x as [|d x]; [cbn [length] in H; lia|].
  cbn [app Str.startsWith]. rewrite IH; [reflexivity|].
  cbn [length] in H. lia.
Qed.

Lemma includes_false_suffix (p u w : str) :
  Str.includes p (u ++ w) = false -> Str.startsWith p w = false.
Proof.
  induction u as [|x u IH]; intros H.
  - cbn [app] in H. destruct w; cbn [Str.includes] in H;
      now apply orb_false_iff in H as [H _].
  - cbn [app Str.includes] in H. apply orb_false_iff in H as [_ H].
    now apply IH.
Qed.

Lemma newFilePath_fails (s : str) (i : nat) :
  Str.startsWith (lit "+++ b/") s = false ->
  rmatch Pattern.newFilePath s i [] accept = None.
Proof.
  intros H. unfold Pattern.newFilePath. rewrite rmatch_seq.
  now apply rmatch_lit_fail.
Qed.

(** The recovered path is the rest of the line after the first "+++ b/". *)
Lemma filePath_recovers (before path after : str) :
  Str.includes (lit "+++ b/") (before ++ lit "+++ b") = false ->
  isEmpty path = false -> noTerminator path = true ->
  stopsAt Char.isDot after = true ->
  filePath (before ++ lit "+++ b/" ++ path ++ after) = path.
Proof.
  intros Hfirst Hp0 Hp Ha. unfold filePath, exec.
  assert (Hm : rmatch Pattern.newFilePath (lit "+++ b/" ++ path ++ after)
                 (0 + length before) [] accept
               = Some (0 + length before + length (lit "+++ b/") + length path,
                       [(1, path)])).
  { unfold Pattern.newFilePath, Pattern.dot.
    rewrite rmatch_seq, rmatch_lit_app. cbv beta.
    apply grp_plus_max; try assumption. reflexivity. }
  rewrite (execFrom_first Pattern.newFilePath before
             (lit "+++ b/" ++ path ++ after)
             (0 + length before + length (lit "+++ b/") + length path)
             [(1, path)] 0); [reflexivity | | exact Hm].
  intros u v -> Hv. apply newFilePath_fails.
  change (lit "+++ b/" ++ path ++ after)
    with (lit "+++ b" ++ lit "/" ++ path ++ after).
  rewrite app_assoc, startsWith_app_long.
  - apply (includes_false_suffix _ u). now rewrite <- app_assoc in Hfirst.
  - rewrite length_app. destruct v; [congruence|].
    cbn [length]. change (length (lit "+++ b/")) with 6.
    change (length (lit "+++ b")) with 5. lia.
Qed.

Lemma filePath_without_prefix (text : str) :
  Str.includes (lit "+++ b/") text = false -> filePath text = lit "unknown-file".
Proof.
  intros H. unfold filePath.
  destruct (exec Pattern.newFilePath text) as [m|] eqn:E; [|reflexivity].
  apply execFrom_inv in E as (a & b & res & -> & E).
  unfold Pattern.newFilePath in E. rewrite rmatch_seq in E.
  apply rmatch_lit_inv in E as (s' & -> & _).
  rewrite includes_app in H. discriminate.
Qed.

Lemma addMissingHeaders_new_only (diffText : str) :
  Str.startsWith (lit "diff ") (Str.trim diffText) = false ->
  Str.includes (lit "--- ") diffText = false ->
  Str.includes (lit "+++ ") diffText = true ->
  addMissingHeaders diffText
  = Str.join [lit "diff --git a/" ++ filePath diffText
                ++ lit " b/" ++ filePath diffText;
              lit "--- a/" ++ filePath diffText;
              diffText].
Proof.
  intros Hd Hm Hp. unfold addMissingHeaders. rewrite Hd, Hm, Hp.
  cbn [negb andb]. unfold Str.join.
  repeat (rewrite <- app_assoc || rewrite <- app_comm_cons).
  reflexivity.
Qed.

(** X8: a text that has a "+++ b/<path>" line but no "--- " (and does not
    open with "diff ") gets two lines in front, "diff --git a/<path>
    b/<path>" and "--- a/<path>", with the path of its first "+++ b/". *)
Theorem addMissingHeaders_new_marker_only (before path after : str) :
  Str.startsWith (lit "diff ")
    (Str.trim (before ++ lit "+++ b/" ++ path ++ after)) = false ->
  Str.includes (lit "--- ") (before ++ lit "+++ b/" ++ path ++ after) = false ->
  Str.includes (lit "+++ b/") (before ++ lit "+++ b") = false ->
  isEmpty path = false -> noTerminator path = true ->
  stopsAt Char.isDot after = true ->
  addMissingHeaders (before ++ lit "+++ b/" ++ path ++ after)
  = Str.join [lit "diff --git a/" ++ path ++ lit " b/" ++ path;
              lit "--- a/" ++ path;
              before ++ lit "+++ b/" ++ path ++ after].
Proof.
  intros Hd Hm Hfirst Hp0 Hp Ha.
  rewrite addMissingHeaders_new_only; try assumption.
  - now rewrite filePath_recovers.
  - apply includes_prefix with (q := lit "+++ b/"); [reflexivity|].
    apply includes_app.
Qed.

Lemma addMissingHeaders_new_marker_only_witness :
  addMissingHeaders
    (text ["Index: app"; "+++ b/src/app.ts"; "@@ -1 +1 @@"; "-a"; "+b"]%string)
  = text ["diff --git a/src/app.ts b/src/app.ts"; "--- a/src/app.ts";
          "Index: app"; "+++ b/src/app.ts"; "@@ -1 +1 @@"; "-a"; "+b"]%string.
Proof.
  exact (addMissingHeaders_new_marker_only
           (lit "Index: app" ++ [LF]) (lit "src/app.ts")
           (LF :: text ["@@ -1 +1 @@"; "-a"; "+b"]%string)
           eq_refl eq_refl eq_refl eq_refl eq_refl eq_refl).
Defined.

(** X9: a "+++ " line whose path does not start with "b/" gives no path:
    the two synthesized lines name "unknown-file" while the text keeps its
    own "+++ " line. *)
Theorem addMissingHeaders_unprefixed_path (diffText : str) :
  Str.startsWith (lit "diff ") (Str.trim diffText) = false ->
  Str.includes (lit "--- ") diffText = false ->
  Str.includes (lit "+++ ") diffText = true ->
  Str.includes (lit "+++ b/") diffText = false ->
  addMissingHeaders diffText
  = Str.join [lit "diff --git a/unknown-file b/unknown-file";
              lit "--- a/unknown-file";
              diffText].
Proof.
  intros Hd Hm Hp Hb.
  rewrite addMissingHeaders_new_only by assumption.
  now rewrite filePath_without_prefix.
Qed.

Lemma addMissingHeaders_unprefixed_path_witness :
  addMissingHeaders (text ["+++ src/app.ts"; "@@ -1 +1 @@"; "-a"; "+b"]%string)
  = text ["diff --git a/unknown-file b/unknown-file"; "--- a/unknown-file";
          "+++ src/app.ts"; "@@ -1 +1 @@"; "-a"; "+b"]%string.
Proof.
  exact (addMissingHeaders_unprefixed_path
           (text ["+++ src/app.ts"; "@@ -1 +1 @@"; "-a"; "+b"]%string)
           eq_refl eq_refl eq_refl eq_refl).
Defined.

Lemma includes_not_blank (p : str) (c : char) (text : str) :
  Char.isWhiteSpace c = false ->
  Str.includes (c :: p) text = true -> isBlank text = false.
Proof.
  intros Hc H. apply includes_inv in H as (a & b & ->).
  unfold isBlank. rewrite forallb_app. cbn [app forallb].
  rewrite Hc. apply andb_false_r.
Qed.

(** X10: whatever text does not open, once trimmed, with "diff " is
    classified as a unified diff once it went through the synthesizer. *)
Theorem isUnifiedDiff_addMissingHeaders (diffText : str) :
  Str.startsWith (lit "diff ") (Str.trim diffText) = false ->
  isUnifiedDiff (addMissingHeaders diffText) = true.
Proof.
  intros Hd. rewrite isUnifiedDiff_signals.
  destruct (Str.includes (lit "--- ") diffText) eqn:Hm.
  - assert (E : addMissingHeaders diffText = diffText).
    { unfold addMissingHeaders. now rewrite Hd, Hm. }
    rewrite E, Hm.
    rewrite (includes_not_blank (lit "-- ") 45%N diffText eq_refl Hm).
    cbn [negb andb]. now rewrite !orb_true_r.
  - assert (E : exists s, addMissingHeaders diffText = lit "diff --git a/" ++ s).
    { unfold addMissingHeaders. rewrite Hd, Hm. cbn [negb andb].
      destruct (Str.includes (lit "+++ ") diffText); cbn [negb];
        [|unfold Str.join; rewrite <- ?app_assoc]; eexists; reflexivity. }
    destruct E as [s ->].
    assert (Hi : Str.includes (lit "diff --git") (lit "diff --git a/" ++ s) = true)
      by (apply includes_startsWith; reflexivity).
    rewrite Hi.
    rewrite (includes_not_blank (lit "iff --git") 100%N _ eq_refl Hi).
    reflexivity.
Qed.

Lemma isUnifiedDiff_addMissingHeaders_witness :
  isUnifiedDiff (lit "hello") = false
  /\ isUnifiedDiff (addMissingHeaders (lit "hello")) = true.
Proof.
  split; [reflexivity|].
  exact (isUnifiedDiff_addMissingHeaders (lit "hello") eq_refl).
Defined.

End SynthesizerFurther.

(** ** The Hunk-Header Recalculator, further *)

Section RecalculatorFurther.

(** A header and the header written in its place are classified alike by
    the look-ahead: both stop it. *)
Lemma hunkHeaderText_stop (os ns tr : str) (oc nc : option str) :
  isStop (hunkHeaderText os oc ns nc tr) = true.
Proof. reflexivity. Qed.

Lemma exec_hunkHeader_stop (line : str) (m : captures) :
  exec Pattern.hunkHeader line = Some m -> isStop line = true.
Proof.
  intros H. apply hunkHeader_exec_inv in H
    as (os & oc & ns & nc & tr & -> & _).
  apply hunkHeaderText_stop.
Qed.

Lemma hunkLine_stop (line : str) (m : captures) (o n : nat) :
  exec Pattern.hunkHeader line = Some m -> isStop (hunkLine m o n) = true.
Proof.
  intros H. apply hunkHeader_exec_inv in H
    as (os & oc & ns & nc & tr & _ & _ & _ & _ & _ & _ & ->).
  rewrite hunkLine_hunkCaptures. apply hunkHeaderText_stop.
Qed.

Lemma lookAhead_adjustLines (ls : list str) :
  forall o n, lookAhead (adjustLines ls) o n = lookAhead ls o n.
Proof.
  induction ls as [|l ls IH]; intros o n; [reflexivity|].
  cbn [adjustLines].
  destruct (exec Pattern.hunkHeader l) as [m|] eqn:E.
  - destruct (lookAhead ls 0 0) as [o' n']. cbn [lookAhead].
    now rewrite (hunkLine_stop l m o' n' E), (exec_hunkHeader_stop l m E).
  - cbn [lookAhead]. now rewrite !IH.
Qed.

(** A rewritten header is a header, with the same starts and trailing text. *)
Lemma exec_hunkLine (line : str) (m : captures) (o n : nat) :
  exec Pattern.hunkHeader line = Some m ->
  exists m',
    exec Pattern.hunkHeader (hunkLine m o n) = Some m'
    /\ forall o' n', hunkLine m' o' n' = hunkLine m o' n'.
Proof.
  intros H. apply hunkHeader_exec_inv in H
    as (os & oc & ns & nc & tr & _ & Hos & _ & Hns & _ & Htr & ->).
  rewrite hunkLine_hunkCaptures. eexists. split.
  - apply hunkHeader_exec; try assumption; apply ofNat_isNumber.
  - intros o' n'. now rewrite !hunkLine_hunkCaptures.
Qed.

Lemma adjustLines_idempotent (ls : list str) :
  adjustLines (adjustLines ls) = adjustLines ls.
Proof.
  induction ls as [|l ls IH]; [reflexivity|].
  cbn [adjustLines].
  destruct (exec Pattern.hunkHeader l) as [m|] eqn:E.
  - destruct (lookAhead ls 0 0) as [o n] eqn:El. cbn [adjustLines].
    destruct (exec_hunkLine l m o n E) as (m' & -> & Hm').
    now rewrite lookAhead_adjustLines, El, Hm', IH.
  - cbn [adjustLines]. now rewrite E, IH.
Qed.

(** X11: recalculating the headers of a recalculated text changes nothing. *)
Theorem adjustHunkHeaders_idempotent (diffText : str) :
  exists out,
    adjustHunkHeaders diffText = Normal out
    /\ adjustHunkHeaders out = Normal out.
Proof.
  destruct (adjustHunkHeaders_lines diffText) as (out & Hout & Hsplit).
  exists out. split; [exact Hout|].
  rewrite adjustHunkHeaders_adjustLines, Hsplit, adjustLines_idempotent.
  rewrite <- Hsplit. now rewrite join_split.
Qed.

(** X12: the counts ignore every line that starts with none of "+", "-"
    and space and is no stop line: the empty line that ends a text with a
    final line feed, "\ No newline at end of file", a malformed "@@" line.
    With any such lines among the body, the old count is still deletions +
    contexts and the new count additions + contexts. *)
Theorem adjustHunkHeaders_skips_other_lines (before body after : list str)
  (oldStart newStart trailing : str) (oldCount newCount : option str) :
  isNumber oldStart = true -> isCountField oldCount = true ->
  isNumber newStart = true -> isCountField newCount = true ->
  noTerminator trailing = true ->
  forallb (fun l => negb (isStop l)) body = true ->
  (match after with [] => true | l :: _ => isStop l end) = true ->
  forallb isLine (before ++ body ++ after) = true ->
  exists out,
    adjustHunkHeaders
      (Str.join (before
                 ++ hunkHeaderText oldStart oldCount newStart newCount trailing
                 :: body ++ after)) = Normal out
    /\ nth_error (Str.split out) (length before)
       = Some (hunkHeaderText oldStart
                 (Some (Str.ofNat (count isDeletion body + count isContext body)))
                 newStart
                 (Some (Str.ofNat (count isAddition body + count isContext body)))
                 trailing).
Proof.
  intros Hos Hoc Hns Hnc Htr Hb Ha Hl.
  pose proof (hunk_lines_isLine _ _ _ _ _ _ _ _ Hos Hoc Hns Hnc Htr Hl) as Hl'.
  destruct (adjustHunkHeaders_of_lines _ (middle_nonempty _ _ _) Hl')
    as (out & Hout & Hsplit).
  exists out. split; [exact Hout|]. rewrite Hsplit.
  now apply adjustLines_hunk.
Qed.

Lemma adjustHunkHeaders_skips_other_lines_witness :
  exists out,
    adjustHunkHeaders
      (text ["@@ -1,9 +1,9 @@"; " a"; ""; "-b"; "@@malformed"; "+c";
             "\ No newline at end of file"; ""]%string) = Normal out
    /\ nth_error (Str.split out) 0 = Some (lit "@@ -1,2 +1,2 @@").
Proof.
  exact (adjustHunkHeaders_skips_other_lines
           []
           (map lit [" a"; ""; "-b"; "@@malformed"; "+c";
                     "\ No newline at end of file"; ""]%string)
           [] (lit "1") (lit "1") [] (Some (lit "9")) (Some (lit "9"))
           eq_refl eq_refl eq_refl eq_refl eq_refl eq_refl eq_refl eq_refl).
Defined.

End RecalculatorFurther.

(** ** The Diff Validity Classifier, further *)

Section ClassifierFurther.

Lemma split_blank (text : str) :
  isBlank text = true -> forallb isBlank (Str.split text) = true.
Proof.
  induction text as [|c s IH]; [reflexivity|].
  cbn [isBlank forallb]. intros H. apply andb_true_iff in H as [Hc Hs].
  specialize (IH Hs). cbn [Str.split].
  destruct (c =? LF)%N; [exact IH|].
  destruct (Str.split s) as [|l ls]; cbn [forallb isBlank] in *.
  - now rewrite Hc.
  - now rewrite Hc.
Qed.

Lemma beginsPlusMinus_blank (line : str) :
  isBlank line = true -> beginsPlusMinus line = false.
Proof.
  intros H. unfold beginsPlusMinus.
  pose proof (trim_blank line) as E. rewrite H in E.
  now destruct (Str.trim line).
Qed.

Lemma count_blank (text : str) :
  isBlank text = true -> count beginsPlusMinus (Str.split text) = 0.
Proof.
  intros H. apply split_blank in H. unfold count.
  induction (Str.split text) as [|l ls IH]; [reflexivity|].
  cbn [forallb] in H. apply andb_true_iff in H as [Hl Hls].
  cbn [filter]. rewrite (beginsPlusMinus_blank l Hl). now apply IH.
Qed.

(** X13: the classifier answers true exactly when one of its signals is
    there: one of the markers "diff --git", "--- ", "+++ ", a strict hunk
    header, or two lines that begin, once trimmed, with "+" or "-".  The
    guard against blank text never decides: a blank text has no signal. *)
Theorem isUnifiedDiff_iff (text : str) :
  isUnifiedDiff text = true
  <-> (Str.includes (lit "diff --git") text = true
       \/ Str.includes (lit "--- ") text = true
       \/ Str.includes (lit "+++ ") text = true
       \/ ContainsStrictHunkHeader text
       \/ 2 <= count beginsPlusMinus (Str.split text)).
Proof.
  rewrite isUnifiedDiff_signals. split.
  - intros H. apply andb_true_iff in H as [_ H].
    apply orb_true_iff in H as [H|H]; [|right; right; right; right].
    + apply orb_true_iff in H as [H|H]; [|right; right; right; left].
      * apply orb_true_iff in H as [H|H]; [|now right; right; left].
        apply orb_true_iff in H as [H|H]; [now left | now right; left].
      * now apply strictHunkHeader_test.
    + now apply Nat.leb_le.
  - intros H.
    assert (Hb : isBlank text = false).
    { destruct H as [H | [H | [H | [H | H]]]].
      - exact (includes_not_blank (lit "iff --git") 100%N text eq_refl H).
      - exact (includes_not_blank (lit "-- ") 45%N text eq_refl H).
      - exact (includes_not_blank (lit "++ ") 43%N text eq_refl H).
      - now apply strict_not_blank.
      - destruct (isBlank text) eqn:E; [|reflexivity].
        rewrite (count_blank text E) in H. lia. }
    rewrite Hb. cbn [negb andb].
    destruct H as [H | [H | [H | [H | H]]]].
    + now rewrite H.
    + rewrite H. now rewrite !orb_true_r.
    + rewrite H. now rewrite !orb_true_r.
    + apply strictHunkHeader_test in H. rewrite H. now rewrite !orb_true_r.
    + apply Nat.leb_le in H. rewrite H. now rewrite !orb_true_r.
Qed.

Lemma isUnifiedDiff_iff_witness :
  isUnifiedDiff (text ["Shopping:"; "- milk"; "- eggs"]%string) = true.
Proof.
  apply (proj2 (isUnifiedDiff_iff (text ["Shopping:"; "- milk"; "- eggs"]%string))).
  right; right; right; right. apply Nat.leb_le. reflexivity.
Defined.

End ClassifierFurther.

(** ** The Header Field Extractor, further *)

Section ExtractorFurther.

Variable sanitizePath : str -> str.

Lemma gitHeader_noTerminator (old new line : str) :
  GitHeader old new line -> noTerminator line = true.
Proof.
  intros (-> & Ho & Hn). unfold noTerminator in *.
  rewrite !forallb_app, Ho, Hn. reflexivity.
Qed.

(** X14: a line terminator anywhere in the line (a carriage return left at
    its end, say) makes the extractor return both fields undefined. *)
Theorem extractFileNamesFromHeader_terminator (diffHeader : str) :
  noTerminator diffHeader = false ->
  extractFileNamesFromHeader sanitizePath diffHeader
  = {| oldFile := None; newFile := None |}.
Proof.
  intros H. unfold extractFileNamesFromHeader.
  destruct (exec Pattern.gitHeader diffHeader) as [m|] eqn:E; [|reflexivity].
  apply gitHeader_exec_inv in E as (old & new & Hg & _).
  apply gitHeader_noTerminator in Hg. congruence.
Qed.

(** On a header that splits in one way the extractor returns that split. *)
Lemma extract_unambiguous (old new line : str) :
  GitHeader old new line -> Str.includes (lit " b/") new = false ->
  extractFileNamesFromHeader sanitizePath line
  = {| oldFile := Some (sanitizePath old); newFile := Some (sanitizePath new) |}.
Proof.
  intros H Hnew. unfold extractFileNamesFromHeader.
  pose proof (gitHeader_exec_complete _ _ _ H) as Hc.
  destruct (exec Pattern.gitHeader line) as [m|] eqn:E; [|congruence].
  apply gitHeader_exec_longest in E as (old' & new' & H' & -> & Hlong).
  destruct (gitHeader_split_unique _ _ _ _ _ H H' (Hlong _ _ H) Hnew)
    as [-> ->].
  reflexivity.
Qed.

End ExtractorFurther.

Lemma extractFileNamesFromHeader_terminator_witness :
  extractFileNamesFromHeader dropControls (lit "diff --git a/x.ts b/x.ts" ++ [CR])
  = {| oldFile := None; newFile := None |}.
Proof.
  exact (extractFileNamesFromHeader_terminator dropControls
           (lit "diff --git a/x.ts b/x.ts" ++ [CR]) eq_refl).
Defined.

(** ** The stages together *)

Section Pipeline.

Variable sanitizePath : str -> str.

Lemma execFrom_inv_caps (r : regex) (s : str) (m : captures) :
  forall i,
    execFrom r s i = Some m ->
    exists a b e cs,
      s = a ++ b
      /\ rmatch r b (i + length a) [] accept = Some (e, cs)
      /\ m = (0, firstn (e - (i + length a)) b) :: cs.
Proof.
  induction s as [|x s IH]; intros i H; rewrite execFrom_unfold in H.
  - destruct (rmatch r [] i [] accept) as [[e cs]|] eqn:E; [|discriminate].
    injection H as <-. exists [], [], e, cs. cbn [app length].
    now rewrite Nat.add_0_r.
  - destruct (rmatch r (x :: s) i [] accept) as [[e cs]|] eqn:E.
    + injection H as <-. exists [], (x :: s), e, cs. cbn [app length].
      now rewrite Nat.add_0_r.
    + destruct (IH _ H) as (a & b & e & cs & -> & Hm & ->).
      exists (x :: a), b, e, cs. cbn [app length].
      rewrite Nat.add_succ_r. auto.
Qed.

(** The recovered path holds no line terminator. *)
Lemma filePath_noTerminator (diffText : str) :
  noTerminator (filePath diffText) = true.
Proof.
  unfold filePath.
  destruct (exec Pattern.newFilePath diffText) as [m|] eqn:E; [|reflexivity].
  apply execFrom_inv_caps in E as (a & b & e & cs & _ & E & ->).
  unfold Pattern.newFilePath in E. rewrite rmatch_seq in E.
  apply rmatch_lit_inv in E as (s' & _ & E).
  apply grp_plus_inv in E as (path & s'' & _ & _ & Hp & E).
  unfold accept in E. injection E as _ <-. exact Hp.
Qed.

Lemma noTerminator_noCR (s : str) : noTerminator s = true -> noCR s = true.
Proof.
  unfold noTerminator, noCR. induction s as [|c s IH]; [reflexivity|].
  cbn [forallb]. intros H. apply andb_true_iff in H as [Hc Hs].
  rewrite (IH Hs), andb_true_r.
  unfold Char.isDot, Char.isLineTerminator in Hc.
  apply negb_true_iff in Hc. apply negb_true_iff.
  apply orb_false_iff in Hc as [Hc _]. apply orb_false_iff in Hc as [Hc _].
  now apply orb_false_iff in Hc as [_ Hc].
Qed.

(** The synthesized lines, when there are any. *)
Lemma addMissingHeaders_synthesized (diffText : str) :
  Str.startsWith (lit "diff ") (Str.trim diffText) = false ->
  Str.includes (lit "--- ") diffText = false ->
  exists rest,
    addMissingHeaders diffText
    = (lit "diff --git a/" ++ filePath diffText ++ lit " b/" ++ filePath diffText)
      ++ LF :: (lit "--- a/" ++ filePath diffText) ++ LF :: rest
    /\ (rest = (lit "+++ b/" ++ filePath diffText) ++ LF :: diffText
        \/ rest = diffText).
Proof.
  intros Hd Hm. unfold addMissingHeaders. rewrite Hd, Hm. cbn [negb andb].
  destruct (Str.includes (lit "+++ ") diffText); cbn [negb]; eexists; split.
  - repeat (rewrite <- app_assoc || rewrite <- app_comm_cons). reflexivity.
  - now right.
  - unfold Str.join.
    repeat (rewrite <- app_assoc || rewrite <- app_comm_cons). reflexivity.
  - now left.
Qed.

Lemma addMissingHeaders_kept (diffText : str) :
  Str.startsWith (lit "diff ") (Str.trim diffText) = true
  \/ Str.includes (lit "--- ") diffText = true ->
  addMissingHeaders diffText = diffText.
Proof.
  unfold addMissingHeaders. intros [H|H]; rewrite H; [reflexivity|].
  now destruct (negb (Str.startsWith (lit "diff ") (Str.trim diffText))).
Qed.

Lemma gitLine_isLine (p : str) :
  noTerminator p = true ->
  isLine (lit "diff --git a/" ++ p ++ lit " b/" ++ p) = true.
Proof.
  intros H. apply noTerminator_isLine in H.
  now rewrite !isLine_app, H.
Qed.

(** X15: the first line the synthesizer writes reads back through the
    extractor as the recovered path, on both sides, as long as that path
    holds no " b/". *)
Theorem extractFileNamesFromHeader_synthesized (diffText : str) :
  Str.startsWith (lit "diff ") (Str.trim diffText) = false ->
  Str.includes (lit "--- ") diffText = false ->
  Str.includes (lit " b/") (filePath diffText) = false ->
  exists first,
    nth_error (Str.split (addMissingHeaders diffText)) 0 = Some first
    /\ extractFileNamesFromHeader sanitizePath first
       = {| oldFile := Some (sanitizePath (filePath diffText));
            newFile := Some (sanitizePath (filePath diffText)) |}.
Proof.
  intros Hd Hm Hb.
  destruct (addMissingHeaders_synthesized diffText Hd Hm) as (rest & -> & _).
  pose proof (filePath_noTerminator diffText) as Hp.
  eexists. split.
  - rewrite split_app_line by now apply gitLine_isLine. reflexivity.
  - apply extract_unambiguous; [|exact Hb]. now split.
Qed.

Lemma noCR_app (a b : str) : noCR (a ++ b) = noCR a && noCR b.
Proof. apply forallb_app. Qed.

Lemma noCR_split (s : str) : noCR s = true -> forallb noCR (Str.split s) = true.
Proof.
  induction s as [|c s IH]; [reflexivity|].
  cbn [noCR forallb]. intros H. apply andb_true_iff in H as [Hc Hs].
  specialize (IH Hs). cbn [Str.split].
  destruct (c =? LF)%N; [exact IH|].
  destruct (Str.split s) as [|l ls]; cbn [forallb noCR] in *; now rewrite Hc.
Qed.

Lemma noCR_join (ls : list str) : forallb noCR ls = true -> noCR (Str.join ls) = true.
Proof.
  induction ls as [|l ls IH]; [reflexivity|].
  cbn [forallb]. intros H. apply andb_true_iff in H as [Hl Hls].
  destruct ls as [|l' ls]; [exact Hl|].
  rewrite join_cons by discriminate.
  rewrite noCR_app, Hl. cbn [noCR forallb].
  change (forallb _ (Str.join (l' :: ls))) with (noCR (Str.join (l' :: ls))).
  now rewrite IH.
Qed.

Lemma autoFixSpaces_keeps_noCR (s : str) :
  noCR s = true -> noCR (autoFixSpaces s) = true.
Proof.
  intros H. rewrite autoFixSpaces_fixLine. apply noCR_join.
  apply noCR_split in H.
  induction (Str.split s) as [|l ls IH]; [reflexivity|].
  cbn [forallb map] in *. apply andb_true_iff in H as [Hl Hls].
  rewrite (IH Hls), andb_true_r. unfold fixLine.
  destruct (hasMarker l || isBlank l); [exact Hl|].
  cbn [noCR forallb]. exact Hl.
Qed.

Lemma addMissingHeaders_keeps_noCR (s : str) :
  noCR s = true -> noCR (addMissingHeaders s) = true.
Proof.
  intros H.
  destruct (Str.startsWith (lit "diff ") (Str.trim s)) eqn:Hd;
    [now rewrite addMissingHeaders_kept by now left|].
  destruct (Str.includes (lit "--- ") s) eqn:Hm;
    [now rewrite addMissingHeaders_kept by now right|].
  pose proof (noTerminator_noCR _ (filePath_noTerminator s)) as Hp.
  destruct (addMissingHeaders_synthesized s Hd Hm) as (rest & -> & [-> | ->]);
    repeat (rewrite noCR_app || cbn [noCR forallb]
            || change (forallb (fun c => negb (c =? CR)%N) ?x) with (noCR x));
    rewrite ?Hp, ?H; reflexivity.
Qed.

(** X16: a normalized diff holds no carriage return. *)
Theorem normalizeDiff_noCR (diffText : str) :
  noCR (normalizeDiff diffText) = true.
Proof.
  unfold normalizeDiff.
  apply addMissingHeaders_keeps_noCR, autoFixSpaces_keeps_noCR.
  rewrite normalizeLineEndings_toLF.
  now apply (toLF_noCR_bounded (length diffText)).
Qed.

Lemma autoFixSpaces_LF (a b : str) :
  autoFixSpaces (a ++ LF :: b) = autoFixSpaces a ++ LF :: autoFixSpaces b.
Proof.
  rewrite !autoFixSpaces_fixLine, split_app_LF, map_app.
  apply join_app; apply map_nonempty, split_nonempty.
Qed.

Lemma autoFixSpaces_marked_line (l : str) :
  isLine l = true -> hasMarker l = true -> autoFixSpaces l = l.
Proof.
  intros Hl Hm. rewrite autoFixSpaces_fixLine, split_line by exact Hl.
  cbn [map Str.join]. unfold fixLine. now rewrite Hm.
Qed.

Lemma autoFixSpaces_fixed (s : str) :
  autoFixSpaces (autoFixSpaces s) = autoFixSpaces s.
Proof.
  rewrite (autoFixSpaces_fixLine (autoFixSpaces s)), autoFixSpaces_lines, map_map.
  rewrite (map_ext _ _ fixLine_idempotent).
  symmetry. apply autoFixSpaces_fixLine.
Qed.

(** The synthesized lines carry markers: the repairer leaves them alone. *)
Lemma autoFixSpaces_addMissingHeaders (s : str) :
  autoFixSpaces s = s ->
  autoFixSpaces (addMissingHeaders s) = addMissingHeaders s.
Proof.
  intros Hs.
  destruct (Str.startsWith (lit "diff ") (Str.trim s)) eqn:Hd;
    [now rewrite addMissingHeaders_kept by now left|].
  destruct (Str.includes (lit "--- ") s) eqn:Hm;
    [now rewrite addMissingHeaders_kept by now right|].
  pose proof (filePath_noTerminator s) as Hp.
  pose proof (noTerminator_isLine _ Hp) as Hl.
  destruct (addMissingHeaders_synthesized s Hd Hm) as (rest & -> & [-> | ->]);
    rewrite !autoFixSpaces_LF, Hs;
    rewrite !autoFixSpaces_marked_line;
    try reflexivity; try (now rewrite !isLine_app, Hl).
Qed.

(** X17: normalizing a normalized diff changes nothing. *)
Theorem normalizeDiff_idempotent (diffText : str) :
  normalizeDiff (normalizeDiff diffText) = normalizeDiff diffText.
Proof.
  unfold normalizeDiff.
  set (y := autoFixSpaces (normalizeLineEndings diffText)).
  assert (Hy : autoFixSpaces y = y) by apply autoFixSpaces_fixed.
  assert (Hc : noCR (addMissingHeaders y) = true).
  { apply addMissingHeaders_keeps_noCR, autoFixSpaces_keeps_noCR.
    rewrite normalizeLineEndings_toLF.
    now apply (toLF_noCR_bounded (length diffText)). }
  rewrite (normalizeLineEndings_no_CR _ Hc).
  rewrite (autoFixSpaces_addMissingHeaders y Hy).
  destruct (addMissingHeaders_cases y) as [E | [s E]]; rewrite E.
  - exact E.
  - apply addMissingHeaders_diff.
Qed.

End Pipeline.

Lemma extractFileNamesFromHeader_synthesized_witness :
  exists first,
    nth_error (Str.split (addMissingHeaders
                            (text ["+++ b/src/app.ts"; "@@ -1 +1 @@"]%string))) 0
    = Some first
    /\ extractFileNamesFromHeader dropControls first
       = {| oldFile := Some (lit "src/app.ts");
            newFile := Some (lit "src/app.ts") |}.
Proof.
  exact (extractFileNamesFromHeader_synthesized dropControls
           (text ["+++ b/src/app.ts"; "@@ -1 +1 @@"]%string)
           eq_refl eq_refl eq_refl).
Defined.

(** ** The rate limiters *)

Section DebounceFacts.

Variable A : Type.
Variable wait : nat.

Lemma debounced_after (a : A) (st : debounceState A) :
  debounceInv wait st ->
  exists h,
    timeout (debounced A wait a st) = Some h
    /\ Timer.pending (debounceTimers (debounced A wait a st)) = [(h, (a, wait))]
    /\ debounceInvoked (debounced A wait a st) = debounceInvoked st.
Proof.
  unfold debounceInv, debounced. intros H.
  destruct (timeout st) as [h|].
  - destruct H as [a0 H]. eexists. cbn. rewrite H. cbn.
    rewrite Nat.eqb_refl. cbn. repeat split.
  - eexists. cbn. rewrite H. repeat split.
Qed.

Lemma debounceStep_inv (st : debounceState A) (ev : debounceEvent A) :
  debounceInv wait st -> debounceInv wait (debounceStep A wait st ev).
Proof.
  intros H. destruct ev as [a|h]; cbn [debounceStep].
  - destruct (debounced_after a st H) as (h & Ht & Hp & _).
    unfold debounceInv. rewrite Ht. now exists a.
  - unfold debounceInv in H. unfold Timer.take.
    destruct (timeout st) as [h0|] eqn:Et.
    + destruct H as [a H]. rewrite H. cbn [find fst].
      destruct (h0 =? h) eqn:E.
      * unfold debounceInv. cbn. rewrite H. cbn. now rewrite E.
      * unfold debounceInv. rewrite Et. now exists a.
    + rewrite H. cbn [find]. unfold debounceInv. now rewrite Et.
Qed.

Lemma fold_debounce_inv (evs : list (debounceEvent A)) :
  forall st, debounceInv wait st -> debounceInv wait (fold_left (debounceStep A wait) evs st).
Proof.
  induction evs as [|ev evs IH]; intros st H; [exact H|].
  cbn [fold_left]. now apply IH, debounceStep_inv.
Qed.

Lemma debounceRun_inv (evs : list (debounceEvent A)) :
  debounceInv wait (debounceRun A wait evs).
Proof. apply fold_debounce_inv. reflexivity. Qed.

(** X18: whatever the calls and the timers that ran, a debounced function
    has at most one timer pending: none when [timeout] is null, else the
    one [timeout] names. *)
Theorem debounce_one_timer (evs : list (debounceEvent A)) :
  match timeout (debounceRun A wait evs) with
  | None => Timer.pending (debounceTimers (debounceRun A wait evs)) = []
  | Some h =>
      exists a,
        Timer.pending (debounceTimers (debounceRun A wait evs)) = [(h, (a, wait))]
  end.
Proof.
  pose proof (debounceRun_inv evs) as H. unfold debounceInv in H.
  destruct (timeout (debounceRun A wait evs)); exact H.
Qed.

Lemma fold_calls (burst : list A) :
  forall (a : A) (st : debounceState A),
    debounceInv wait st ->
    exists h,
      timeout (fold_left (debounceStep A wait) (map DCall (burst ++ [a])) st)
      = Some h
      /\ Timer.pending
           (debounceTimers
              (fold_left (debounceStep A wait) (map DCall (burst ++ [a])) st))
         = [(h, (a, wait))]
      /\ debounceInvoked
           (fold_left (debounceStep A wait) (map DCall (burst ++ [a])) st)
         = debounceInvoked st.
Proof.
  induction burst as [|b burst IH]; intros a st H.
  - cbn [app map fold_left debounceStep]. now apply debounced_after.
  - cbn [app map fold_left debounceStep].
    destruct (debounced_after b st H) as (h0 & _ & _ & Hi).
    destruct (IH a (debounced A wait b st)) as (h & Ht & Hp & Hi').
    + apply (debounceStep_inv st (DCall b) H).
    + exists h. repeat split; assumption.
Qed.

(** X19: a call never invokes [func] itself.  After a burst of calls one
    timer is pending; when it runs, [later] sets [timeout] to null, so that
    no timer is pending, and then invokes [func], once, with the [this] and
    arguments of the last call of the burst.  The call of [func] is the
    last statement of [later]: the calls [func] makes of the debounced
    function while it runs are the calls that follow the timer in the run.
    They do not invoke [func] either, and leave one timer pending, for the
    last of them. *)
Theorem debounce_last_call_wins
  (evs : list (debounceEvent A)) (burst : list A) (a : A)
  (back : list A) (c : A) :
  exists h,
    timeout (debounceRun A wait (evs ++ map DCall (burst ++ [a]))) = Some h
    /\ debounceInvoked (debounceRun A wait (evs ++ map DCall (burst ++ [a])))
       = debounceInvoked (debounceRun A wait evs)
    /\ debounceInvoked
         (debounceRun A wait (evs ++ map DCall (burst ++ [a]) ++ [DFire h]))
       = debounceInvoked (debounceRun A wait evs) ++ [a]
    /\ timeout (debounceRun A wait (evs ++ map DCall (burst ++ [a]) ++ [DFire h]))
       = None
    /\ Timer.pending
         (debounceTimers
            (debounceRun A wait (evs ++ map DCall (burst ++ [a]) ++ [DFire h])))
       = []
    /\ debounceInvoked
         (debounceRun A wait
            (evs ++ map DCall (burst ++ [a]) ++ [DFire h]
                 ++ map DCall (back ++ [c])))
       = debounceInvoked (debounceRun A wait evs) ++ [a]
    /\ exists h',
        timeout
          (debounceRun A wait
             (evs ++ map DCall (burst ++ [a]) ++ [DFire h]
                  ++ map DCall (back ++ [c])))
        = Some h'
        /\ Timer.pending
             (debounceTimers
                (debounceRun A wait
                   (evs ++ map DCall (burst ++ [a]) ++ [DFire h]
                        ++ map DCall (back ++ [c]))))
           = [(h', (c, wait))].
Proof.
  unfold debounceRun. rewrite !fold_left_app.
  assert (Hinit : debounceInv wait (debounceInit A)) by reflexivity.
  pose proof (fold_debounce_inv evs _ Hinit) as Hevs.
  destruct (fold_calls burst a _ Hevs) as (h & Ht & Hp & Hi).
  exists h. rewrite !fold_left_app. split; [exact Ht|]. split; [exact Hi|].
  pose proof (fold_debounce_inv (map DCall (burst ++ [a])) _ Hevs) as Hburst.
  pose proof (debounceStep_inv _ (DFire h) Hburst) as Hfire.
  destruct (fold_calls back c _ Hfire) as (h' & Ht' & Hp' & Hi').
  assert (Hrun :
    debounceInvoked
      (debounceStep A wait
         (fold_left (debounceStep A wait) (map DCall (burst ++ [a]))
            (fold_left (debounceStep A wait) evs (debounceInit A)))
         (DFire h))
    = debounceInvoked (fold_left (debounceStep A wait) evs (debounceInit A))
      ++ [a]
    /\ timeout
         (debounceStep A wait
            (fold_left (debounceStep A wait) (map DCall (burst ++ [a]))
               (fold_left (debounceStep A wait) evs (debounceInit A)))
            (DFire h))
       = None
    /\ Timer.pending
         (debounceTimers
            (debounceStep A wait
               (fold_left (debounceStep A wait) (map DCall (burst ++ [a]))
                  (fold_left (debounceStep A wait) evs (debounceInit A)))
               (DFire h)))
       = []).
  { cbn [debounceStep]. unfold Timer.take. rewrite Hp.
    cbn [find fst]. rewrite Nat.eqb_refl. cbn.
    rewrite Hi, Hp. cbn. rewrite Nat.eqb_refl. cbn. repeat split. }
  destruct Hrun as (Hri & Hrt & Hrp).
  cbn [fold_left] in *.
  split; [exact Hri|]. split; [exact Hrt|]. split; [exact Hrp|].
  split.
  - rewrite Hi'. exact Hri.
  - exists h'. split; assumption.
Qed.

End DebounceFacts.

Section ThrottleFacts.

Variable A : Type.
Variable limit : nat.

Lemma call_nested_ind (P : call A -> Prop) :
  (forall a callBacks returns,
      Forall P callBacks -> P (Call a callBacks returns)) ->
  forall c, P c.
Proof.
  intros H. fix IH 1. intros [a cs r]. apply H.
  induction cs as [|c cs IHcs]; constructor; [apply IH | exact IHcs].
Qed.

(** The calls [func] makes, one after the other. *)
Lemma throttled_unfold (a : A) (callBacks : list (call A)) (returns : bool)
  (st : throttleState A) :
  throttled A limit (Call a callBacks returns) st
  = if negb (inThrottle st) then
      let st' :=
        fold_left (fun s c => snd (throttled A limit c s)) callBacks
          {| inThrottle := inThrottle st; throttleTimers := throttleTimers st;
             throttleInvoked := throttleInvoked st ++ [(a, returns)] |} in
      if returns then
        (Normal tt,
         {| inThrottle := true;
            throttleTimers := snd (Timer.setTimeout tt limit (throttleTimers st'));
            throttleInvoked := throttleInvoked st' |})
      else (Throw, st')
    else (Normal tt, st).
Proof.
  cbn [throttled]. destruct (negb (inThrottle st)); [|reflexivity].
  assert (E : forall cs s,
             (fix func (cs : list (call A)) (s : throttleState A)
                {struct cs} : throttleState A :=
                match cs with
                | [] => s
                | c' :: cs' => func cs' (snd (throttled A limit c' s))
                end) cs s
             = fold_left (fun s c => snd (throttled A limit c s)) cs s).
  { induction cs as [|c cs IH]; intros s; [reflexivity|]. cbn [fold_left].
    apply IH. }
  rewrite E. reflexivity.
Qed.

Lemma throttled_closed (c : call A) (st : throttleState A) :
  inThrottle st = true -> throttled A limit c st = (Normal tt, st).
Proof. intros H. destruct c. cbn [throttled]. now rewrite H. Qed.


Lemma filter_handle_length (h : Timer.handle) (l : list (Timer.handle * (unit * nat))) :
  NoDup (map fst l) ->
  length l <= S (length (filter (fun p => negb (fst p =? h)) l)).
Proof.
  unfold Timer.handle in *.
  induction l as [|p l IH]; intros H; [cbn; lia|].
  cbn [map] in H. apply NoDup_cons_iff in H as [Hp Hl].
  cbn [filter length].
  match goal with |- context [negb ?b] => destruct b eqn:E end;
    cbn [negb length].
  - apply Nat.eqb_eq in E. rewrite E in Hp.
    assert (G : filter (fun q => negb (fst q =? h)) l = l); [|rewrite G; lia].
    clear IH Hl. induction l as [|q l IH]; [reflexivity|].
    cbn [filter]. destruct (fst q =? h) eqn:Eq; cbn [negb].
    + apply Nat.eqb_eq in Eq. exfalso. apply Hp. left. exact Eq.
    + f_equal. apply IH. intros Hin. apply Hp. now right.
  - specialize (IH Hl). lia.
Qed.

Lemma NoDup_filter_handle (f : Timer.handle * (unit * nat) -> bool)
  (l : list (Timer.handle * (unit * nat))) :
  NoDup (map fst l) -> NoDup (map fst (filter f l)).
Proof.
  induction l as [|p l IH]; intros Hn; [constructor|].
  cbn [map] in Hn. apply NoDup_cons_iff in Hn as [Hp Hl].
  cbn [filter]. destruct (f p); [|now apply IH].
  cbn [map]. constructor; [|now apply IH].
  intros Hin. apply Hp. apply in_map_iff in Hin as (q & Hq & Hin).
  apply filter_In in Hin as [Hin _]. apply in_map_iff. now exists q.
Qed.

Lemma timersInv_fire (h : Timer.handle) (st : throttleState A) :
  timersInv st ->
  timersInv (throttleStep A limit st (TFire h))
  /\ length (Timer.pending (throttleTimers (throttleStep A limit st (TFire h))))
     <= length (Timer.pending (throttleTimers st))
  /\ length (Timer.pending (throttleTimers st))
     <= S (length (Timer.pending (throttleTimers (throttleStep A limit st (TFire h)))))
  /\ throttleInvoked (throttleStep A limit st (TFire h)) = throttleInvoked st.
Proof.
  intros (Hn & Hf & Ht). cbn [throttleStep]. unfold Timer.take.
  destruct (find _ _) as [[h0 [u d]]|].
  - unfold timersInv.
    cbn [throttleTimers throttleInvoked inThrottle Timer.clearTimeout
           Timer.pending Timer.fresh].
    repeat split.
    + now apply NoDup_filter_handle.
    + apply Forall_forall. intros p Hin. apply filter_In in Hin as [Hin _].
      rewrite Forall_forall in Hf. now apply Hf.
    + discriminate.
    + apply filter_length_le.
    + now apply filter_handle_length.
  - repeat split; try assumption; lia.
Qed.

(** Every invocation of [func] that returns starts one timer, also inside
    another invocation. *)
Lemma throttled_account (c : call A) :
  forall st : throttleState A,
    timersInv st ->
    timersInv (snd (throttled A limit c st))
    /\ returned (snd (throttled A limit c st))
       + length (Timer.pending (throttleTimers st))
       = returned st
         + length (Timer.pending (throttleTimers (snd (throttled A limit c st)))).
Proof.
  induction c as [a cs r IH] using call_nested_ind. intros st Hst.
  rewrite throttled_unfold. destruct (inThrottle st) eqn:Et; cbn [negb].
  - cbn [snd]. split; [exact Hst | reflexivity].
  - set (st1 := {| inThrottle := false; throttleTimers := throttleTimers st;
                   throttleInvoked := throttleInvoked st ++ [(a, r)] |}).
    assert (H1 : timersInv st1).
    { destruct Hst as (Hn & Hf & _). repeat split; try assumption.
      discriminate. }
    assert (G : forall s,
               timersInv s ->
               timersInv (fold_left (fun s c => snd (throttled A limit c s)) cs s)
               /\ returned (fold_left (fun s c => snd (throttled A limit c s)) cs s)
                  + length (Timer.pending (throttleTimers s))
                  = returned s
                    + length (Timer.pending
                                (throttleTimers
                                   (fold_left (fun s c => snd (throttled A limit c s))
                                      cs s)))).
    { clear st Hst Et st1 H1. induction cs as [|c cs IHcs]; intros s Hs.
      - cbn. split; [exact Hs | reflexivity].
      - cbn [fold_left]. apply Forall_cons_iff in IH as [Hc Hcs].
        destruct (Hc s Hs) as [Hs1 He1].
        destruct (IHcs Hcs _ Hs1) as [Hs2 He2]. split; [exact Hs2 | lia]. }
    destruct (G st1 H1) as [H2 He]. cbv zeta.
    set (st2 := fold_left (fun s c => snd (throttled A limit c s)) cs st1) in *.
    assert (Hr : returned st1 = returned st + (if r then 1 else 0)).
    { unfold returned, st1. cbn [throttleInvoked].
      rewrite filter_app, length_app. destruct r; reflexivity. }
    cbn [throttleTimers st1] in He.
    destruct r; cbn [snd].
    + destruct H2 as (Hn & Hf & _). unfold Timer.setTimeout. cbn. split.
      * unfold timersInv. cbn. repeat split.
        -- rewrite map_app. cbn [map fst].
           apply NoDup_app; [exact Hn | constructor; [intros []|constructor] |].
           intros x Hx Hin. destruct Hin as [<-|[]].
           apply in_map_iff in Hx as (p & Hp & Hin).
           rewrite Forall_forall in Hf. specialize (Hf p Hin).
           cbn beta in Hf. unfold Timer.handle in *.
           rewrite Hp in Hf. exact (Nat.lt_irrefl _ Hf).
        -- apply Forall_app. split.
           ++ eapply Forall_impl; [|exact Hf]. cbn. intros p Hp. lia.
           ++ constructor; [cbn; lia | constructor].
        -- intros _ E. now apply app_eq_nil in E as [_ E].
      * unfold returned in *. cbn [throttleInvoked]. rewrite length_app.
        cbn [length]. lia.
    + split; [exact H2|]. lia.
Qed.

Lemma fold_account (evs : list (throttleEvent A)) :
  forall st : throttleState A,
    timersInv st ->
    timersInv (fold_left (throttleStep A limit) evs st)
    /\ length (Timer.pending (throttleTimers (fold_left (throttleStep A limit) evs st)))
       + returned st
       <= returned (fold_left (throttleStep A limit) evs st)
          + length (Timer.pending (throttleTimers st))
    /\ returned (fold_left (throttleStep A limit) evs st)
       + length (Timer.pending (throttleTimers st))
       <= returned st
          + length (Timer.pending
                      (throttleTimers (fold_left (throttleStep A limit) evs st)))
          + length (filter isTFire evs).
Proof.
  induction evs as [|ev evs IH]; intros st Hst.
  - cbn [fold_left filter length]. split; [exact Hst | split; lia].
  - cbn [fold_left filter]. destruct ev as [c|h].
    + cbn [throttleStep isTFire].
      destruct (throttled_account c st Hst) as [H1 He].
      destruct (IH _ H1) as (H2 & Hlo & Hhi). split; [exact H2|]. lia.
    + cbn [isTFire length].
      destruct (timersInv_fire h st Hst) as (H1 & Hle & Hge & Hi).
      destruct (IH _ H1) as (H2 & Hlo & Hhi). split; [exact H2|].
      unfold returned in *. rewrite Hi in *. lia.
Qed.

(** X24: whatever [func] does, also when it calls the throttled function
    back: while the function is throttled a timer is pending that will open
    it again, every pending timer was started by an invocation of [func]
    that returned, and the invocations that returned are at most the timers
    pending plus the timers that ran. *)
Theorem throttle_timers_account (evs : list (throttleEvent A)) :
  (inThrottle (throttleRun A limit evs) = true ->
   Timer.pending (throttleTimers (throttleRun A limit evs)) <> [])
  /\ length (Timer.pending (throttleTimers (throttleRun A limit evs)))
     <= returned (throttleRun A limit evs)
  /\ returned (throttleRun A limit evs)
     <= length (Timer.pending (throttleTimers (throttleRun A limit evs)))
        + length (filter isTFire evs).
Proof.
  assert (Hinit : timersInv (throttleInit A)).
  { repeat split; [constructor | constructor | discriminate]. }
  destruct (fold_account evs _ Hinit) as ((_ & _ & Ht) & Hlo & Hhi).
  unfold throttleRun. cbn in Hlo, Hhi. split; [exact Ht|]. lia.
Qed.

Lemma throttleStep_inv (st : throttleState A) (ev : throttleEvent A) :
  noCallBack ev = true ->
  throttleInv limit st ->
  throttleInv limit (throttleStep A limit st ev)
  /\ returned (throttleStep A limit st ev) + (if inThrottle st then 1 else 0)
     <= returned st + (if inThrottle (throttleStep A limit st ev) then 1 else 0)
        + (if isTFire ev then 1 else 0).
Proof.
  unfold throttleInv, returned. intros Hev H.
  destruct ev as [[a [|c cs] r]|h]; try discriminate Hev;
    cbn [throttleStep isTFire].
  - rewrite throttled_unfold. destruct (inThrottle st) eqn:Et; cbn [negb].
    + cbn [snd]. rewrite ?Et. split; [exact H | lia].
    + cbn [fold_left]. cbv zeta.
      destruct r; cbn [snd inThrottle throttleTimers throttleInvoked].
      * unfold Timer.setTimeout. cbn. rewrite H. cbn.
        split; [now eexists|].
        rewrite filter_app, length_app. cbn. lia.
      * split; [exact H|].
        rewrite filter_app, length_app. cbn. lia.
  - unfold Timer.take. destruct (inThrottle st) eqn:Et.
    + destruct H as [h0 H]. rewrite H. cbn [find fst].
      destruct (h0 =? h) eqn:E.
      * cbn. rewrite H. cbn. rewrite E. cbn. split; [reflexivity | lia].
      * rewrite ?Et. split; [now exists h0 | lia].
    + rewrite H. cbn [find]. rewrite ?Et. split; [exact H | lia].
Qed.

Lemma fold_throttle (evs : list (throttleEvent A)) :
  forallb noCallBack evs = true ->
  forall st,
    throttleInv limit st ->
    throttleInv limit (fold_left (throttleStep A limit) evs st)
    /\ returned (fold_left (throttleStep A limit) evs st)
       + (if inThrottle st then 1 else 0)
       <= returned st
          + (if inThrottle (fold_left (throttleStep A limit) evs st) then 1 else 0)
          + length (filter isTFire evs).
Proof.
  induction evs as [|ev evs IH]; intros Hevs st H.
  - cbn. split; [exact H | lia].
  - cbn [forallb] in Hevs. apply andb_true_iff in Hevs as [Hev Hevs].
    cbn [fold_left filter].
    destruct (throttleStep_inv st ev Hev H) as [H1 H2].
    destruct (IH Hevs _ H1) as [H3 H4]. split; [exact H3|].
    destruct (isTFire ev); cbn [length]; lia.
Qed.

(** X20: with a [func] that makes no call of the throttled function while
    it runs, the function is in its throttled state exactly while its one
    timer is pending, and the calls on which [func] returned are at most
    one more than the timers that ran. *)
Theorem throttle_rate (evs : list (throttleEvent A)) :
  forallb noCallBack evs = true ->
  (if inThrottle (throttleRun A limit evs)
   then exists h,
       Timer.pending (throttleTimers (throttleRun A limit evs)) = [(h, (tt, limit))]
   else Timer.pending (throttleTimers (throttleRun A limit evs)) = [])
  /\ length (filter snd (throttleInvoked (throttleRun A limit evs)))
     <= S (length (filter isTFire evs)).
Proof.
  intros Hevs.
  assert (Hinit : throttleInv limit (throttleInit A)) by reflexivity.
  destruct (fold_throttle evs Hevs (throttleInit A) Hinit) as [H1 H2].
  split; [exact H1|].
  unfold returned in H2. cbn in H2. unfold throttleRun.
  destruct (inThrottle (fold_left (throttleStep A limit) evs (throttleInit A)));
    lia.
Qed.

(** X21: [func] runs before the state is set.  On a call made while the
    function is open: when [func] throws without having called the
    throttled function, the function stays open and the next call invokes
    [func] again; when [func] returns, the function is closed and the next
    call is dropped; when [func] throws after a call of the throttled
    function on which it returned, that inner call has closed the function
    and the next call is dropped as well. *)
Theorem throttle_throw_leaves_open
  (evs : list (throttleEvent A)) (a b c : A) (r : bool)
  (back : list (call A)) :
  inThrottle (throttleRun A limit evs) = false ->
  throttleInvoked
    (throttleRun A limit (evs ++ [TCall (Call a [] false); TCall (Call b [] r)]))
  = throttleInvoked (throttleRun A limit evs) ++ [(a, false); (b, r)]
  /\ throttleInvoked
       (throttleRun A limit (evs ++ [TCall (Call a [] true); TCall (Call b back r)]))
     = throttleInvoked (throttleRun A limit evs) ++ [(a, true)]
  /\ throttleInvoked
       (throttleRun A limit
          (evs ++ [TCall (Call a [Call c [] true] false); TCall (Call b back r)]))
     = throttleInvoked (throttleRun A limit evs) ++ [(a, false); (c, true)].
Proof.
  unfold throttleRun. intros H. rewrite !fold_left_app.
  destruct (fold_left (throttleStep A limit) evs (throttleInit A))
    as [t ts invoked].
  cbn [inThrottle] in H. subst t.
  cbn [fold_left throttleStep]. rewrite !throttled_unfold. cbn.
  split; [|split].
  - destruct r; cbn; now rewrite <- app_assoc.
  - reflexivity.
  - now rewrite <- app_assoc.
Qed.

End ThrottleFacts.

Lemma throttle_rate_witness :
  (exists h,
      Timer.pending
        (throttleTimers
           (throttleRun nat 100
              [TCall (Call 1 [] true); TCall (Call 2 [] true); TFire 0;
               TCall (Call 3 [] false); TCall (Call 4 [] true)]))
      = [(h, (tt, 100))])
  /\ length
       (filter snd
          (throttleInvoked
             (throttleRun nat 100
                [TCall (Call 1 [] true); TCall (Call 2 [] true); TFire 0;
                 TCall (Call 3 [] false); TCall (Call 4 [] true)])))
     <= 2.
Proof.
  exact (throttle_rate nat 100
           [TCall (Call 1 [] true); TCall (Call 2 [] true); TFire 0;
            TCall (Call 3 [] false); TCall (Call 4 [] true)] eq_refl).
Defined.

(** A [func] that calls the throttled function back, as in
    [t = throttle(n => { if (n > 0) t(n - 1) }, limit); t(1)]: the inner
    call finds the function open, so [func] returns twice before any timer
    has run, and two timers are pending. *)
Example throttle_call_back :
  throttleInvoked (throttleRun nat 100 [TCall (Call 1 [Call 0 [] true] true)])
  = [(1, true); (0, true)]
  /\ Timer.pending
       (throttleTimers
          (throttleRun nat 100 [TCall (Call 1 [Call 0 [] true] true)]))
     = [(0, (tt, 100)); (1, (tt, 100))]
  /\ inThrottle (throttleRun nat 100 [TCall (Call 1 [Call 0 [] true] true)])
     = true.
Proof. repeat split. Qed.

Lemma throttle_throw_leaves_open_witness :
  throttleInvoked
    (throttleRun nat 100
       [TCall (Call 1 [] true); TFire 0;
        TCall (Call 2 [] false); TCall (Call 3 [] true)])
  = [(1, true); (2, false); (3, true)]
  /\ throttleInvoked
       (throttleRun nat 100
          [TCall (Call 1 [] true); TFire 0;
           TCall (Call 2 [] true); TCall (Call 3 [Call 5 [] true] true)])
     = [(1, true); (2, true)]
  /\ throttleInvoked
       (throttleRun nat 100
          [TCall (Call 1 [] true); TFire 0;
           TCall (Call 2 [Call 4 [] true] false);
           TCall (Call 3 [Call 5 [] true] true)])
     = [(1, true); (2, false); (4, true)].
Proof.
  exact (throttle_throw_leaves_open nat 100
           [TCall (Call 1 [] true); TFire 0] 2 3 4 true [Call 5 [] true]
           eq_refl).
Defined.

(** ** Nonces *)

Section NonceFacts.

(** Quotient and remainder of a byte, as unknowns with their equations. *)
Ltac euclid a n :=
  pose proof (N.div_mod a n ltac:(discriminate));
  pose proof (N.mod_lt a n ltac:(discriminate));
  let q := fresh "q" in
  let r := fresh "r" in
  set (q := (a / n)%N) in *; set (r := (a mod n)%N) in *;
  clearbody q r.

Lemma base64Index_nth (k : nat) :
  k < 64 -> base64Index (nth k base64Alphabet PAD) base64Alphabet = k.
Proof.
  intros H. do 64 (destruct k as [|k]; [reflexivity|]). lia.
Qed.

Lemma base64Char_inj (i j : N) :
  (i < 64)%N -> (j < 64)%N -> base64Char i = base64Char j -> i = j.
Proof.
  intros Hi Hj H. apply N2Nat.inj.
  rewrite <- (base64Index_nth (N.to_nat i)) by lia.
  rewrite <- (base64Index_nth (N.to_nat j)) by lia.
  unfold base64Char in H. now rewrite H.
Qed.

Lemma base64Char_ok (i : N) : (i < 64)%N -> isBase64Char (base64Char i) = true.
Proof.
  intros H. unfold isBase64Char. apply existsb_exists.
  exists (base64Char i). split; [|apply N.eqb_refl].
  apply nth_In. change (length base64Alphabet) with 64. lia.
Qed.

Lemma byte_inj (x y : Byte.byte) : Byte.to_N x = Byte.to_N y -> x = y.
Proof.
  intros H. pose proof (Byte.of_to_N x) as Hx. rewrite H, Byte.of_to_N in Hx.
  now injection Hx.
Qed.

(** The four characters of three bytes are characters of the alphabet. *)
Lemma group_ok (x y z : Byte.byte) :
  let a := Byte.to_N x in
  let b := Byte.to_N y in
  let c := Byte.to_N z in
  (a / 4 < 64 /\ (a mod 4) * 16 + b / 16 < 64
   /\ (b mod 16) * 4 + c / 64 < 64 /\ c mod 64 < 64)%N.
Proof.
  intros a b c.
  pose proof (Byte.to_N_bounded x). pose proof (Byte.to_N_bounded y).
  pose proof (Byte.to_N_bounded z). fold a in H. fold b in H0. fold c in H1.
  clearbody a b c.
  euclid a 4%N. euclid b 16%N. euclid c 64%N. lia.
Qed.

(** The four characters of three bytes tell the three bytes. *)
Lemma group_inj (x y z x' y' z' : Byte.byte) :
  (base64Char (Byte.to_N x / 4) = base64Char (Byte.to_N x' / 4) ->
   base64Char ((Byte.to_N x mod 4) * 16 + Byte.to_N y / 16)
   = base64Char ((Byte.to_N x' mod 4) * 16 + Byte.to_N y' / 16) ->
   base64Char ((Byte.to_N y mod 16) * 4 + Byte.to_N z / 64)
   = base64Char ((Byte.to_N y' mod 16) * 4 + Byte.to_N z' / 64) ->
   base64Char (Byte.to_N z mod 64) = base64Char (Byte.to_N z' mod 64) ->
   x = x' /\ y = y' /\ z = z')%N.
Proof.
  intros H1 H2 H3 H4.
  destruct (group_ok x y z) as (B1 & B2 & B3 & B4).
  destruct (group_ok x' y' z') as (B1' & B2' & B3' & B4').
  apply base64Char_inj in H1; [|assumption..].
  apply base64Char_inj in H2; [|assumption..].
  apply base64Char_inj in H3; [|assumption..].
  apply base64Char_inj in H4; [|assumption..].
  clear B1 B2 B3 B4 B1' B2' B3' B4'.
  pose proof (Byte.to_N_bounded x). pose proof (Byte.to_N_bounded y).
  pose proof (Byte.to_N_bounded z). pose proof (Byte.to_N_bounded x').
  pose proof (Byte.to_N_bounded y'). pose proof (Byte.to_N_bounded z').
  assert (E : Byte.to_N x = Byte.to_N x' /\ Byte.to_N y = Byte.to_N y'
              /\ Byte.to_N z = Byte.to_N z').
  { set (a := Byte.to_N x) in *. set (b := Byte.to_N y) in *.
    set (c := Byte.to_N z) in *. set (a' := Byte.to_N x') in *.
    set (b' := Byte.to_N y') in *. set (c' := Byte.to_N z') in *.
    clearbody a b c a' b' c'.
    euclid a 4%N. euclid b 16%N. euclid c 64%N.
    euclid a' 4%N. euclid b' 16%N. euclid c' 64%N. lia. }
  destruct E as (E1 & E2 & E3).
  repeat split; now apply byte_inj.
Qed.

(** The two characters of a last byte tell it. *)
Lemma last_inj (x x' : Byte.byte) :
  (base64Char (Byte.to_N x / 4) = base64Char (Byte.to_N x' / 4) ->
   base64Char ((Byte.to_N x mod 4) * 16) = base64Char ((Byte.to_N x' mod 4) * 16) ->
   x = x')%N.
Proof.
  intros H1 H2.
  pose proof (Byte.to_N_bounded x). pose proof (Byte.to_N_bounded x').
  apply byte_inj.
  set (a := Byte.to_N x) in *. set (a' := Byte.to_N x') in *. clearbody a a'.
  assert (B : (a / 4 < 64 /\ (a mod 4) * 16 < 64
               /\ a' / 4 < 64 /\ (a' mod 4) * 16 < 64)%N).
  { euclid a 4%N. euclid a' 4%N. lia. }
  destruct B as (B1 & B2 & B3 & B4).
  apply base64Char_inj in H1; [|assumption..].
  apply base64Char_inj in H2; [|assumption..].
  euclid a 4%N. euclid a' 4%N. lia.
Qed.

Lemma last_ok (x : Byte.byte) :
  (Byte.to_N x / 4 < 64 /\ (Byte.to_N x mod 4) * 16 < 64)%N.
Proof.
  pose proof (Byte.to_N_bounded x).
  set (a := Byte.to_N x) in *. clearbody a. euclid a 4%N. lia.
Qed.

Variable randomBytes : nat -> list Byte.byte.

(** X22: given its 16 random bytes, the nonce has 24 characters: 22 of the
    base64 alphabet, then "==". *)
Theorem getNonce_shape :
  length (randomBytes 16) = 16 ->
  length (getNonce randomBytes) = 24
  /\ forallb isBase64Char (firstn 22 (getNonce randomBytes)) = true
  /\ skipn 22 (getNonce randomBytes) = [PAD; PAD].
Proof.
  unfold getNonce. intros H.
  destruct (randomBytes 16) as [|x1 [|x2 [|x3 [|x4 [|x5 [|x6 [|x7 [|x8 [|x9
    [|x10 [|x11 [|x12 [|x13 [|x14 [|x15 [|x16 [|x17 l]]]]]]]]]]]]]]]]];
    try discriminate H.
  repeat split.
  cbn [toBase64 firstn forallb].
  destruct (group_ok x1 x2 x3) as (A1 & A2 & A3 & A4).
  destruct (group_ok x4 x5 x6) as (B1 & B2 & B3 & B4).
  destruct (group_ok x7 x8 x9) as (C1 & C2 & C3 & C4).
  destruct (group_ok x10 x11 x12) as (D1 & D2 & D3 & D4).
  destruct (group_ok x13 x14 x15) as (E1 & E2 & E3 & E4).
  destruct (last_ok x16) as (F1 & F2).
  rewrite !base64Char_ok by assumption. reflexivity.
Qed.

End NonceFacts.

(** X23: nonces are equal only when the random bytes are: printing loses
    none of the 128 random bits. *)
Theorem getNonce_injective (randomBytes1 randomBytes2 : nat -> list Byte.byte) :
  length (randomBytes1 16) = 16 -> length (randomBytes2 16) = 16 ->
  getNonce randomBytes1 = getNonce randomBytes2 ->
  randomBytes1 16 = randomBytes2 16.
Proof.
  unfold getNonce. intros H1 H2 E.
  destruct (randomBytes1 16) as [|x1 [|x2 [|x3 [|x4 [|x5 [|x6 [|x7 [|x8 [|x9
    [|x10 [|x11 [|x12 [|x13 [|x14 [|x15 [|x16 [|x17 l]]]]]]]]]]]]]]]]];
    try discriminate H1.
  destruct (randomBytes2 16) as [|y1 [|y2 [|y3 [|y4 [|y5 [|y6 [|y7 [|y8 [|y9
    [|y10 [|y11 [|y12 [|y13 [|y14 [|y15 [|y16 [|y17 l]]]]]]]]]]]]]]]]];
    try discriminate H2.
  cbn [toBase64] in E.
  injection E as E1 E2 E3 E4 E5 E6 E7 E8 E9 E10 E11 E12 E13 E14 E15 E16 E17
    E18 E19 E20 E21 E22.
  destruct (group_inj _ _ _ _ _ _ E1 E2 E3 E4) as (-> & -> & ->).
  destruct (group_inj _ _ _ _ _ _ E5 E6 E7 E8) as (-> & -> & ->).
  destruct (group_inj _ _ _ _ _ _ E9 E10 E11 E12) as (-> & -> & ->).
  destruct (group_inj _ _ _ _ _ _ E13 E14 E15 E16) as (-> & -> & ->).
  destruct (group_inj _ _ _ _ _ _ E17 E18 E19 E20) as (-> & -> & ->).
  now rewrite (last_inj _ _ E21 E22).
Qed.

Lemma getNonce_shape_witness :
  length (getNonce (constantBytes Byte.xff)) = 24
  /\ forallb isBase64Char (firstn 22 (getNonce (constantBytes Byte.xff))) = true
  /\ skipn 22 (getNonce (constantBytes Byte.xff)) = [PAD; PAD].
Proof. exact (getNonce_shape (constantBytes Byte.xff) eq_refl). Defined.

Lemma getNonce_injective_witness :
  constantBytes Byte.x2a 16 = repeat Byte.x2a 16.
Proof.
  exact (getNonce_injective (constantBytes Byte.x2a) (fun n => repeat Byte.x2a n)
           eq_refl eq_refl eq_refl).
Defined.

(** ** The greatest length of a string *)

Section EngineLimit.

Variable maxLength : nat.
Variable sanitizePath : str -> str.

(** *** Lengths *)

Lemma newString_fits (s : str) :
  length s <= maxLength -> Bounded.newString maxLength s = Normal s.
Proof.
  intros H. unfold Bounded.newString.
  now rewrite (proj2 (Nat.leb_le _ _) H).
Qed.

Lemma newString_over (s : str) :
  maxLength < length s -> Bounded.newString maxLength s = Throw.
Proof.
  intros H. unfold Bounded.newString.
  now rewrite (proj2 (Nat.leb_gt _ _) H).
Qed.

Lemma mapM_returns {X Y : Type} (f : X -> completion Y) (g : X -> Y)
  (l : list X) :
  (forall x, In x l -> f x = Normal (g x)) ->
  Bounded.mapM f l = Normal (map g l).
Proof.
  induction l as [|x l IH]; intros H; [reflexivity|].
  cbn [Bounded.mapM map]. rewrite (H x (or_introl eq_refl)). cbn [bind].
  rewrite IH; [reflexivity|]. intros y Hy. apply H. now right.
Qed.

Lemma mapM_id (l : list str) :
  (forall x, In x l -> length x <= maxLength) ->
  Bounded.mapM (Bounded.newString maxLength) l = Normal l.
Proof.
  intros H. rewrite (mapM_returns _ (fun x => x)); [now rewrite map_id|].
  intros x Hx. now apply newString_fits, H.
Qed.

Lemma filterM_returns {X : Type} (f : X -> completion bool) (g : X -> bool)
  (l : list X) :
  (forall x, In x l -> f x = Normal (g x)) ->
  Bounded.filterM f l = Normal (filter g l).
Proof.
  induction l as [|x l IH]; intros H; [reflexivity|].
  cbn [Bounded.filterM filter]. rewrite (H x (or_introl eq_refl)). cbn [bind].
  rewrite IH; [reflexivity|]. intros y Hy. apply H. now right.
Qed.

Lemma join_weight (ls : list str) :
  ls <> [] -> S (length (Str.join ls)) = weight ls.
Proof.
  induction ls as [|l ls IH]; [congruence|]. intros _.
  destruct ls as [|l' ls].
  - cbn. lia.
  - specialize (IH ltac:(discriminate)).
    rewrite join_cons by discriminate. rewrite length_app.
    cbn [weight] in IH. cbn [length weight]. lia.
Qed.

Lemma split_weight (s : str) : weight (Str.split s) = S (length s).
Proof.
  rewrite <- join_weight by apply split_nonempty. now rewrite join_split.
Qed.

Lemma weight_in (l : str) (ls : list str) :
  In l ls -> S (length l) <= weight ls.
Proof.
  induction ls as [|x ls IH]; intros []; cbn [weight].
  - subst. lia.
  - specialize (IH H). lia.
Qed.

Lemma weight_length (ls : list str) : length ls <= weight ls.
Proof.
  induction ls as [|x ls IH]; cbn [weight length]; lia.
Qed.

Lemma split_piece (s l : str) : In l (Str.split s) -> length l <= length s.
Proof.
  intros H. apply weight_in in H. rewrite split_weight in H. lia.
Qed.

Lemma split_count (s : str) : length (Str.split s) <= S (length s).
Proof. rewrite <- split_weight. apply weight_length. Qed.

Lemma trimStart_length (s : str) : length (Str.trimStart s) <= length s.
Proof.
  induction s as [|c s IH]; [apply Nat.le_refl|]. cbn [Str.trimStart].
  destruct (Char.isWhiteSpace c); cbn [length]; lia.
Qed.

Lemma trim_length (s : str) : length (Str.trim s) <= length s.
Proof.
  unfold Str.trim, Str.trimEnd. rewrite length_rev.
  etransitivity; [apply trimStart_length|]. rewrite length_rev.
  apply trimStart_length.
Qed.

Lemma split_returns (s : str) :
  length s <= maxLength -> Bounded.split maxLength s = Normal (Str.split s).
Proof.
  intros H. apply mapM_id. intros l Hl. apply split_piece in Hl. lia.
Qed.

Lemma trim_returns (s : str) :
  length s <= maxLength -> Bounded.trim maxLength s = Normal (Str.trim s).
Proof.
  intros H. apply newString_fits. pose proof (trim_length s). lia.
Qed.

(** *** The Line-Ending Normalizer *)

Lemma toLF_length_bounded (n : nat) :
  forall s, length s <= n -> length (toLF s) <= length s.
Proof.
  induction n as [|n IH]; intros s Hn.
  - destruct s; [apply Nat.le_refl | cbn [length] in Hn; lia].
  - destruct s as [|c s]; [apply Nat.le_refl|]. cbn [length] in Hn.
    destruct (text_shape c s) as [[-> [s' ->]] | [[-> H] | H]].
    + rewrite toLF_CRLF. cbn [length] in *.
      specialize (IH s' ltac:(lia)). lia.
    + rewrite toLF_CR by exact H. cbn [length].
      specialize (IH s ltac:(lia)). lia.
    + rewrite toLF_other by exact H. cbn [length].
      specialize (IH s ltac:(lia)). lia.
Qed.

Lemma normalizeLineEndings_length (text : str) :
  length (normalizeLineEndings text) <= length text.
Proof.
  rewrite normalizeLineEndings_toLF.
  now apply (toLF_length_bounded (length text)).
Qed.

Lemma normalizeLineEndings_returns (text : str) :
  length text <= maxLength ->
  Bounded.normalizeLineEndings maxLength text
  = Normal (normalizeLineEndings text).
Proof.
  intros H. apply newString_fits.
  pose proof (normalizeLineEndings_length text). lia.
Qed.

(** *** The Context-Space Repairer *)

Lemma weight_map_le (f : str -> str) (ls : list str) :
  (forall l, length (f l) <= S (length l)) ->
  weight (map f ls) <= weight ls + length ls.
Proof.
  intros H.
  induction ls as [|l ls IH]; cbn [map weight length]; [lia|].
  specialize (H l). lia.
Qed.

Lemma fixLine_length (l : str) : length (fixLine l) <= S (length l).
Proof.
  unfold fixLine. destruct (hasMarker l || isBlank l); cbn [length]; lia.
Qed.

Lemma autoFixSpaces_length (text : str) :
  length (autoFixSpaces text) <= 2 * length text + 1.
Proof.
  rewrite autoFixSpaces_fixLine.
  assert (H : S (length (Str.join (map fixLine (Str.split text))))
              <= weight (Str.split text) + length (Str.split text)).
  { rewrite join_weight.
    - apply weight_map_le, fixLine_length.
    - pose proof (split_nonempty text).
      destruct (Str.split text); [congruence | discriminate]. }
  rewrite split_weight in H. pose proof (split_count text). lia.
Qed.

Lemma autoFixSpaces_returns (text : str) :
  2 * length text + 1 <= maxLength ->
  Bounded.autoFixSpaces maxLength text = Normal (autoFixSpaces text).
Proof.
  intros H. unfold Bounded.autoFixSpaces.
  rewrite split_returns by lia. cbn [bind].
  rewrite (mapM_returns _
             (fun line =>
                if negb (isEmpty (Str.trim line))
                   && negb (test Pattern.marker line)
                then SP :: line else line)).
  - cbn [bind]. apply newString_fits.
    eapply Nat.le_trans; [exact (autoFixSpaces_length text) | lia].
  - intros line Hl. apply split_piece in Hl.
    rewrite trim_returns by lia. cbn [bind].
    destruct (negb (isEmpty (Str.trim line)) && negb (test Pattern.marker line));
      [|reflexivity].
    apply newString_fits. cbn [length]. lia.
Qed.

(** *** Match arrays *)

Ltac lengths :=
  repeat (progress (rewrite ?length_app; cbn [length]));
  repeat match goal with
    | |- context [length (lit ?s)] =>
        let n := eval vm_compute in (length (lit s)) in
        change (length (lit s)) with n
    end;
  cbn [length].

Ltac lengths_in H :=
  repeat (progress (rewrite ?length_app in H; cbn [length] in H));
  repeat match type of H with
    | context [length (lit ?s)] =>
        let n := eval vm_compute in (length (lit s)) in
        change (length (lit s)) with n in H
    end;
  cbn [length] in H.

Lemma exec_returns (r : regex) (s : str) :
  (forall m, exec r s = Some m ->
             Forall (fun entry => length (snd entry) <= maxLength) m) ->
  Bounded.exec maxLength r s = Normal (exec r s).
Proof.
  intros H. unfold Bounded.exec. destruct (exec r s) as [m|]; [|reflexivity].
  specialize (H m eq_refl).
  rewrite (mapM_returns _ (fun entry => entry)).
  - cbn [bind]. now rewrite map_id.
  - intros [n g] Hin. rewrite Forall_forall in H. specialize (H _ Hin).
    cbn [fst snd] in *. now rewrite newString_fits.
Qed.

Lemma newFilePath_exec_inv (s : str) (m : captures) :
  exec Pattern.newFilePath s = Some m ->
  exists before path after k,
    s = before ++ lit "+++ b/" ++ path ++ after
    /\ m = [(0, firstn k (lit "+++ b/" ++ path ++ after)); (1, path)].
Proof.
  intros E. apply execFrom_inv_caps in E as (a & b & e & cs & -> & E & ->).
  unfold Pattern.newFilePath in E. rewrite rmatch_seq in E.
  apply rmatch_lit_inv in E as (s' & -> & E).
  apply grp_plus_inv in E as (path & s'' & -> & _ & _ & E).
  unfold accept in E. injection E as _ <-.
  now exists a, path, s'', (e - (0 + length a)).
Qed.

Lemma filePath_length (s : str) :
  length (filePath s) <= length s + 12.
Proof.
  unfold filePath. destruct (exec Pattern.newFilePath s) as [m|] eqn:E.
  - apply newFilePath_exec_inv in E as (before & path & after & k & -> & ->).
    cbn [group Nat.eqb template]. lengths. lia.
  - cbn. lia.
Qed.

Lemma newFilePath_returns (s : str) :
  length s <= maxLength ->
  Bounded.exec maxLength Pattern.newFilePath s
  = Normal (exec Pattern.newFilePath s).
Proof.
  intros H. apply exec_returns. intros m E.
  apply newFilePath_exec_inv in E as (before & path & after & k & -> & ->).
  lengths_in H. repeat constructor; cbn [snd].
  - rewrite length_firstn. lengths. lia.
  - lia.
Qed.

Lemma gitHeader_returns (s : str) :
  length s <= maxLength ->
  Bounded.exec maxLength Pattern.gitHeader s
  = Normal (exec Pattern.gitHeader s).
Proof.
  intros H. apply exec_returns. intros m E.
  apply gitHeader_exec_inv in E as (old & new & (-> & _ & _) & ->).
  lengths_in H. repeat constructor; cbn [snd]; lengths; lia.
Qed.

Lemma optCapture_fits (n : nat) (c : option str) (bound : nat) :
  length (countField c) <= bound ->
  Forall (fun entry : nat * str => length (snd entry) <= bound) (optCapture n c).
Proof.
  destruct c as [d|]; cbn [optCapture countField]; [|constructor].
  intros H. lengths_in H. repeat constructor. cbn [snd]. lia.
Qed.

Lemma hunkHeader_returns (s : str) :
  length s <= maxLength ->
  Bounded.exec maxLength Pattern.hunkHeader s
  = Normal (exec Pattern.hunkHeader s).
Proof.
  intros H. apply exec_returns. intros m E.
  apply hunkHeader_exec_inv in E
    as (os & oc & ns & nc & tr & E & _ & _ & _ & _ & _ & ->).
  rewrite E in H. unfold hunkHeaderText in H. lengths_in H.
  unfold hunkCaptures.
  constructor; [cbn [snd]; rewrite E; unfold hunkHeaderText; lengths; lia|].
  constructor; [cbn [snd]; lia|].
  apply Forall_app. split; [apply optCapture_fits; lia|].
  constructor; [cbn [snd]; lia|].
  apply Forall_app. split; [apply optCapture_fits; lia|].
  constructor; [cbn [snd]; lia | constructor].
Qed.

(** *** The Header Synthesizer *)

Lemma addMissingHeaders_returns (text : str) :
  5 * length text + 79 <= maxLength ->
  Bounded.addMissingHeaders maxLength text = Normal (addMissingHeaders text).
Proof.
  intros H. unfold Bounded.addMissingHeaders, addMissingHeaders.
  rewrite trim_returns by lia. cbn [bind].
  destruct (negb (Str.startsWith (lit "diff ") (Str.trim text))); [|reflexivity].
  rewrite newFilePath_returns by lia. cbn [bind].
  change (match exec Pattern.newFilePath text with
          | Some fileMatch => template (group 1 fileMatch)
          | None => lit "unknown-file"
          end) with (filePath text).
  pose proof (filePath_length text) as Hp.
  set (path := filePath text) in *. clearbody path.
  rewrite newString_fits by (lengths; lia). cbn [bind].
  rewrite newString_fits by (lengths; lia). cbn [bind].
  rewrite newString_fits by (lengths; lia). cbn [bind].
  unfold Bounded.join.
  rewrite newString_fits by (cbn [Str.join]; lengths; lia). cbn [bind].
  destruct (negb (Str.includes (lit "--- ") text)
            && negb (Str.includes (lit "+++ ") text)).
  - rewrite newString_fits by (cbn [Str.join]; lengths; lia). cbn [bind].
    rewrite newString_fits by (cbn [Str.join]; lengths; lia).
    f_equal. cbn [Str.join]. now rewrite <- !app_assoc.
  - destruct (negb (Str.includes (lit "--- ") text)
              && Str.includes (lit "+++ ") text); [|reflexivity].
    rewrite newString_fits by (lengths; lia). cbn [bind].
    rewrite newString_fits by (lengths; lia).
    f_equal. now rewrite <- !app_assoc.
Qed.

(** *** The Hunk-Header Recalculator *)

Lemma length_string_of_uint (u : Decimal.uint) :
  length (lit (NilEmpty.string_of_uint u)) = Decimal.nb_digits u.
Proof.
  induction u; cbn [NilEmpty.string_of_uint Decimal.nb_digits];
    [reflexivity | ..];
    unfold lit in *; cbn [list_ascii_of_string map length]; now rewrite IHu.
Qed.

Lemma nb_digits_succ (d : Decimal.uint) :
  Decimal.nb_digits (Decimal.Little.succ d) <= S (Decimal.nb_digits d).
Proof.
  induction d; cbn [Decimal.Little.succ Decimal.nb_digits]; lia.
Qed.

Lemma nb_digits_to_little_uint (n : nat) :
  forall acc,
    Decimal.nb_digits (Nat.to_little_uint n acc) <= n + Decimal.nb_digits acc.
Proof.
  induction n as [|n IH]; intros acc; cbn [Nat.to_little_uint]; [lia|].
  specialize (IH (Decimal.Little.succ acc)).
  pose proof (nb_digits_succ acc). lia.
Qed.

(** A count has at most as many digits as its value, and one for zero. *)
Lemma ofNat_length (n : nat) : length (Str.ofNat n) <= S n.
Proof.
  unfold Str.ofNat, NilZero.string_of_uint.
  assert (H : Decimal.nb_digits (Nat.to_uint n) <= S n).
  { unfold Nat.to_uint. rewrite nb_digits_rev.
    pose proof (nb_digits_to_little_uint n Decimal.zero) as H.
    cbn [Decimal.nb_digits] in H. lia. }
  destruct (Nat.to_uint n) eqn:E; [cbn; lia | ..];
    rewrite length_string_of_uint; exact H.
Qed.

Lemma lookAhead_acc (ls : list str) :
  forall o n,
    lookAhead ls o n
    = (o + fst (lookAhead ls 0 0), n + snd (lookAhead ls 0 0)).
Proof.
  induction ls as [|l ls IH]; intros o n; cbn [lookAhead].
  - cbn [fst snd]. now rewrite !Nat.add_0_r.
  - destruct (isStop l); [cbn [fst snd]; now rewrite !Nat.add_0_r|].
    destruct (isDeletion l).
    { rewrite (IH (S o) n), (IH 1 0). cbn [fst snd]. f_equal; lia. }
    destruct (isAddition l).
    { rewrite (IH o (S n)), (IH 0 1). cbn [fst snd]. f_equal; lia. }
    destruct (isContext l).
    { rewrite (IH (S o) (S n)), (IH 1 1). cbn [fst snd]. f_equal; lia. }
    apply IH.
Qed.

Lemma lookAhead_cons (l : str) (ls : list str) :
  fst (lookAhead (l :: ls) 0 0) + snd (lookAhead (l :: ls) 0 0)
  <= 2 + fst (lookAhead ls 0 0) + snd (lookAhead ls 0 0).
Proof.
  cbn [lookAhead]. destruct (isStop l); [cbn; lia|].
  destruct (isDeletion l); [rewrite (lookAhead_acc ls 1 0); cbn [fst snd]; lia|].
  destruct (isAddition l); [rewrite (lookAhead_acc ls 0 1); cbn [fst snd]; lia|].
  destruct (isContext l); [rewrite (lookAhead_acc ls 1 1); cbn [fst snd]; lia|].
  lia.
Qed.

(** The rewritten header is longer than the header by the two commas and
    the digits of the two counts at most. *)
Lemma hunkLine_length (line : str) (m : captures) (o n : nat) :
  exec Pattern.hunkHeader line = Some m ->
  length (hunkLine m o n) <= length line + 4 + o + n.
Proof.
  intros E. apply hunkHeader_exec_inv in E
    as (os & oc & ns & nc & tr & -> & _ & _ & _ & _ & _ & ->).
  rewrite hunkLine_hunkCaptures. unfold hunkHeaderText.
  cbn [countField]. lengths.
  pose proof (ofNat_length o). pose proof (ofNat_length n). lia.
Qed.

Lemma adjustLines_weight (ls : list str) :
  weight (adjustLines ls) + fst (lookAhead ls 0 0) + snd (lookAhead ls 0 0)
  <= weight ls + 6 * length ls.
Proof.
  induction ls as [|l ls IH]; [cbn; lia|].
  pose proof (lookAhead_cons l ls) as Hc.
  cbn [adjustLines]. destruct (exec Pattern.hunkHeader l) as [m|] eqn:E.
  - pose proof (hunkLine_length l m (fst (lookAhead ls 0 0))
                  (snd (lookAhead ls 0 0)) E) as Hl.
    assert (Hs : lookAhead (l :: ls) 0 0 = (0, 0)).
    { cbn [lookAhead]. now rewrite (exec_hunkHeader_stop l m E). }
    rewrite Hs. destruct (lookAhead ls 0 0) as [o n].
    cbn [fst snd weight length] in *. lia.
  - cbn [weight length]. lia.
Qed.

Lemma adjustLines_nonempty (ls : list str) : ls <> [] -> adjustLines ls <> [].
Proof.
  intros H E. apply (f_equal (@length str)) in E.
  rewrite adjustLines_length in E. destruct ls; [congruence | discriminate].
Qed.

Lemma adjustHunkHeaders_length (text : str) :
  length (Str.join (adjustLines (Str.split text))) <= 7 * length text + 6.
Proof.
  pose proof (adjustLines_weight (Str.split text)) as H.
  rewrite <- join_weight in H by apply adjustLines_nonempty, split_nonempty.
  rewrite split_weight in H. pose proof (split_count text). lia.
Qed.

Lemma in_skipn {X : Type} (x : X) (n : nat) (l : list X) :
  In x (skipn n l) -> In x l.
Proof.
  intros H. rewrite <- (firstn_skipn n l). apply in_or_app. now right.
Qed.

(** The loop of the bounded engine returns what the loop returns, as long
    as the lines and the rewritten lines are strings of the engine. *)
Lemma hunkLoop_returns (fuel : nat) (lines : list str) :
  (forall l, In l lines -> length l <= maxLength) ->
  (forall l, In l (adjustLines lines) -> length l <= maxLength) ->
  forall i result,
    length lines - i < fuel ->
    Bounded.hunkLoop maxLength fuel lines i result
    = Normal (result ++ adjustLines (skipn i lines)).
Proof.
  intros Hin Hout.
  induction fuel as [|fuel IH]; intros i result Hf; [lia|].
  cbn [Bounded.hunkLoop].
  destruct (i <? length lines) eqn:Hi.
  - apply Nat.ltb_lt in Hi.
    destruct (nth_error_in_range lines i Hi) as [line Hn].
    rewrite Hn, (skipn_nth_error _ _ _ Hn).
    rewrite hunkHeader_returns by (apply Hin; eapply nth_error_In; eassumption).
    cbn [bind adjustLines].
    destruct (exec Pattern.hunkHeader line) as [m|] eqn:E.
    + rewrite lookAheadLoop_lookAhead by lia.
      rewrite Nat.add_1_r.
      destruct (lookAhead (skipn (S i) lines) 0 0) as [o n] eqn:El.
      cbn [bind]. rewrite newString_fits.
      * cbn [bind]. rewrite IH by lia. now rewrite <- app_assoc.
      * apply Hout.
        clear IH. apply nth_error_split in Hn as (before & after & -> & <-).
        assert (Hsk : skipn (S (length before)) (before ++ line :: after)
                      = after).
        { replace (before ++ line :: after) with ((before ++ [line]) ++ after)
            by (now rewrite <- app_assoc).
          replace (S (length before)) with (length (before ++ [line]))
            by (rewrite length_app; cbn [length]; lia).
          now rewrite skipn_app, skipn_all, Nat.sub_diag. }
        rewrite Hsk in El. apply nth_error_In with (n := length before).
        now rewrite adjustLines_nth, E, El.
    + rewrite IH by lia. now rewrite <- app_assoc.
  - apply Nat.ltb_ge in Hi. now rewrite skipn_all2, app_nil_r.
Qed.

Lemma adjustHunkHeaders_returns (text : str) :
  7 * length text + 6 <= maxLength ->
  Bounded.adjustHunkHeaders maxLength text
  = Normal (Str.join (adjustLines (Str.split text))).
Proof.
  intros H. unfold Bounded.adjustHunkHeaders.
  rewrite split_returns by lia. cbn [bind].
  pose proof (adjustHunkHeaders_length text) as Hlen.
  rewrite hunkLoop_returns; [| |  | lia].
  - cbn [bind skipn app]. apply newString_fits. lia.
  - intros l Hl. apply split_piece in Hl. lia.
  - intros l Hl. apply weight_in in Hl.
    rewrite <- join_weight in Hl by apply adjustLines_nonempty, split_nonempty.
    lia.
Qed.

(** *** The stages in sequence, the classifier and the extractor *)

Lemma normalizeDiff_returns (text : str) :
  10 * length text + 84 <= maxLength ->
  Bounded.normalizeDiff maxLength text = Normal (normalizeDiff text).
Proof.
  intros H. unfold Bounded.normalizeDiff, normalizeDiff.
  pose proof (normalizeLineEndings_length text) as H1.
  pose proof (autoFixSpaces_length (normalizeLineEndings text)) as H2.
  rewrite normalizeLineEndings_returns by lia. cbn [bind].
  rewrite autoFixSpaces_returns by lia. cbn [bind].
  rewrite addMissingHeaders_returns by lia. reflexivity.
Qed.

Lemma isUnifiedDiff_returns (text : str) :
  length text <= maxLength ->
  Bounded.isUnifiedDiff maxLength text = Normal (isUnifiedDiff text).
Proof.
  intros H. unfold Bounded.isUnifiedDiff, isUnifiedDiff.
  destruct (isEmpty text); [reflexivity|]. cbn [orb].
  rewrite trim_returns by lia. cbn [bind].
  destruct (isEmpty (Str.trim text)); [reflexivity|].
  rewrite split_returns by lia. cbn [bind].
  rewrite (filterM_returns _
             (fun line => test Pattern.plusMinus (Str.trim line))).
  - reflexivity.
  - intros line Hl. apply split_piece in Hl.
    now rewrite trim_returns by lia.
Qed.

Lemma extractFileNamesFromHeader_returns (diffHeader : str) :
  length diffHeader <= maxLength ->
  Bounded.extractFileNamesFromHeader maxLength sanitizePath diffHeader
  = Normal (extractFileNamesFromHeader sanitizePath diffHeader).
Proof.
  intros H. unfold Bounded.extractFileNamesFromHeader, extractFileNamesFromHeader.
  rewrite gitHeader_returns by lia. cbn [bind].
  now destruct (exec Pattern.gitHeader diffHeader).
Qed.

(** C7, as amended: no stage throws on a string short enough for the
    strings the stage builds to be strings of the engine.  With [n] the
    length of the text and [maxLength] the greatest length of a string:
    the line-ending normalizer, the classifier and the extractor return
    when [n <= maxLength], the repairer when [2n + 1 <= maxLength], the
    synthesizer when [5n + 79 <= maxLength], the recalculator when
    [7n + 6 <= maxLength] and [normalizeDiff] when [10n + 84 <= maxLength];
    what they return is what the stage computes without the bound.  No
    line is rejected: the repairer leaves a line that starts with a
    recognized prefix or holds white space only as it is and puts one space
    before every other line, and the recalculator passes every line outside
    the header grammar through unmodified. *)
Theorem stages_return (text : str) :
  length text <= maxLength ->
  Bounded.normalizeLineEndings maxLength text
  = Normal (normalizeLineEndings text)
  /\ Bounded.isUnifiedDiff maxLength text = Normal (isUnifiedDiff text)
  /\ Bounded.extractFileNamesFromHeader maxLength sanitizePath text
     = Normal (extractFileNamesFromHeader sanitizePath text)
  /\ (2 * length text + 1 <= maxLength ->
      Bounded.autoFixSpaces maxLength text = Normal (autoFixSpaces text))
  /\ (5 * length text + 79 <= maxLength ->
      Bounded.addMissingHeaders maxLength text
      = Normal (addMissingHeaders text))
  /\ (7 * length text + 6 <= maxLength ->
      exists out,
        Bounded.adjustHunkHeaders maxLength text = Normal out
        /\ adjustHunkHeaders text = Normal out)
  /\ (10 * length text + 84 <= maxLength ->
      Bounded.normalizeDiff maxLength text = Normal (normalizeDiff text))
  /\ (forall (i : nat) (line : str),
        nth_error (Str.split text) i = Some line ->
        nth_error (Str.split (autoFixSpaces text)) i
        = Some (if hasMarker line || isBlank line then line else SP :: line))
  /\ (forall (out : str) (i : nat) (line : str),
        adjustHunkHeaders text = Normal out ->
        nth_error (Str.split text) i = Some line -> ~ HunkHeader line ->
        nth_error (Str.split out) i = Some line).
Proof.
  intros H.
  split; [now apply normalizeLineEndings_returns|].
  split; [now apply isUnifiedDiff_returns|].
  split; [now apply extractFileNamesFromHeader_returns|].
  split; [apply autoFixSpaces_returns|].
  split; [apply addMissingHeaders_returns|].
  split.
  { intros H7. eexists. split; [now apply adjustHunkHeaders_returns|].
    apply adjustHunkHeaders_adjustLines. }
  split; [apply normalizeDiff_returns|].
  split.
  - intros i line Hl. rewrite autoFixSpaces_lines, nth_error_map, Hl.
    reflexivity.
  - intros out i line Hout Hl Hh.
    destruct (adjustHunkHeaders_lines text) as (out' & Hout' & Hsplit).
    rewrite Hout in Hout'. injection Hout' as <-. rewrite Hsplit.
    now apply adjustLines_passthrough.
Qed.

End EngineLimit.

(** *** A string of the greatest length *)

Lemma xs_length (n : nat) : length (xs n) = n.
Proof. apply repeat_length. Qed.

Lemma includes_xs (p : str) (c : char) (n : nat) :
  (c =? 120)%N = false -> Str.includes (c :: p) (xs n) = false.
Proof.
  intros H. unfold xs. induction n as [|n IH]; [reflexivity|].
  cbn [repeat Str.includes Str.startsWith]. now rewrite H, IH.
Qed.

Lemma trimStart_suffix (s : str) : exists a, s = a ++ Str.trimStart s.
Proof.
  induction s as [|c s [a IH]]; [now exists []|]. cbn [Str.trimStart].
  destruct (Char.isWhiteSpace c); [|now exists []].
  exists (c :: a). cbn [app]. now f_equal.
Qed.

Lemma trim_part (s : str) : exists a b, s = a ++ Str.trim s ++ b.
Proof.
  unfold Str.trim, Str.trimEnd.
  destruct (trimStart_suffix s) as [a Ha].
  destruct (trimStart_suffix (rev (Str.trimStart s))) as [b Hb].
  exists a, (rev b). rewrite <- rev_app_distr, <- Hb, rev_involutive.
  exact Ha.
Qed.

Lemma startsWith_trim_xs (p : str) (c : char) (n : nat) :
  (c =? 120)%N = false -> Str.startsWith (c :: p) (Str.trim (xs n)) = false.
Proof.
  intros H. destruct (trim_part (xs n)) as (a & b & E).
  destruct (Str.trim (xs n)) as [|x t]; [reflexivity|].
  assert (Hx : x = 120%N).
  { assert (Hin : In x (xs n))
      by (rewrite E; apply in_or_app; right; now left).
    exact (repeat_spec n _ _ Hin). }
  subst x. cbn [Str.startsWith]. now rewrite H.
Qed.

(** Whatever the greatest length is, the synthesizer throws on the string
    of that many letters: the text with the preamble is longer. *)
Lemma addMissingHeaders_throws (maxLength : nat) :
  Bounded.addMissingHeaders maxLength (xs maxLength) = Throw.
Proof.
  unfold Bounded.addMissingHeaders.
  rewrite trim_returns by (rewrite xs_length; apply Nat.le_refl).
  assert (Hdiff : Str.startsWith (lit "diff ") (Str.trim (xs maxLength)) = false)
    by exact (startsWith_trim_xs (lit "iff ") 100%N maxLength eq_refl).
  assert (Hplus : Str.includes (lit "+++ ") (xs maxLength) = false)
    by exact (includes_xs (lit "++ ") 43%N maxLength eq_refl).
  assert (Hminus : Str.includes (lit "--- ") (xs maxLength) = false)
    by exact (includes_xs (lit "-- ") 45%N maxLength eq_refl).
  cbn [bind]. rewrite Hdiff. cbn [negb].
  unfold Bounded.exec.
  destruct (exec Pattern.newFilePath (xs maxLength)) as [m|] eqn:E.
  { apply newFilePath_includes in E. congruence. }
  cbn [bind]. rewrite Hplus, Hminus. cbn [negb andb].
  repeat match goal with
    | |- bind (Bounded.newString ?n ?s) _ = Throw =>
        unfold Bounded.newString at 1;
        destruct (length s <=? n); [cbn [bind] | reflexivity]
    | |- bind (Bounded.join ?n ?s) _ = Throw =>
        unfold Bounded.join, Bounded.newString at 1;
        destruct (length (Str.join s) <=? n); [cbn [bind] | reflexivity]
    end.
  apply newString_over. rewrite length_app, xs_length.
  cbn. lia.
Qed.

Lemma noTerminator_xs (n : nat) : noTerminator (xs n) = true.
Proof. unfold xs. induction n as [|n IH]; [reflexivity|]. cbn [repeat noTerminator forallb]. exact IH. Qed.

(** So does the recalculator on a header with the counts left out, followed
    by letters up to the greatest length: the rewritten header shows both
    counts and is four code units longer. *)
Lemma adjustHunkHeaders_throws (k : nat) :
  length (lit "@@ -1 +1 @@" ++ xs k) = 11 + k
  /\ Bounded.adjustHunkHeaders (11 + k) (lit "@@ -1 +1 @@" ++ xs k) = Throw.
Proof.
  assert (Hlen : length (lit "@@ -1 +1 @@" ++ xs k) = 11 + k)
    by (rewrite length_app, xs_length; reflexivity).
  split; [exact Hlen|].
  assert (Hline : Str.split (lit "@@ -1 +1 @@" ++ xs k)
                  = [lit "@@ -1 +1 @@" ++ xs k]).
  { apply split_line. rewrite isLine_app.
    now rewrite (noTerminator_isLine _ (noTerminator_xs k)). }
  assert (Hexec : exec Pattern.hunkHeader (lit "@@ -1 +1 @@" ++ xs k)
                  = Some (hunkCaptures (lit "@@ -1 +1 @@" ++ xs k)
                            (lit "1") None (lit "1") None (xs k))).
  { apply (hunkHeader_exec (lit "1") (lit "1") (xs k) None None);
      try reflexivity. apply noTerminator_xs. }
  unfold Bounded.adjustHunkHeaders.
  rewrite split_returns by (rewrite Hlen; apply Nat.le_refl).
  rewrite Hline. cbn [bind length Bounded.hunkLoop Nat.ltb Nat.leb nth_error].
  rewrite hunkHeader_returns by (rewrite Hlen; apply Nat.le_refl).
  rewrite Hexec. cbn [bind].
  rewrite lookAheadLoop_lookAhead by (cbn [length]; lia).
  cbn [Nat.add skipn lookAhead bind].
  rewrite hunkLine_hunkCaptures, newString_over; [reflexivity|].
  unfold hunkHeaderText. cbn [countField].
  repeat (rewrite length_app). rewrite xs_length. cbn. lia.
Qed.

Lemma stages_return_witness :
  Bounded.normalizeLineEndings 1000 roughText
  = Normal (normalizeLineEndings roughText)
  /\ Bounded.autoFixSpaces 1000 roughText = Normal (autoFixSpaces roughText)
  /\ Bounded.addMissingHeaders 1000 roughText
     = Normal (addMissingHeaders roughText)
  /\ Bounded.adjustHunkHeaders 1000 roughText = adjustHunkHeaders roughText
  /\ Bounded.normalizeDiff 1000 roughText = Normal (normalizeDiff roughText)
  /\ nth_error (Str.split (autoFixSpaces roughText)) 3
     = Some (SP :: lit "context" ++ [CR]).
Proof.
  assert (Hlen : length roughText = 37) by reflexivity.
  destruct (stages_return 1000 dropControls roughText
              ltac:(rewrite Hlen; lia))
    as (Hn & _ & _ & Hr & Hs & Ha & Hd & Hl & _).
  split; [exact Hn|].
  split; [apply Hr; rewrite Hlen; lia|].
  split; [apply Hs; rewrite Hlen; lia|].
  split.
  { destruct Ha as (out & -> & ->); [rewrite Hlen; lia | reflexivity]. }
  split; [apply Hd; rewrite Hlen; lia|].
  exact (Hl 3 (lit "context" ++ [CR]) eq_refl).
Defined.

(** C7 as the specification words it fails twice.  An unrecognized line is
    not left unchanged: the repairer puts a space before it.  And a stage
    can throw: whatever the greatest length of a string is, the string of
    that many letters makes the synthesizer throw. *)
Lemma stages_spec_fails :
  hasMarker (lit "hello") = false
  /\ isBlank (lit "hello") = false
  /\ autoFixSpaces (lit "hello") = lit " hello"
  /\ normalizeDiff (lit "hello")
     = text ["diff --git a/unknown-file b/unknown-file";
             "--- a/unknown-file"; "+++ b/unknown-file"; " hello"]%string
  /\ (forall maxLength : nat,
        length (xs maxLength) = maxLength
        /\ Bounded.addMissingHeaders maxLength (xs maxLength) = Throw).
Proof.
  repeat split; try reflexivity.
  - apply xs_length.
  - apply addMissingHeaders_throws.
Qed.
